(** * FinovateX: envelope codec, durable pull-consumer harness, benchmarks,
      configuration and logging

    A shallow embedding of [tests/test_app_integration.py],
    [src/utils/config.py] and [src/utils/logger.py].  Python values are an inductive type, Python
    exceptions are the [Raise] branch of [result], and every method that
    touches an object takes the object's state and gives it back. *)

From Stdlib Require Import List NArith ZArith QArith Qround Bool Ascii String Lia Lqa.
From Stdlib Require DecimalString.
Import ListNotations.
Close Scope Q_scope.

Set Implicit Arguments.
Set Warnings "-register-all".

(* ================================================================== *)
(** ** Python strings, values and exceptions *)

Module Py.

(** A Python [str] is a sequence of code points. *)
Definition str := list N.

Definition lit (s : string) : str :=
  map N_of_ascii (list_ascii_of_string s).

(** A literal of JSON text, written with ['] where the text has the
    double quote (code point 34). *)
Definition jlit (s : string) : str :=
  map (fun c => if N.eqb c 39 then 34%N else c) (lit s).

Fixpoint str_eqb (a b : str) : bool :=
  match a, b with
  | [], [] => true
  | x :: a', y :: b' => N.eqb x y && str_eqb a' b'
  | _, _ => false
  end.

(** The exceptions the modelled code can see. *)
Inductive exn :=
| KeyError | TypeError | ValueError | JSONDecodeError | RuntimeError
| ZeroDivisionError | AssertionError
| TimeoutError | NoStreamResponse | BrokerError.

Inductive result (A : Type) :=
| Ok (a : A)
| Raise (e : exn).
Arguments Ok {A} a.
Arguments Raise {A} e.

Definition bind {A B} (r : result A) (k : A -> result B) : result B :=
  match r with
  | Ok a => k a
  | Raise e => Raise e
  end.

Definition is_ok {A} (r : result A) : bool :=
  match r with Ok _ => true | Raise _ => false end.

(** A point in time as [datetime] stores it.  [utcoffset] is what the
    [tzinfo] gives, in microseconds: [None] for a naive value, which is
    what [datetime.now()] returns. *)
Record datetime := mkDatetime {
  year : N; month : N; day : N;
  hour : N; minute : N; second : N; microsecond : N;
  utcoffset : option Z }.

(** Dynamically typed values: what [json.loads] can build, and what an
    attribute or a dictionary slot can hold.  A float is carried as the
    decimal literal that denotes it. *)
Inductive pyval :=
| PNone
| PBool (b : bool)
| PInt (z : Z)
| PFloat (lexeme : str)
| PStr (s : str)
| PList (l : list pyval)
| PDict (d : list (str * pyval)).

(** Dictionaries keep insertion order; a key occurs once. *)
Definition dict := list (str * pyval).

Fixpoint dict_get (d : dict) (k : str) : option pyval :=
  match d with
  | [] => None
  | (k', v) :: d' => if str_eqb k' k then Some v else dict_get d' k
  end.

Fixpoint dict_set (d : dict) (k : str) (v : pyval) : dict :=
  match d with
  | [] => [(k, v)]
  | (k', v') :: d' =>
      if str_eqb k' k then (k', v) :: d' else (k', v') :: dict_set d' k v
  end.

(** [value[k]] with a [str] subscript: a dictionary looks the key up, a
    string or list wants an integer index, anything else is not
    subscriptable. *)
Definition getitem (value : pyval) (k : str) : result pyval :=
  match value with
  | PDict d =>
      match dict_get d k with
      | Some v => Ok v
      | None => Raise KeyError
      end
  | _ => Raise TypeError
  end.

Local Open Scope N_scope.

Definition is_digit (c : N) : bool := (48 <=? c) && (c <=? 57).

Fixpoint span_digits (s : str) : str * str :=
  match s with
  | c :: s' =>
      if is_digit c then let (ds, r) := span_digits s' in (c :: ds, r)
      else ([], s)
  | [] => ([], [])
  end.

Definition digits_value (ds : str) : N :=
  fold_left (fun acc d => acc * 10 + (d - 48)) ds 0.

(** The exponent of a float literal: nothing, or [e] or [E], an optional
    sign and digits. *)
Definition exponent (s : str) : option Z :=
  match s with
  | [] => Some 0%Z
  | e :: s' =>
      if (e =? 101) || (e =? 69) then
        let (neg, ds) :=
          match s' with
          | g :: t => if g =? 45 then (true, t)
                      else if g =? 43 then (false, t) else (false, s')
          | [] => (false, s')
          end in
        match ds with
        | [] => None
        | _ =>
            if forallb is_digit ds then
              let n := Z.of_N (digits_value ds) in
              Some (if neg then (- n)%Z else n)
            else None
        end
      else None
  end.

(** Whether a float literal denotes a zero.  The literal [m * 10^e] is
    rounded to the nearest double, ties to even, so it is zero when it is
    at most half the smallest subnormal, [2^-1075]; [NaN] and the
    infinities are not zero. *)
Definition float_is_zero (lexeme : str) : bool :=
  let s :=
    match lexeme with
    | c :: s' => if c =? 45 then s' else lexeme
    | [] => lexeme
    end in
  let (ipart, r1) := span_digits s in
  let (frac, r2) :=
    match r1 with
    | p :: r1' => if p =? 46 then span_digits r1' else ([], r1)
    | [] => ([], r1)
    end in
  match ipart, exponent r2 with
  | _ :: _, Some e =>
      let m := Z.of_N (digits_value (ipart ++ frac)) in
      let e10 := (e - Z.of_nat (List.length frac))%Z in
      (m =? 0)%Z
      || ((e10 <? 0)%Z && (m * 2 ^ 1075 <=? 10 ^ (- e10))%Z)
  | _, _ => false
  end.

Local Close Scope N_scope.

(** Truth value, as [or] and [if] take it. *)
Definition truthy (v : pyval) : bool :=
  match v with
  | PNone => false
  | PBool b => b
  | PInt z => negb (Z.eqb z 0)
  | PFloat lexeme => negb (float_is_zero lexeme)
  | PStr s => match s with [] => false | _ => true end
  | PList l => match l with [] => false | _ => true end
  | PDict d => match d with [] => false | _ => true end
  end.

(** [s.split(sep)] for a one-character separator. *)
Fixpoint split_from (sep : N) (s cur : str) : list str :=
  match s with
  | [] => [rev cur]
  | c :: s' =>
      if N.eqb c sep then rev cur :: split_from sep s' []
      else split_from sep s' (c :: cur)
  end.

Definition split (sep : N) (s : str) : list str := split_from sep s [].

Lemma str_eqb_refl (a : str) : str_eqb a a = true.
Proof.
  induction a as [|x a IH]; simpl; [reflexivity|].
  now rewrite N.eqb_refl, IH.
Qed.

Lemma str_eqb_eq (a b : str) : str_eqb a b = true <-> a = b.
Proof.
  split.
  - revert b; induction a as [|x a IH]; intros [|y b]; simpl; try discriminate; auto.
    intros H; apply andb_true_iff in H as [Hx Hab].
    apply N.eqb_eq in Hx; subst; f_equal; auto.
  - intros ->; apply str_eqb_refl.
Qed.

End Py.

(* ================================================================== *)
(** ** [src/utils/config.py] *)

Module Config.
Import Py.
Local Open Scope string_scope.

(** The object state: the [_config] dictionary. *)
Record t := mk { _config : dict }.

Definition _load_defaults : t :=
  mk [ (lit "app", PDict [ (lit "name", PStr (lit "finovatex"));
                           (lit "version", PStr (lit "0.1.0"));
                           (lit "debug", PBool false);
                           (lit "port", PInt 8080) ]);
       (lit "database", PDict [ (lit "host", PStr (lit "localhost"));
                                (lit "port", PInt 5432);
                                (lit "name", PStr (lit "finovatex"));
                                (lit "user", PStr (lit "postgres"));
                                (lit "password", PStr (lit "")) ]);
       (lit "redis", PDict [ (lit "host", PStr (lit "localhost"));
                             (lit "port", PInt 6379);
                             (lit "db", PInt 0) ]);
       (lit "logging", PDict [ (lit "level", PStr (lit "INFO"));
                               (lit "format", PStr (lit
                                 "%(asctime)s - %(name)s - %(levelname)s - %(message)s")) ]);
       (lit "monitoring", PDict [ (lit "prometheus_port", PInt 9090);
                                  (lit "metrics_enabled", PBool true) ]) ].

(** The body of the [try]: [for k in keys: value = value[k]]. *)
Fixpoint traverse (keys : list str) (value : pyval) : result pyval :=
  match keys with
  | [] => Ok value
  | k :: keys' => bind (getitem value k) (traverse keys')
  end.

Definition dot : N := 46.

(** [Config.get]: the result (a value or a raised exception) and the
    object afterwards. *)
Definition get (key : str) (default : pyval) (self : t) : result pyval * t :=
  let keys := split dot key in
  let value := PDict (_config self) in
  match traverse keys value with
  | Ok v => (Ok v, self)
  | Raise KeyError => (Ok default, self)
  | Raise TypeError => (Ok default, self)
  | Raise e => (Raise e, self)
  end.

(** [traverse] raises nothing but the two exceptions [get] catches. *)
Lemma traverse_raises (keys : list str) (value : pyval) (e : exn) :
  traverse keys value = Raise e -> e = KeyError \/ e = TypeError.
Proof.
  revert value; induction keys as [|k keys IH]; intros value; simpl.
  - discriminate.
  - destruct value; simpl; try (intros [= <-]; now right).
    destruct (dict_get d k) as [v|]; simpl.
    + apply IH.
    + intros [= <-]; now left.
Qed.

(** C10. [Config.get] never raises; when the walk along the dotted path
    succeeds it returns the value found, when it fails at any step (a
    missing key, or a value on the way that is not a dictionary) it
    returns the default; the configuration is the same afterwards. *)
Theorem get_total_default (key : str) (default : pyval) (self : t) :
  (exists v, get key default self = (Ok v, self)) /\
  (forall v, traverse (split dot key) (PDict (_config self)) = Ok v ->
             get key default self = (Ok v, self)) /\
  (forall e, traverse (split dot key) (PDict (_config self)) = Raise e ->
             get key default self = (Ok default, self)).
Proof.
  unfold get.
  destruct (traverse (split dot key) (PDict (_config self))) as [v|e] eqn:E.
  - split; [now exists v|]. split; [now intros ? [= <-]|discriminate].
  - destruct (traverse_raises _ _ E) as [-> | ->].
    + split; [now exists default|]. split; [discriminate|reflexivity].
    + split; [now exists default|]. split; [discriminate|reflexivity].
Qed.

(** *** The constructor

    What the constructor builds is new and nothing else refers to it, so
    it is given as a value.  The surroundings it reads are the
    environment, the file system ([Path(config_file).exists()]) and the
    built-ins [int] and [str.lower]. *)

Section Environment.

Variable getenv : str -> option str.
Variable path_exists : str -> bool.
Variable int : str -> result Z.
Variable lower : str -> str.

(** [os.getenv(name, default)]. *)
Definition os_getenv (name default : str) : str :=
  match getenv name with
  | Some v => v
  | None => default
  end.

(** [if os.getenv(name):] the variable is set and not empty. *)
Definition env_set (name : str) : bool :=
  match getenv name with
  | Some (_ :: _) => true
  | _ => false
  end.

(** [os.getenv(name)] as a value. *)
Definition env_value (name : str) : pyval :=
  match getenv name with
  | Some v => PStr v
  | None => PNone
  end.

(** [self._config[section][key] = value]. *)
Definition setitem2 (section key : str) (value : pyval) (self : t) : result t :=
  match getitem (PDict (_config self)) section with
  | Raise e => Raise e
  | Ok (PDict d) =>
      Ok (mk (dict_set (_config self) section (PDict (dict_set d key value))))
  | Ok _ => Raise TypeError
  end.

(** [_load_from_file]: its body is [pass]. *)
Definition _load_from_file (config_file : str) (self : t) : t := self.

Definition _load_from_env (self : t) : result t :=
  bind (if env_set (lit "DEBUG")
        then setitem2 (lit "app") (lit "debug")
               (PBool (str_eqb (lower (os_getenv (lit "DEBUG") (lit "false")))
                               (lit "true"))) self
        else Ok self) (fun self =>
  bind (if env_set (lit "PORT")
        then bind (int (os_getenv (lit "PORT") (lit "8000"))) (fun n =>
               setitem2 (lit "app") (lit "port") (PInt n) self)
        else Ok self) (fun self =>
  bind (if env_set (lit "DB_HOST")
        then setitem2 (lit "database") (lit "host") (env_value (lit "DB_HOST")) self
        else Ok self) (fun self =>
  bind (if env_set (lit "DB_PORT")
        then bind (int (os_getenv (lit "DB_PORT") (lit "5432"))) (fun n =>
               setitem2 (lit "database") (lit "port") (PInt n) self)
        else Ok self) (fun self =>
  bind (if env_set (lit "DB_NAME")
        then setitem2 (lit "database") (lit "name") (env_value (lit "DB_NAME")) self
        else Ok self) (fun self =>
  bind (if env_set (lit "DB_USER")
        then setitem2 (lit "database") (lit "user") (env_value (lit "DB_USER")) self
        else Ok self) (fun self =>
  bind (if env_set (lit "DB_PASSWORD")
        then setitem2 (lit "database") (lit "password")
               (env_value (lit "DB_PASSWORD")) self
        else Ok self) (fun self =>
  bind (if env_set (lit "REDIS_HOST")
        then setitem2 (lit "redis") (lit "host") (env_value (lit "REDIS_HOST")) self
        else Ok self) (fun self =>
  bind (if env_set (lit "REDIS_PORT")
        then bind (int (os_getenv (lit "REDIS_PORT") (lit "6379"))) (fun n =>
               setitem2 (lit "redis") (lit "port") (PInt n) self)
        else Ok self) (fun self =>
  bind (if env_set (lit "REDIS_DB")
        then bind (int (os_getenv (lit "REDIS_DB") (lit "0"))) (fun n =>
               setitem2 (lit "redis") (lit "db") (PInt n) self)
        else Ok self) (fun self =>
  bind (if env_set (lit "LOG_LEVEL")
        then setitem2 (lit "logging") (lit "level") (env_value (lit "LOG_LEVEL")) self
        else Ok self) (fun self =>
  Ok self))))))))))).

(** [Config(config_file)]. *)
Definition __init__ (config_file : option str) : result t :=
  let self := mk [] in
  let self := _load_defaults in
  let self :=
    match config_file with
    | Some (c :: f) =>
        if path_exists (c :: f) then _load_from_file (c :: f) self else self
    | _ => self
    end in
  _load_from_env self.

(** The eleven variables, each with the place it goes to and the value
    it gives. *)
Definition overrides : list (str * (str * str) * result pyval) :=
  [ (lit "DEBUG", (lit "app", lit "debug"),
     Ok (PBool (str_eqb (lower (os_getenv (lit "DEBUG") (lit "false")))
                        (lit "true"))));
    (lit "PORT", (lit "app", lit "port"),
     bind (int (os_getenv (lit "PORT") (lit "8000"))) (fun n => Ok (PInt n)));
    (lit "DB_HOST", (lit "database", lit "host"), Ok (env_value (lit "DB_HOST")));
    (lit "DB_PORT", (lit "database", lit "port"),
     bind (int (os_getenv (lit "DB_PORT") (lit "5432"))) (fun n => Ok (PInt n)));
    (lit "DB_NAME", (lit "database", lit "name"), Ok (env_value (lit "DB_NAME")));
    (lit "DB_USER", (lit "database", lit "user"), Ok (env_value (lit "DB_USER")));
    (lit "DB_PASSWORD", (lit "database", lit "password"),
     Ok (env_value (lit "DB_PASSWORD")));
    (lit "REDIS_HOST", (lit "redis", lit "host"), Ok (env_value (lit "REDIS_HOST")));
    (lit "REDIS_PORT", (lit "redis", lit "port"),
     bind (int (os_getenv (lit "REDIS_PORT") (lit "6379"))) (fun n => Ok (PInt n)));
    (lit "REDIS_DB", (lit "redis", lit "db"),
     bind (int (os_getenv (lit "REDIS_DB") (lit "0"))) (fun n => Ok (PInt n)));
    (lit "LOG_LEVEL", (lit "logging", lit "level"),
     Ok (env_value (lit "LOG_LEVEL"))) ].

(** One [if os.getenv(name): ...] of [_load_from_env]. *)
Definition override (r : str * (str * str) * result pyval) (self : t) : result t :=
  let '(name, (section, key), rhs) := r in
  if env_set name
  then bind rhs (fun v => setitem2 section key v self)
  else Ok self.

Fixpoint run (rules : list (str * (str * str) * result pyval)) (self : t)
  : result t :=
  match rules with
  | [] => Ok self
  | r :: rules' => bind (override r self) (run rules')
  end.

Lemma bind_bind (A B C : Type) (r : result A) (f : A -> result B)
    (g : B -> result C) :
  bind (bind r f) g = bind r (fun a => bind (f a) g).
Proof. now destruct r. Qed.

Lemma bind_congr (A B : Type) (r r' : result A) (f f' : A -> result B) :
  r = r' -> (forall a, f a = f' a) -> bind r f = bind r' f'.
Proof. intros <- H. destruct r; [apply H|reflexivity]. Qed.

(** [_load_from_env] is the eleven overrides, one after the other. *)
Lemma _load_from_env_run (self : t) : _load_from_env self = run overrides self.
Proof.
  unfold _load_from_env, overrides. cbn [run override]. revert self.
  repeat (intro; apply bind_congr;
          [destruct (env_set _); [|reflexivity]; try reflexivity;
           rewrite bind_bind; reflexivity|]).
  reflexivity.
Qed.

(** What [self._config[section][key]] holds, if it is there. *)
Definition lookup2 (section key : str) (self : t) : option pyval :=
  match dict_get (_config self) section with
  | Some (PDict d) => dict_get d key
  | _ => None
  end.

Definition is_section (section : str) (self : t) : Prop :=
  exists d, dict_get (_config self) section = Some (PDict d).

(** What the overrides make of the value [cur] at one place. *)
Fixpoint effect (rules : list (str * (str * str) * result pyval))
    (section key : str) (cur : option pyval) : option pyval :=
  match rules with
  | [] => cur
  | (name, (s, k), rhs) :: rules' =>
      effect rules' section key
        (if str_eqb s section && str_eqb k key && env_set name
         then match rhs with Ok v => Some v | Raise _ => cur end
         else cur)
  end.

Lemma dict_get_set (d : dict) (k k' : str) (v : pyval) :
  dict_get (dict_set d k v) k'
  = if str_eqb k k' then Some v else dict_get d k'.
Proof.
  induction d as [|[k0 v0] d IH]; cbn [dict_set dict_get].
  - reflexivity.
  - destruct (str_eqb k0 k) eqn:E; cbn [dict_get].
    + apply str_eqb_eq in E. subst k0. now destruct (str_eqb k k').
    + destruct (str_eqb k0 k') eqn:E'; [|exact IH].
      apply str_eqb_eq in E'. subst k0.
      destruct (str_eqb k k') eqn:E2; [|reflexivity].
      apply str_eqb_eq in E2. subst k. rewrite str_eqb_refl in E. discriminate.
Qed.

Lemma setitem2_spec (section key : str) (value : pyval) (self : t) :
  is_section section self ->
  exists self',
    setitem2 section key value self = Ok self' /\
    (forall s, is_section s self -> is_section s self') /\
    forall s k,
      lookup2 s k self'
      = if str_eqb section s && str_eqb key k then Some value
        else lookup2 s k self.
Proof.
  intros [d Hd]. unfold setitem2. cbn [getitem]. rewrite Hd.
  eexists. split; [reflexivity|]. split.
  - intros s [d' Hd']. unfold is_section. cbn [_config].
    rewrite dict_get_set. destruct (str_eqb section s); eauto.
  - intros s k. unfold lookup2. cbn [_config]. rewrite dict_get_set.
    destruct (str_eqb section s) eqn:E; cbn [andb]; [|reflexivity].
    apply str_eqb_eq in E. subst s. rewrite Hd, dict_get_set.
    now destruct (str_eqb key k).
Qed.

Lemma run_spec (rules : list (str * (str * str) * result pyval)) :
  forall self : t,
    (forall name s k rhs, In (name, (s, k), rhs) rules -> is_section s self) ->
    match run rules self with
    | Ok self' =>
        (forall s k, lookup2 s k self' = effect rules s k (lookup2 s k self)) /\
        (forall name target rhs, In (name, target, rhs) rules ->
           env_set name = true -> exists v, rhs = Ok v)
    | Raise e =>
        exists name target, In (name, target, Raise e) rules /\ env_set name = true
    end.
Proof.
  induction rules as [|[[name [s k]] rhs] rules IH]; intros self Hsec.
  - cbn [run effect]. split; [reflexivity|intros ? ? ? []].
  - cbn [run override effect].
    assert (Hrest : forall self', (forall s0, is_section s0 self -> is_section s0 self') ->
              forall name0 s0 k0 rhs0, In (name0, (s0, k0), rhs0) rules ->
                                       is_section s0 self').
    { intros self' Hkeep name0 s0 k0 rhs0 Hin. apply Hkeep.
      apply (Hsec name0 s0 k0 rhs0). now right. }
    destruct (env_set name) eqn:Eset; cbn [bind].
    + destruct rhs as [v|e]; cbn [bind].
      * destruct (@setitem2_spec s k v self) as (self1 & -> & Hkeep & Hlook).
        { apply (Hsec name s k (Ok v)). now left. }
        cbn [bind]. specialize (IH self1 (Hrest self1 Hkeep)).
        destruct (run rules self1) as [self'|e].
        -- destruct IH as [IH1 IH2]. split.
           ++ intros s0 k0. now rewrite IH1, Hlook, andb_true_r.
           ++ intros name0 target0 rhs0 [[= <- <- <-]|Hin] Hset; [eauto|].
              exact (IH2 name0 target0 rhs0 Hin Hset).
        -- destruct IH as (name0 & target0 & Hin & Hset).
           exists name0, target0. split; [now right|exact Hset].
      * exists name, (s, k). split; [now left|exact Eset].
    + specialize (IH self (Hrest self (fun _ H => H))).
      destruct (run rules self) as [self'|e].
      * destruct IH as [IH1 IH2]. split.
        { intros s0 k0. now rewrite IH1, andb_false_r. }
        intros name0 target0 rhs0 [[= <- <- <-]|Hin] Hset; [congruence|].
        exact (IH2 name0 target0 rhs0 Hin Hset).
      * destruct IH as (name0 & target0 & Hin & Hset).
        exists name0, target0. split; [now right|exact Hset].
Qed.


Lemma defaults_sections (name s k : str) (rhs : result pyval) :
  In (name, (s, k), rhs) overrides -> is_section s _load_defaults.
Proof.
  unfold overrides. intros H.
  repeat (destruct H as [[= <- <- <- <-]|H]; [eexists; reflexivity|]).
  destruct H.
Qed.

Lemma get_lookup2 (key section k : str) (default : pyval) (self : t) :
  split dot key = [section; k] ->
  fst (get key default self)
  = Ok (match lookup2 section k self with Some v => v | None => default end).
Proof.
  intros Hk. unfold get, lookup2. rewrite Hk. cbn [traverse getitem].
  destruct (dict_get (_config self) section) as [v|]; [|reflexivity].
  cbn [bind].
  destruct v; try reflexivity.
  cbn [getitem]. now destruct (dict_get d k).
Qed.


(** Whatever the file, the constructor does what it does without
    one. *)
Lemma init_file (config_file : option str) :
  __init__ config_file = __init__ None.
Proof.
  unfold __init__, _load_from_file.
  destruct config_file as [[|c f]|]; try reflexivity.
  now destruct (path_exists (c :: f)).
Qed.


(** X2. In a configuration the constructor returned, each of the eleven
    places holds what its variable gives when the variable is set and
    not empty, and the default otherwise. *)
Theorem init_overrides (config_file : option str) (self : t) (default : pyval)
    (name section key : str) (rhs : result pyval) :
  __init__ config_file = Ok self ->
  In (name, (section, key), rhs) overrides ->
  fst (get (section ++ [dot] ++ key)%list default self)
  = if env_set name then rhs
    else fst (get (section ++ [dot] ++ key)%list default _load_defaults).
Proof.
  intros Hinit Hin.
  rewrite init_file in Hinit.
  unfold __init__ in Hinit. rewrite _load_from_env_run in Hinit.
  pose proof (@run_spec overrides _load_defaults defaults_sections) as Hspec.
  rewrite Hinit in Hspec. destruct Hspec as [Hlook Hrhs].
  assert (Hsplit : split dot (section ++ [dot] ++ key)%list = [section; key]).
  { unfold overrides in Hin.
    repeat (destruct Hin as [[= <- <- <- <-]|Hin]; [reflexivity|]).
    destruct Hin. }
  rewrite !(@get_lookup2 _ section key default _ Hsplit), Hlook.
  specialize (Hrhs name (section, key) rhs Hin).
  clear Hinit Hlook Hsplit. unfold overrides in Hin |- *.
  repeat (destruct Hin as [Heq|Hin];
          [injection Heq as <- <- <- <-; cbn [effect];
           repeat match goal with
                  | |- context [str_eqb (lit ?a) (lit ?b)] =>
                      let r := eval vm_compute in (str_eqb (lit a) (lit b)) in
                      change (str_eqb (lit a) (lit b)) with r
                  end;
           cbn [andb];
           match goal with
           | |- context [if env_set ?n then _ else _] =>
               destruct (env_set n);
               [|repeat match goal with
                        | |- context [if false then _ else _] => cbv iota
                        end; reflexivity]
           end;
           match goal with
           | |- context [bind ?r _] =>
               destruct r; [reflexivity|];
               destruct (Hrhs eq_refl); discriminate
           | |- _ => reflexivity
           end|]).
  destruct Hin.
Qed.


End Environment.

(** The environment of [test_config_from_env]. *)
Definition test_environ (name : str) : option str :=
  if str_eqb name (lit "DEBUG") then Some (lit "true")
  else if str_eqb name (lit "PORT") then Some (lit "9000")
  else if str_eqb name (lit "DB_HOST") then Some (lit "test_host")
  else if str_eqb name (lit "LOG_LEVEL") then Some (lit "DEBUG")
  else None.

(** [int] on a run of ASCII digits and [lower] on ASCII letters, which
    is all that environment asks of them. *)
Definition decimal (s : str) : result Z :=
  match s with
  | [] => Raise ValueError
  | _ => if forallb is_digit s then Ok (Z.of_N (digits_value s))
         else Raise ValueError
  end.

Definition ascii_lower (s : str) : str :=
  map (fun c => if (N.leb 65 c && N.leb c 90)%bool then N.add c 32 else c) s.

Lemma init_overrides_witness :
  exists self,
    __init__ test_environ (fun _ => false) decimal ascii_lower None = Ok self /\
    fst (get (lit "app.port") PNone self) = Ok (PInt 9000) /\
    fst (get (lit "database.port") PNone self) = Ok (PInt 5432).
Proof.
  eexists. split; [vm_compute; reflexivity|]. split.
  - refine (@init_overrides test_environ (fun _ => false) decimal ascii_lower
              None _ PNone (lit "PORT") (lit "app") (lit "port") _ _ _).
    + vm_compute. reflexivity.
    + unfold overrides. cbn [In]. right. left. reflexivity.
  - refine (@init_overrides test_environ (fun _ => false) decimal ascii_lower
              None _ PNone (lit "DB_PORT") (lit "database") (lit "port") _ _ _).
    + vm_compute. reflexivity.
    + unfold overrides. cbn [In]. do 3 right. left. reflexivity.
Defined.

End Config.

(* ================================================================== *)
(** ** [Config.set] and [Config.to_dict]: dictionaries as objects

    [set] writes into the dictionaries it walks through and [to_dict]
    hands out a copy of the outer one only, so here a dictionary is an
    object in a store and a value refers to it: two references to one
    dictionary see each other's writes. *)

Module ConfigObject.
Import Py.
Local Open Scope string_scope.
Local Open Scope list_scope.

Definition loc := nat.

(** Values as [pyval] has them, a dictionary by reference. *)
Inductive val :=
| VNone
| VBool (b : bool)
| VInt (z : Z)
| VFloat (lexeme : str)
| VStr (s : str)
| VList (items : list val)
| VRef (l : loc).

(** The entries of one dictionary, in insertion order; a key occurs
    once. *)
Definition entries := list (str * val).

Fixpoint entry_get (d : entries) (k : str) : option val :=
  match d with
  | [] => None
  | (k', v) :: d' => if str_eqb k' k then Some v else entry_get d' k
  end.

Fixpoint entry_set (d : entries) (k : str) (v : val) : entries :=
  match d with
  | [] => [(k, v)]
  | (k', v') :: d' =>
      if str_eqb k' k then (k', v) :: d' else (k', v') :: entry_set d' k v
  end.

(** The store: the dictionaries made so far are those below [next]. *)
Record heap := mkHeap { cells : loc -> entries; next : loc }.

Definition write (l : loc) (d : entries) (h : heap) : heap :=
  mkHeap (fun l' => if Nat.eqb l' l then d else cells h l') (next h).

(** A new dictionary object with the entries [d]. *)
Definition new (d : entries) (h : heap) : loc * heap :=
  (next h,
   mkHeap (fun l' => if Nat.eqb l' (next h) then d else cells h l') (S (next h))).

(** The object state: [_config] refers to a dictionary. *)
Record t := mk { _config : loc }.

Fixpoint starts_with (k s : str) : bool :=
  match k, s with
  | [], _ => true
  | x :: k', y :: s' => N.eqb x y && starts_with k' s'
  | _ :: _, [] => false
  end.

(** [k in s] on strings: [k] occurs in [s]. *)
Fixpoint occurs (k s : str) : bool :=
  starts_with k s || match s with [] => false | _ :: s' => occurs k s' end.

(** [k in config] with a [str] on the left: a dictionary has the key, a
    string has the substring, a list has an equal item; anything else is
    not iterable. *)
Definition contains (config : val) (k : str) (h : heap) : result bool :=
  match config with
  | VRef l => Ok (match entry_get (cells h l) k with Some _ => true | None => false end)
  | VStr s => Ok (occurs k s)
  | VList items =>
      Ok (existsb (fun x => match x with VStr s => str_eqb s k | _ => false end)
                  items)
  | _ => Raise TypeError
  end.

(** [config[k]] with a [str] subscript. *)
Definition getitem (config : val) (k : str) (h : heap) : result val :=
  match config with
  | VRef l =>
      match entry_get (cells h l) k with
      | Some v => Ok v
      | None => Raise KeyError
      end
  | _ => Raise TypeError
  end.

(** [config[k] = v] with a [str] subscript: only a dictionary takes
    it. *)
Definition setitem (config : val) (k : str) (v : val) (h : heap)
  : result unit * heap :=
  match config with
  | VRef l => (Ok tt, write l (entry_set (cells h l) k v) h)
  | _ => (Raise TypeError, h)
  end.

(** The loop of [set] over [keys[:-1]]:
    [if k not in config: config[k] = {}] and then [config = config[k]]. *)
Fixpoint walk (keys : list str) (config : val) (h : heap) : result val * heap :=
  match keys with
  | [] => (Ok config, h)
  | k :: keys' =>
      match contains config k h with
      | Raise e => (Raise e, h)
      | Ok present =>
          let (r, h1) :=
            if present then (Ok tt, h)
            else let (l, h0) := new [] h in setitem config k (VRef l) h0 in
          match r with
          | Raise e => (Raise e, h1)
          | Ok _ =>
              match getitem config k h1 with
              | Raise e => (Raise e, h1)
              | Ok v => walk keys' v h1
              end
          end
      end
  end.

(** [Config.set]; [key.split(".")] is never empty, so [keys[-1]] is
    there. *)
Definition set (key : str) (value : val) (self : t) (h : heap)
  : result unit * heap :=
  let keys := split Config.dot key in
  let (r, h1) := walk (removelast keys) (VRef (_config self)) h in
  match r with
  | Raise e => (Raise e, h1)
  | Ok config => setitem config (last keys []) value h1
  end.

(** The body of the [try] of [get]. *)
Fixpoint traverse (keys : list str) (value : val) (h : heap) : result val :=
  match keys with
  | [] => Ok value
  | k :: keys' => bind (getitem value k h) (fun v => traverse keys' v h)
  end.

(** [Config.get], which writes nothing. *)
Definition get (key : str) (default : val) (self : t) (h : heap) : result val :=
  match traverse (split Config.dot key) (VRef (_config self)) h with
  | Ok v => Ok v
  | Raise KeyError => Ok default
  | Raise TypeError => Ok default
  | Raise e => Raise e
  end.

(** [Config.to_dict]: [self._config.copy()], a new dictionary with the
    same entries, which are the same objects. *)
Definition to_dict (self : t) (h : heap) : val * heap :=
  let (l, h') := new (cells h (_config self)) h in (VRef l, h').

(** Every dictionary made so far refers to dictionaries made so far. *)
Definition closed (h : heap) : bool :=
  forallb (fun l => forallb (fun kv => match snd kv with
                                       | VRef l' => Nat.ltb l' (next h)
                                       | _ => true
                                       end) (cells h l))
          (seq 0 (next h)).

Definition made (h : heap) (v : val) : Prop :=
  match v with VRef l => l < next h | _ => True end.

(** The dictionaries the loop of [set] goes through along [keys], as far
    as they are there already. *)
Fixpoint route (keys : list str) (config : val) (h : heap) : list loc :=
  match config with
  | VRef l =>
      l :: match keys with
           | [] => []
           | k :: keys' =>
               match entry_get (cells h l) k with
               | Some v => route keys' v h
               | None => []
               end
           end
  | _ => []
  end.

(** [set] from the dictionary [config] on, along a path that is not
    empty. *)
Fixpoint assign (keys : list str) (config : val) (value : val) (h : heap)
  : result unit * heap :=
  match keys with
  | [] => (Ok tt, h)
  | [k] => setitem config k value h
  | k :: keys' =>
      match contains config k h with
      | Raise e => (Raise e, h)
      | Ok present =>
          let (r, h1) :=
            if present then (Ok tt, h)
            else let (l, h0) := new [] h in setitem config k (VRef l) h0 in
          match r with
          | Raise e => (Raise e, h1)
          | Ok _ =>
              match getitem config k h1 with
              | Raise e => (Raise e, h1)
              | Ok v => assign keys' v value h1
              end
          end
      end
  end.

(** Whether [set] can go along [keys]: every value it has to step
    through, and the one it writes into, is a dictionary; where a key is
    missing the rest of the way is made. *)
Fixpoint clear (keys : list str) (config : val) (h : heap) : bool :=
  match config with
  | VRef l =>
      match keys with
      | [] => true
      | k :: keys' =>
          match entry_get (cells h l) k with
          | Some v => clear keys' v h
          | None => true
          end
      end
  | _ => false
  end.

(** The dictionaries made so far form trees: one that lies under a key
    of another is one layer further down, and it lies under that key of
    that dictionary only ([up] names them).  No dictionary is then
    reached twice on a way down, nor on two ways that have parted. *)
Definition shaped (lev : loc -> nat) (up : loc -> loc * str) (h : heap) : bool :=
  forallb (fun l => forallb (fun kv => match snd kv with
                                       | VRef l' =>
                                           Nat.ltb l' (next h)
                                           && Nat.eqb (lev l') (S (lev l))
                                           && Nat.eqb (fst (up l')) l
                                           && str_eqb (snd (up l')) (fst kv)
                                       | _ => true
                                       end) (cells h l))
          (seq 0 (next h)).

(** Two paths part: they go along together, then on by different
    keys.  Neither is the beginning of the other. *)
Definition part (p q : list str) : Prop :=
  exists c kp kq p' q',
    p = c ++ kp :: p' /\ q = c ++ kq :: q' /\ kp <> kq.

(** A value that is no dictionary. *)
Definition plain (v : val) : bool :=
  match v with VRef _ => false | _ => true end.

(** A value laid out in the store, as evaluating a display of it does:
    the dictionaries inside are made first, the outer one last. *)
Fixpoint allocate (p : pyval) (h : heap) : val * heap :=
  match p with
  | PNone => (VNone, h)
  | PBool b => (VBool b, h)
  | PInt z => (VInt z, h)
  | PFloat lexeme => (VFloat lexeme, h)
  | PStr s => (VStr s, h)
  | PList items =>
      let (vs, h') :=
        (fix each (items : list pyval) (h : heap) : list val * heap :=
           match items with
           | [] => ([], h)
           | x :: items' =>
               let (v, h1) := allocate x h in
               let (vs, h2) := each items' h1 in (v :: vs, h2)
           end) items h in
      (VList vs, h')
  | PDict d =>
      let (es, h') :=
        (fix each (d : list (str * pyval)) (h : heap) : entries * heap :=
           match d with
           | [] => ([], h)
           | (k, x) :: d' =>
               let (v, h1) := allocate x h in
               let (es, h2) := each d' h1 in ((k, v) :: es, h2)
           end) d h in
      let (l, h'') := new es h' in (VRef l, h'')
  end.

Fixpoint allocate_entries (d : dict) (h : heap) : entries * heap :=
  match d with
  | [] => ([], h)
  | (k, x) :: d' =>
      let (v, h1) := allocate x h in
      let (es, h2) := allocate_entries d' h1 in ((k, v) :: es, h2)
  end.

(** The configuration object whose [_config] is the dictionary [c]
    holds, all of it new. *)
Definition object_of (c : Config.t) (h : heap) : t * heap :=
  let (es, h') := allocate_entries (Config._config c) h in
  let (l, h'') := new es h' in (mk l, h'').

Definition empty : heap := mkHeap (fun _ => []) 0.

Lemma entry_get_set (d : entries) (k k' : str) (v : val) :
  entry_get (entry_set d k v) k'
  = if str_eqb k k' then Some v else entry_get d k'.
Proof.
  induction d as [|[k0 v0] d IH]; cbn [entry_set entry_get].
  - reflexivity.
  - destruct (str_eqb k0 k) eqn:E; cbn [entry_get].
    + apply str_eqb_eq in E. subst k0. now destruct (str_eqb k k').
    + destruct (str_eqb k0 k') eqn:E'; [|exact IH].
      apply str_eqb_eq in E'. subst k0.
      destruct (str_eqb k k') eqn:E2; [|reflexivity].
      apply str_eqb_eq in E2. subst k. rewrite str_eqb_refl in E. discriminate.
Qed.

Lemma walk_assign (keys : list str) (k : str) (config value : val) (h : heap) :
  (let (r, h1) := walk (removelast (keys ++ [k])) config h in
   match r with
   | Raise e => (Raise e, h1)
   | Ok c => setitem c (last (keys ++ [k]) []) value h1
   end) = assign (keys ++ [k]) config value h.
Proof.
  revert config h. induction keys as [|k0 keys IH]; intros config h.
  - reflexivity.
  - change ((k0 :: keys) ++ [k]) with (k0 :: (keys ++ [k])).
    assert (Hne : keys ++ [k] <> []) by (destruct keys; discriminate).
    destruct (keys ++ [k]) as [|k1 rest] eqn:E; [congruence|].
    cbn [removelast last walk assign].
    destruct (contains config k0 h) as [present|e]; [|reflexivity].
    destruct (if present then (Ok tt, h)
              else let (l, h0) := new [] h in setitem config k0 (VRef l) h0)
      as [[u|e] h1]; [|reflexivity].
    destruct (getitem config k0 h1) as [v|e]; [|reflexivity].
    apply IH.
Qed.


Lemma entry_get_In (d : entries) (k : str) (v : val) :
  entry_get d k = Some v -> exists k', In (k', v) d.
Proof.
  induction d as [|[k0 v0] d IH]; cbn [entry_get]; [discriminate|].
  destruct (str_eqb k0 k).
  - intros [= <-]. exists k0. now left.
  - intros H. destruct (IH H) as [k' Hin]. exists k'. now right.
Qed.

Lemma closed_made (h : heap) (l : loc) (k : str) (v : val) :
  closed h = true -> l < next h -> entry_get (cells h l) k = Some v -> made h v.
Proof.
  unfold closed. rewrite forallb_forall. intros Hc Hl Hget.
  specialize (Hc l (proj2 (in_seq _ _ _) (conj (Nat.le_0_l _) Hl))).
  rewrite forallb_forall in Hc.
  destruct (entry_get_In _ _ Hget) as [k' Hin].
  specialize (Hc _ Hin). cbn [snd] in Hc.
  destruct v; cbn [made]; try exact I. now apply Nat.ltb_lt.
Qed.

Lemma closed_intro (h : heap) :
  (forall l k' v, l < next h -> In (k', v) (cells h l) -> made h v) ->
  closed h = true.
Proof.
  intros H. unfold closed. rewrite forallb_forall. intros l Hl.
  apply in_seq in Hl. rewrite forallb_forall. intros [k' v] Hin. cbn [snd].
  specialize (H l k' v (proj2 Hl) Hin).
  destruct v; try reflexivity. now apply Nat.ltb_lt.
Qed.

Lemma closed_In (h : heap) (l : loc) (k' : str) (v : val) :
  closed h = true -> l < next h -> In (k', v) (cells h l) -> made h v.
Proof.
  unfold closed. rewrite forallb_forall. intros Hc Hl Hin.
  specialize (Hc l (proj2 (in_seq _ _ _) (conj (Nat.le_0_l _) Hl))).
  rewrite forallb_forall in Hc. specialize (Hc _ Hin). cbn [snd] in Hc.
  destruct v; cbn [made]; try exact I. now apply Nat.ltb_lt.
Qed.

Lemma entry_set_In (d : entries) (k k' : str) (v v' : val) :
  In (k', v') (entry_set d k v) -> v' = v \/ In (k', v') d.
Proof.
  induction d as [|[k0 v0] d IH]; cbn [entry_set].
  - intros [[= _ <-]|[]]. now left.
  - destruct (str_eqb k0 k).
    + intros [[= _ <-]|Hin]; [now left|right; now right].
    + intros [Heq|Hin]; [right; now left|].
      destruct (IH Hin) as [->|H]; [now left|right; now right].
Qed.

(** Making an empty dictionary and putting it under a key of an existing
    one keeps the store closed. *)
Lemma closed_extend (h : heap) (l : loc) (k : str) :
  closed h = true -> l < next h ->
  closed (write l (entry_set (cells h l) k (VRef (next h))) (snd (new [] h)))
  = true.
Proof.
  intros Hc Hl. apply closed_intro. cbn [new snd write next cells].
  intros x k' v Hx Hin.
  destruct (Nat.eqb x l) eqn:E.
  - apply Nat.eqb_eq in E. subst x.
    apply entry_set_In in Hin as [->|Hin].
    + cbn [made write next]. lia.
    + destruct v; cbn [made write next]; auto.
      pose proof (@closed_In h _ _ _ Hc Hl Hin) as Hm. cbn [made] in Hm. lia.
  - destruct (Nat.eqb x (next h)) eqn:E2; [destruct Hin|].
    apply Nat.eqb_neq in E2.
    assert (Hx' : x < next h) by lia.
    destruct v; cbn [made write next]; auto.
    pose proof (@closed_In h _ _ _ Hc Hx' Hin) as Hm. cbn [made] in Hm. lia.
Qed.

(** One turn of the loop, and what is left of the path. *)
Lemma assign_cons (k k1 : str) (rest : list str) (config value : val) (h : heap) :
  assign (k :: k1 :: rest) config value h
  = match contains config k h with
    | Raise e => (Raise e, h)
    | Ok present =>
        let (r, h1) :=
          if present then (Ok tt, h)
          else let (l, h0) := new [] h in setitem config k (VRef l) h0 in
        match r with
        | Raise e => (Raise e, h1)
        | Ok _ =>
            match getitem config k h1 with
            | Raise e => (Raise e, h1)
            | Ok v => assign (k1 :: rest) v value h1
            end
        end
    end.
Proof. reflexivity. Qed.

(** The turn of the loop at a dictionary that has the key: on to what
    the key holds. *)
Lemma assign_present (k k1 : str) (rest : list str) (l : loc) (v value : val)
    (h : heap) :
  entry_get (cells h l) k = Some v ->
  assign (k :: k1 :: rest) (VRef l) value h = assign (k1 :: rest) v value h.
Proof.
  intros Hget. rewrite assign_cons. cbn [contains]. rewrite Hget.
  cbn [getitem]. now rewrite Hget.
Qed.

(** The turn of the loop at a dictionary that lacks the key: a new
    dictionary goes under the key, and on from it. *)
Lemma assign_absent (k k1 : str) (rest : list str) (l : loc) (value : val)
    (h : heap) :
  l < next h -> entry_get (cells h l) k = None ->
  assign (k :: k1 :: rest) (VRef l) value h
  = assign (k1 :: rest) (VRef (next h)) value
      (write l (entry_set (cells h l) k (VRef (next h))) (snd (new [] h))).
Proof.
  intros Hl Hget. rewrite assign_cons. cbn [contains]. rewrite Hget.
  cbn [new setitem getitem write cells snd]. rewrite Nat.eqb_refl.
  destruct (Nat.eqb l (next h)) eqn:E; [apply Nat.eqb_eq in E; lia|].
  now rewrite entry_get_set, str_eqb_refl.
Qed.

(** From a dictionary that is empty, [set] makes its way and does not
    fail. *)
Lemma assign_fresh (keys : list str) (value : val) :
  forall (n : loc) (h : heap),
    keys <> [] -> cells h n = [] -> n < next h ->
    fst (assign keys (VRef n) value h) = Ok tt.
Proof.
  induction keys as [|k keys IH]; intros n h Hne Hcell Hn; [congruence|].
  destruct keys as [|k1 rest]; [reflexivity|].
  rewrite assign_absent by (exact Hn || now rewrite Hcell).
  apply IH; [discriminate| |cbn; lia].
  cbn [write new snd cells]. rewrite Nat.eqb_refl.
  destruct (Nat.eqb (next h) n) eqn:E; [|reflexivity].
  apply Nat.eqb_eq in E. lia.
Qed.

(** What [set] writes to: the dictionaries on its route, and those it
    makes. *)
Lemma assign_frame (keys : list str) (value : val) :
  forall (config : val) (h : heap) (x : loc),
    closed h = true -> made h config ->
    x < next h -> ~ In x (route (removelast keys) config h) ->
    cells (snd (assign keys config value h)) x = cells h x.
Proof.
  induction keys as [|k keys IH]; intros config h x Hc Hm Hx Hout; [reflexivity|].
  destruct keys as [|k1 rest].
  - cbn [assign removelast route] in *. destruct config; try reflexivity.
    cbn [setitem snd write cells]. cbn [route] in Hout.
    destruct (Nat.eqb x l) eqn:E; [|reflexivity].
    apply Nat.eqb_eq in E. subst x. exfalso. apply Hout. now left.
  - change (removelast (k :: k1 :: rest)) with (k :: removelast (k1 :: rest)) in Hout.
    destruct config as [| | | |s|items|l];
      try reflexivity.
    + (* a string *)
      rewrite assign_cons.
      cbn [contains]. destruct (occurs k s); cbn [new setitem getitem snd cells].
      * reflexivity.
      * destruct (Nat.eqb x (next h)) eqn:E; [apply Nat.eqb_eq in E; lia|reflexivity].
    + (* a list *)
      rewrite assign_cons.
      cbn [contains]. destruct (existsb _ items); cbn [new setitem getitem snd cells].
      * reflexivity.
      * destruct (Nat.eqb x (next h)) eqn:E; [apply Nat.eqb_eq in E; lia|reflexivity].
    + (* a dictionary *)
      cbn [route] in Hout. cbn [made] in Hm.
      destruct (entry_get (cells h l) k) as [v|] eqn:Hget.
      * rewrite (@assign_present k k1 rest l v value h Hget).
        apply IH; [exact Hc|exact (@closed_made h l k v Hc Hm Hget)|exact Hx|].
        intros Hin. apply Hout. now right.
      * rewrite (@assign_absent k k1 rest l value h Hm Hget).
        assert (Hxl : x <> l) by (intros ->; apply Hout; now left).
        rewrite IH.
        -- cbn [write new snd cells]. apply Nat.eqb_neq in Hxl. rewrite Hxl.
           destruct (Nat.eqb x (next h)) eqn:E; [apply Nat.eqb_eq in E; lia|reflexivity].
        -- now apply closed_extend.
        -- cbn [made write new snd next]. lia.
        -- cbn [write new snd next]. lia.
        -- assert (Hempty : cells (write l (entry_set (cells h l) k (VRef (next h)))
                                     (snd (new [] h))) (next h) = []).
           { cbn [write new snd cells]. rewrite Nat.eqb_refl.
             destruct (Nat.eqb (next h) l) eqn:E; [|reflexivity].
             apply Nat.eqb_eq in E. lia. }
           destruct (removelast (k1 :: rest)) as [|k2 ks]; cbn [route].
           ++ intros [H|[]]. lia.
           ++ rewrite Hempty. cbn [entry_get]. intros [H|[]]. lia.
Qed.


(** A failing [set] raises [TypeError] and has written to no dictionary
    that was there. *)
Lemma assign_raises (keys : list str) (value : val) :
  forall (config : val) (h h' : heap) (e : exn),
    closed h = true -> made h config -> keys <> [] ->
    assign keys config value h = (Raise e, h') ->
    e = TypeError /\ forall x, x < next h -> cells h' x = cells h x.
Proof.
  induction keys as [|k keys IH]; intros config h h' e Hc Hm Hne; [congruence|].
  destruct keys as [|k1 rest].
  - cbn [assign]. destruct config; cbn [setitem]; intros [= <- <-]; auto.
  - destruct config as [| | | |s|items|l];
      try (rewrite assign_cons; cbn [contains]; intros [= <- <-]; now auto).
    + rewrite assign_cons. cbn [contains].
      destruct (occurs k s); cbn [new setitem getitem]; intros [= <- <-].
      * auto.
      * split; [reflexivity|]. intros x Hx. cbn [cells].
        destruct (Nat.eqb x (next h)) eqn:E; [apply Nat.eqb_eq in E; lia|reflexivity].
    + rewrite assign_cons. cbn [contains].
      destruct (existsb _ items); cbn [new setitem getitem]; intros [= <- <-].
      * auto.
      * split; [reflexivity|]. intros x Hx. cbn [cells].
        destruct (Nat.eqb x (next h)) eqn:E; [apply Nat.eqb_eq in E; lia|reflexivity].
    + cbn [made] in Hm.
      destruct (entry_get (cells h l) k) as [v|] eqn:Hget.
      * rewrite (@assign_present k k1 rest l v value h Hget).
        apply IH; [exact Hc|exact (@closed_made h l k v Hc Hm Hget)|discriminate].
      * rewrite (@assign_absent k k1 rest l value h Hm Hget).
        intros H. exfalso.
        pose proof (@assign_fresh (k1 :: rest) value (next h)
                      (write l (entry_set (cells h l) k (VRef (next h)))
                         (snd (new [] h)))) as Hf.
        rewrite H in Hf. cbn [fst] in Hf.
        assert (Hok : Raise e = Ok tt); [|discriminate].
        apply Hf; [discriminate| |cbn; lia].
        cbn [write new snd cells]. rewrite Nat.eqb_refl.
        destruct (Nat.eqb (next h) l) eqn:E; [|reflexivity].
        apply Nat.eqb_eq in E. lia.
Qed.

(** After a [set] that returned, the path leads to the value, when the
    dictionaries on the route were all different ones. *)
Lemma assign_get (keys : list str) (value : val) :
  forall (config : val) (h h' : heap),
    closed h = true -> made h config -> keys <> [] ->
    NoDup (route (removelast keys) config h) ->
    assign keys config value h = (Ok tt, h') ->
    traverse keys config h' = Ok value.
Proof.
  induction keys as [|k keys IH]; intros config h h' Hc Hm Hne Hnd; [congruence|].
  destruct keys as [|k1 rest].
  - cbn [assign]. destruct config; cbn [setitem]; try discriminate.
    intros [= <-]. cbn [traverse getitem write cells]. rewrite Nat.eqb_refl.
    now rewrite entry_get_set, str_eqb_refl.
  - change (removelast (k :: k1 :: rest)) with (k :: removelast (k1 :: rest)) in Hnd.
    destruct config as [| | | |s|items|l];
      try (rewrite assign_cons; cbn [contains]; discriminate).
    + rewrite assign_cons. cbn [contains].
      destruct (occurs k s); cbn [new setitem getitem]; discriminate.
    + rewrite assign_cons. cbn [contains].
      destruct (existsb _ items); cbn [new setitem getitem]; discriminate.
    + cbn [made] in Hm. cbn [route] in Hnd.
      destruct (entry_get (cells h l) k) as [v|] eqn:Hget.
      * rewrite (@assign_present k k1 rest l v value h Hget). intros Hrun.
        apply NoDup_cons_iff in Hnd as [Hout Hnd].
        pose proof (@closed_made h l k v Hc Hm Hget) as Hv.
        pose proof (@assign_frame (k1 :: rest) value v h l Hc Hv Hm Hout) as Hfr.
        rewrite Hrun in Hfr. cbn [snd] in Hfr.
        change (traverse (k :: k1 :: rest) (VRef l) h')
          with (bind (getitem (VRef l) k h')
                     (fun v => traverse (k1 :: rest) v h')).
        cbn [getitem]. rewrite Hfr, Hget. cbn [bind].
        apply (IH v h h' Hc Hv); [discriminate|exact Hnd|exact Hrun].
      * rewrite (@assign_absent k k1 rest l value h Hm Hget). intros Hrun.
        set (h1 := write l (entry_set (cells h l) k (VRef (next h)))
                     (snd (new [] h))) in *.
        assert (Hc1 : closed h1 = true) by now apply closed_extend.
        assert (Hm1 : made h1 (VRef (next h))) by (cbn; lia).
        assert (Hempty : cells h1 (next h) = []).
        { subst h1. cbn [write new snd cells]. rewrite Nat.eqb_refl.
          destruct (Nat.eqb (next h) l) eqn:E; [|reflexivity].
          apply Nat.eqb_eq in E. lia. }
        assert (Hroute : route (removelast (k1 :: rest)) (VRef (next h)) h1
                         = [next h]).
        { destruct (removelast (k1 :: rest)); cbn [route]; [reflexivity|].
          now rewrite Hempty. }
        assert (Hl1 : l < next h1) by (subst h1; cbn; lia).
        assert (Hout : ~ In l (route (removelast (k1 :: rest)) (VRef (next h)) h1)).
        { rewrite Hroute. intros [H|[]]. lia. }
        pose proof (@assign_frame (k1 :: rest) value (VRef (next h)) h1 l
                      Hc1 Hm1 Hl1 Hout) as Hfr.
        rewrite Hrun in Hfr. cbn [snd] in Hfr.
        change (traverse (k :: k1 :: rest) (VRef l) h')
          with (bind (getitem (VRef l) k h')
                     (fun v => traverse (k1 :: rest) v h')).
        cbn [getitem]. rewrite Hfr.
        assert (Hcell : entry_get (cells h1 l) k = Some (VRef (next h))).
        { subst h1. cbn [write cells]. rewrite Nat.eqb_refl.
          now rewrite entry_get_set, str_eqb_refl. }
        rewrite Hcell. cbn [bind].
        apply (IH (VRef (next h)) h1 h' Hc1 Hm1); [discriminate| |exact Hrun].
        rewrite Hroute. constructor; [intros []|constructor].
Qed.

(** [key.split(".")] has a last item. *)
Lemma split_from_last (sep : N) (s cur : str) :
  exists init last_, split_from sep s cur = init ++ [last_].
Proof.
  revert cur. induction s as [|c s IH]; intros cur; cbn [split_from].
  - now exists [], (rev cur).
  - destruct (N.eqb c sep).
    + destruct (IH []) as (init & l & ->). now exists (rev cur :: init), l.
    + apply IH.
Qed.

Lemma set_assign (key : str) (value : val) (self : t) (h : heap) :
  split Config.dot key <> [] /\
  set key value self h
  = assign (split Config.dot key) (VRef (_config self)) value h.
Proof.
  unfold set. destruct (split_from_last Config.dot key []) as (init & l & E).
  unfold split. rewrite E. split; [destruct init; discriminate|].
  apply walk_assign.
Qed.

(** Reading goes through dictionaries that are there. *)
Lemma traverse_agree (keys : list str) :
  forall (v : val) (h h' : heap),
    closed h = true -> made h v ->
    (forall x, x < next h -> cells h' x = cells h x) ->
    traverse keys v h' = traverse keys v h.
Proof.
  induction keys as [|k keys IH]; intros v h h' Hc Hm Hsame; [reflexivity|].
  cbn [traverse]. destruct v; try reflexivity.
  cbn [getitem made] in *. rewrite (Hsame l Hm).
  destruct (entry_get (cells h l) k) as [v|] eqn:Hget; [|reflexivity].
  cbn [bind]. apply IH; [exact Hc| |exact Hsame].
  exact (@closed_made h l k v Hc Hm Hget).
Qed.


Lemma assign_clear (keys : list str) (value : val) :
  forall (config : val) (h : heap),
    closed h = true -> made h config -> keys <> [] ->
    fst (assign keys config value h) = Ok tt
    <-> clear (removelast keys) config h = true.
Proof.
  induction keys as [|k keys IH]; intros config h Hc Hm Hne; [congruence|].
  destruct keys as [|k1 rest].
  - cbn [assign removelast clear]. destruct config; cbn [setitem fst];
      split; (discriminate || reflexivity).
  - change (removelast (k :: k1 :: rest)) with (k :: removelast (k1 :: rest)).
    destruct config as [| | | |s|items|l];
      try (rewrite assign_cons; cbn [contains clear fst]; split; discriminate).
    + rewrite assign_cons. cbn [contains clear].
      destruct (occurs k s); cbn [new setitem getitem fst]; split; discriminate.
    + rewrite assign_cons. cbn [contains clear].
      destruct (existsb _ items); cbn [new setitem getitem fst]; split; discriminate.
    + cbn [made] in Hm. cbn [clear].
      destruct (entry_get (cells h l) k) as [v|] eqn:Hget.
      * rewrite (@assign_present k k1 rest l v value h Hget).
        apply IH; [exact Hc|exact (@closed_made h l k v Hc Hm Hget)|discriminate].
      * rewrite (@assign_absent k k1 rest l value h Hm Hget).
        split; [reflexivity|]. intros _.
        apply assign_fresh; [discriminate| |cbn; lia].
        cbn [write new snd cells]. rewrite Nat.eqb_refl.
        destruct (Nat.eqb (next h) l) eqn:E; [|reflexivity].
        apply Nat.eqb_eq in E. lia.
Qed.

Lemma shaped_In (lev : loc -> nat) (up : loc -> loc * str) (h : heap)
    (l l' : loc) (k' : str) :
  shaped lev up h = true -> l < next h -> In (k', VRef l') (cells h l) ->
  l' < next h /\ lev l' = S (lev l) /\ up l' = (l, k').
Proof.
  unfold shaped. rewrite forallb_forall. intros Hc Hl Hin.
  specialize (Hc l (proj2 (in_seq _ _ _) (conj (Nat.le_0_l _) Hl))).
  rewrite forallb_forall in Hc. specialize (Hc _ Hin). cbn [snd fst] in Hc.
  repeat (apply andb_true_iff in Hc as [Hc ?]).
  split; [now apply Nat.ltb_lt|]. split; [now apply Nat.eqb_eq|].
  destruct (up l') as [a b]. cbn [fst snd] in *.
  f_equal; [now apply Nat.eqb_eq|now apply str_eqb_eq].
Qed.

Lemma shaped_intro (lev : loc -> nat) (up : loc -> loc * str) (h : heap) :
  (forall l k' l', l < next h -> In (k', VRef l') (cells h l) ->
                   l' < next h /\ lev l' = S (lev l) /\ up l' = (l, k')) ->
  shaped lev up h = true.
Proof.
  intros H. unfold shaped. rewrite forallb_forall. intros l Hl.
  apply in_seq in Hl. rewrite forallb_forall. intros [k' v] Hin. cbn [snd fst].
  destruct v; try reflexivity.
  destruct (H l k' l0 (proj2 Hl) Hin) as (H1 & H2 & H3).
  rewrite H3. cbn [fst snd]. rewrite Nat.eqb_refl, str_eqb_refl, !andb_true_r.
  apply andb_true_iff. split; [now apply Nat.ltb_lt|now apply Nat.eqb_eq].
Qed.

Lemma shaped_closed (lev : loc -> nat) (up : loc -> loc * str) (h : heap) :
  shaped lev up h = true -> closed h = true.
Proof.
  intros H. apply closed_intro. intros l k' v Hl Hin.
  destruct v; cbn [made]; auto.
  exact (proj1 (@shaped_In lev up h l l0 k' H Hl Hin)).
Qed.

Lemma entry_get_In_key (d : entries) (k : str) (v : val) :
  entry_get d k = Some v -> In (k, v) d.
Proof.
  induction d as [|[k0 v0] d IH]; cbn [entry_get]; [discriminate|].
  destruct (str_eqb k0 k) eqn:E.
  - intros [= <-]. apply str_eqb_eq in E. subst k0. now left.
  - intros H. right. now apply IH.
Qed.

Lemma route_plain (keys : list str) (v : val) (h : heap) :
  plain v = true -> route keys v h = [].
Proof. destruct keys, v; (discriminate || reflexivity). Qed.

(** On a way down the layers grow, so no dictionary comes twice. *)
Lemma route_layers (lev : loc -> nat) (up : loc -> loc * str) (h : heap)
    (keys : list str) :
  shaped lev up h = true ->
  forall (l : loc), l < next h ->
    Forall (fun x => lev l <= lev x) (route keys (VRef l) h) /\
    NoDup (route keys (VRef l) h).
Proof.
  intros Hlay. induction keys as [|k keys IH]; intros l Hl; cbn [route].
  - split; [constructor; [apply le_n|constructor]|].
    constructor; [intros []|constructor].
  - destruct (entry_get (cells h l) k) as [v|] eqn:Hget.
    + destruct (plain v) eqn:Hp.
      * rewrite (route_plain keys v h Hp).
        split; [constructor; [apply le_n|constructor]|].
        constructor; [intros []|constructor].
      * destruct v as [| | | | | |l']; try discriminate.
        pose proof (entry_get_In_key _ _ Hget) as Hin.
        destruct (@shaped_In lev up h l l' k Hlay Hl Hin) as (Hl' & Hlev & _).
        destruct (IH l' Hl') as [Hall Hnd].
        split.
        -- constructor; [apply le_n|].
           eapply Forall_impl; [|exact Hall]. cbn. intros x Hx. lia.
        -- constructor; [|exact Hnd].
           intros Hin'. rewrite Forall_forall in Hall.
           specialize (Hall l Hin'). lia.
    + split; [constructor; [apply le_n|constructor]|].
      constructor; [intros []|constructor].
Qed.

(** A [set] of a plain value keeps the trees. *)
Lemma assign_shaped (keys : list str) (value : val) :
  plain value = true ->
  forall (config : val) (h h' : heap) (lev : loc -> nat) (up : loc -> loc * str),
    shaped lev up h = true -> made h config -> keys <> [] ->
    assign keys config value h = (Ok tt, h') ->
    exists lev' up',
      shaped lev' up' h' = true /\ next h <= next h' /\
      forall x, x < next h -> lev' x = lev x /\ up' x = up x.
Proof.
  intros Hplain.
  induction keys as [|k keys IH]; intros config h h' lev up Hlay Hm Hne;
    [congruence|].
  pose proof (shaped_closed lev up h Hlay) as Hc.
  destruct keys as [|k1 rest].
  - cbn [assign]. destruct config; cbn [setitem]; try discriminate.
    intros [= <-]. exists lev, up. split; [|split; [apply le_n|auto]].
    apply shaped_intro. cbn [write next cells]. intros x k' l' Hx Hin.
    destruct (Nat.eqb x l) eqn:E.
    + apply Nat.eqb_eq in E. subst x.
      apply entry_set_In in Hin as [Heq|Hin].
      * rewrite <- Heq in Hplain. discriminate.
      * exact (@shaped_In lev up h l l' k' Hlay Hx Hin).
    + exact (@shaped_In lev up h x l' k' Hlay Hx Hin).
  - destruct config as [| | | |s|items|l];
      try (rewrite assign_cons; cbn [contains]; discriminate).
    + rewrite assign_cons. cbn [contains].
      destruct (occurs k s); cbn [new setitem getitem]; discriminate.
    + rewrite assign_cons. cbn [contains].
      destruct (existsb _ items); cbn [new setitem getitem]; discriminate.
    + cbn [made] in Hm.
      destruct (entry_get (cells h l) k) as [v|] eqn:Hget.
      * rewrite (@assign_present k k1 rest l v value h Hget).
        apply IH; [exact Hlay|exact (@closed_made h l k v Hc Hm Hget)|discriminate].
      * rewrite (@assign_absent k k1 rest l value h Hm Hget). intros Hrun.
        set (h1 := write l (entry_set (cells h l) k (VRef (next h)))
                     (snd (new [] h))) in *.
        set (lev1 := fun x => if Nat.eqb x (next h) then S (lev l) else lev x).
        set (up1 := fun x => if Nat.eqb x (next h) then (l, k) else up x).
        assert (Hlay1 : shaped lev1 up1 h1 = true).
        { apply shaped_intro. subst h1 lev1 up1. cbn [write new snd next cells].
          intros x k' l' Hx Hin.
          destruct (Nat.eqb x l) eqn:E.
          - apply Nat.eqb_eq in E. subst x.
            destruct (Nat.eqb l (next h)) eqn:E2; [apply Nat.eqb_eq in E2; lia|].
            destruct (Nat.eqb l' (next h)) eqn:E3.
            + apply Nat.eqb_eq in E3. subst l'.
              split; [lia|]. split; [reflexivity|].
              assert (Hk : k' = k); [|now subst k'].
              clear - Hin Hget Hc Hm.
              assert (Hold : forall k0, ~ In (k0, VRef (next h)) (cells h l)).
              { intros k0 H0. pose proof (@closed_In h l k0 _ Hc Hm H0) as H1.
                cbn [made] in H1. lia. }
              revert Hin Hold. generalize (cells h l) as d.
              induction d as [|[k0 v0] d IHd]; cbn [entry_set].
              * intros [[= <-]|[]] _. reflexivity.
              * destruct (str_eqb k0 k) eqn:E0.
                -- apply str_eqb_eq in E0. subst k0.
                   intros [[= <-]|Hin] Hold; [reflexivity|].
                   exfalso. apply (Hold k'). now right.
                -- intros [[= <- <-]|Hin] Hold.
                   ++ exfalso. apply (Hold k0). now left.
                   ++ apply IHd; [exact Hin|].
                      intros k2 H2. apply (Hold k2). now right.
            + apply entry_set_In in Hin as [Heq|Hin].
              * injection Heq as ->. rewrite Nat.eqb_refl in E3. discriminate.
              * destruct (@shaped_In lev up h l l' k' Hlay Hm Hin) as (H1 & H2 & H3).
                split; [lia|]. split; assumption.
          - destruct (Nat.eqb x (next h)) eqn:E2; [destruct Hin|].
            apply Nat.eqb_neq in E2. assert (Hx' : x < next h) by lia.
            destruct (@shaped_In lev up h x l' k' Hlay Hx' Hin) as (H1 & H2 & H3).
            destruct (Nat.eqb l' (next h)) eqn:E3; [apply Nat.eqb_eq in E3; lia|].
            split; [lia|]. split; assumption. }
        assert (Hm1 : made h1 (VRef (next h))) by (cbn; lia).
        destruct (IH (VRef (next h)) h1 h' lev1 up1 Hlay1 Hm1)
          as (lev' & up' & H1 & H2 & H3);
          [discriminate|exact Hrun|].
        exists lev', up'. split; [exact H1|]. split.
        -- subst h1. cbn [write new snd next] in H2. lia.
        -- intros x Hx. destruct (H3 x) as [H4 H5]; [subst h1; cbn; lia|].
           rewrite H4, H5. subst lev1 up1. cbn.
           destruct (Nat.eqb x (next h)) eqn:E;
             [apply Nat.eqb_eq in E; lia|split; reflexivity].
Qed.

(** Ways down from dictionaries below [b] stay below [b], when what is
    below [b] refers below [b]. *)
Lemma route_below (b : loc) (h : heap) (keys : list str) :
  (forall l k v, l < b -> entry_get (cells h l) k = Some v ->
                 match v with VRef l' => l' < b | _ => True end) ->
  forall (config : val),
    match config with VRef l => l < b | _ => True end ->
    Forall (fun x => x < b) (route keys config h).
Proof.
  intros Hb. induction keys as [|k keys IH]; intros config Hm.
  - destruct config; cbn [route]; auto.
  - destruct config as [| | | | | |l]; cbn [route]; auto.
    constructor; [exact Hm|].
    destruct (entry_get (cells h l) k) as [v|] eqn:Hget; [|constructor].
    apply IH. exact (Hb l k v Hm Hget).
Qed.


(** X4. After a [set] that returned, [get] with the same key returns the
    value set, provided the dictionaries [set] went through on its way
    were all different objects. *)
Theorem set_then_get (key : str) (value default : val) (self : t) (h h' : heap) :
  closed h = true -> _config self < next h ->
  NoDup (route (removelast (split Config.dot key)) (VRef (_config self)) h) ->
  set key value self h = (Ok tt, h') ->
  get key default self h' = Ok value.
Proof.
  intros Hc Hm Hnd. destruct (set_assign key value self h) as [Hne ->].
  intros Hrun. unfold get.
  now rewrite (@assign_get (split Config.dot key) value (VRef (_config self))
                 h h' Hc Hm Hne Hnd Hrun).
Qed.

(** X5. On a configuration whose dictionaries form trees, as they do in
    a new one, a [set] of a plain value that returned can be read back
    with [get], and it leaves the dictionaries in trees, those there
    before where they were: the same holds for the next [set]. *)
Theorem set_keeps_shape (key : str) (value default : val) (self : t)
    (h h' : heap) (lev : loc -> nat) (up : loc -> loc * str) :
  shaped lev up h = true -> _config self < next h -> plain value = true ->
  set key value self h = (Ok tt, h') ->
  get key default self h' = Ok value /\
  exists lev' up',
    shaped lev' up' h' = true /\ _config self < next h' /\
    forall x, x < next h -> lev' x = lev x /\ up' x = up x.
Proof.
  intros Hlay Hm Hplain Hrun.
  destruct (set_assign key value self h) as [Hne E]. rewrite E in Hrun.
  split.
  - unfold get.
    now rewrite (@assign_get (split Config.dot key) value (VRef (_config self))
                   h h' (shaped_closed lev up h Hlay) Hm Hne
                   (proj2 (@route_layers lev up h _ Hlay (_config self) Hm)) Hrun).
  - destruct (@assign_shaped (split Config.dot key) value Hplain
                (VRef (_config self)) h h' lev up Hlay Hm Hne Hrun)
      as (lev' & up' & H1 & H2 & H3).
    exists lev', up'. split; [exact H1|]. split; [lia|exact H3].
Qed.

(** X6. A [set] that fails raises [TypeError], has written to none of
    the dictionaries, and every [get] answers afterwards as it did
    before. *)
Theorem set_raises_unchanged (key : str) (value : val) (self : t) (h h' : heap)
    (e : exn) :
  closed h = true -> _config self < next h ->
  set key value self h = (Raise e, h') ->
  e = TypeError /\
  (forall x, x < next h -> cells h' x = cells h x) /\
  forall key' default, get key' default self h' = get key' default self h.
Proof.
  intros Hc Hm. destruct (set_assign key value self h) as [Hne ->].
  intros Hrun.
  destruct (@assign_raises (split Config.dot key) value (VRef (_config self))
              h h' e Hc Hm Hne Hrun) as [He Hsame].
  split; [exact He|]. split; [exact Hsame|].
  intros key' default. unfold get.
  now rewrite (@traverse_agree (split Config.dot key') (VRef (_config self))
                 h h' Hc Hm Hsame).
Qed.

(** X7. [set] returns exactly when every value it has to step through
    along the key, and the one it writes into, is a dictionary; a
    missing key on the way does not stop it. *)
Theorem set_returns_iff (key : str) (value : val) (self : t) (h : heap) :
  closed h = true -> _config self < next h ->
  fst (set key value self h) = Ok tt
  <-> clear (removelast (split Config.dot key)) (VRef (_config self)) h = true.
Proof.
  intros Hc Hm. destruct (set_assign key value self h) as [Hne ->].
  now apply assign_clear.
Qed.

Lemma closed_copy (h : heap) (l : loc) :
  closed h = true -> l < next h -> closed (snd (new (cells h l) h)) = true.
Proof.
  intros Hc Hl. apply closed_intro. cbn [new snd next cells].
  intros x k' v Hx Hin.
  assert (Hin' : In (k', v) (cells h (if Nat.eqb x (next h) then l else x))).
  { destruct (Nat.eqb x (next h)); exact Hin. }
  assert (Hx' : (if Nat.eqb x (next h) then l else x) < next h).
  { destruct (Nat.eqb x (next h)) eqn:E; [exact Hl|].
    apply Nat.eqb_neq in E. lia. }
  pose proof (@closed_In h _ k' v Hc Hx' Hin') as Hv.
  destruct v; cbn [made next] in *; auto.
Qed.

(** X8. What [to_dict] returns is a copy of the outer dictionary only.
    A later [set] under a key without a dot does not show in it: it
    still reads as the configuration did when it was taken.  A later
    [set] further down, under a first key that was there, does show in
    it: the dictionaries inside are shared. *)
Theorem to_dict_shallow (key : str) (value : val) (self : t) (h h2 : heap) :
  closed h = true -> _config self < next h ->
  let d := fst (to_dict self h) in
  let h1 := snd (to_dict self h) in
  NoDup (route (removelast (split Config.dot key)) (VRef (_config self)) h1) ->
  set key value self h1 = (Ok tt, h2) ->
  (forall k, split Config.dot key = [k] ->
     forall k', getitem d k' h2 = getitem (VRef (_config self)) k' h) /\
  (forall k rest v, split Config.dot key = k :: rest -> rest <> [] ->
     getitem (VRef (_config self)) k h = Ok v ->
     traverse (split Config.dot key) d h2 = Ok value).
Proof.
  intros Hc Hm. unfold to_dict. cbn [new fst snd].
  set (n := next h).
  set (h1 := mkHeap (fun l' => if Nat.eqb l' n then cells h (_config self)
                               else cells h l') (S n)).
  intros Hnd. destruct (set_assign key value self h1) as [Hne ->]. intros Hrun.
  assert (Hc1 : closed h1 = true) by exact (closed_copy h Hc Hm).
  assert (Hm1 : _config self < next h1) by (cbn; lia).
  assert (Hn : n < next h1) by (cbn; lia).
  assert (Htop : cells h1 (_config self) = cells h (_config self)).
  { cbn [h1 cells]. destruct (Nat.eqb (_config self) n) eqn:E; [|reflexivity].
    apply Nat.eqb_eq in E. lia. }
  assert (Hcopy : cells h1 n = cells h (_config self)).
  { cbn [h1 cells]. now rewrite Nat.eqb_refl. }
  split.
  - intros k Hk k'. rewrite Hk in Hrun. cbn [assign setitem] in Hrun.
    injection Hrun as <-. cbn [getitem write cells].
    destruct (Nat.eqb n (_config self)) eqn:E; [apply Nat.eqb_eq in E; lia|].
    now rewrite Hcopy.
  - intros k rest v Hk Hrest Hget. rewrite Hk in *.
    destruct rest as [|k1 rest]; [congruence|].
    cbn [getitem] in Hget.
    destruct (entry_get (cells h (_config self)) k) as [v0|] eqn:Hcell;
      [|discriminate].
    injection Hget as ->.
    assert (Hcell1 : entry_get (cells h1 (_config self)) k = Some v)
      by now rewrite Htop.
    rewrite (@assign_present k k1 rest (_config self) v value h1 Hcell1) in Hrun.
    change (removelast (k :: k1 :: rest)) with (k :: removelast (k1 :: rest)) in Hnd.
    cbn [route] in Hnd. rewrite Hcell1 in Hnd.
    apply NoDup_cons_iff in Hnd as [_ Hnd].
    pose proof (@closed_made h1 _ k v Hc1 Hm1 Hcell1) as Hv.
    assert (Hbelow : Forall (fun x => x < n) (route (removelast (k1 :: rest)) v h1)).
    { apply route_below.
      - intros l k0 v0 Hl Hg.
        assert (Hl1 : cells h1 l = cells h l).
        { cbn [h1 cells]. destruct (Nat.eqb l n) eqn:E; [|reflexivity].
          apply Nat.eqb_eq in E. lia. }
        rewrite Hl1 in Hg.
        pose proof (@closed_made h l k0 v0 Hc Hl Hg) as H0.
        destruct v0; auto.
      - pose proof (@closed_made h _ k v Hc Hm Hcell) as H0.
        destruct v; auto. }
    assert (Hout : ~ In n (route (removelast (k1 :: rest)) v h1)).
    { intros Hin. rewrite Forall_forall in Hbelow. specialize (Hbelow n Hin). lia. }
    pose proof (@assign_frame (k1 :: rest) value v h1 n Hc1 Hv Hn Hout) as Hfr.
    rewrite Hrun in Hfr. cbn [snd] in Hfr.
    change (traverse (k :: k1 :: rest) (VRef n) h2)
      with (bind (getitem (VRef n) k h2) (fun v => traverse (k1 :: rest) v h2)).
    cbn [getitem]. rewrite Hfr, Hcopy, Hcell. cbn [bind].
    apply (@assign_get (k1 :: rest) value v h1 h2 Hc1 Hv);
      [discriminate|exact Hnd|exact Hrun].
Qed.

Lemma route_made (h : heap) (keys : list str) (config : val) :
  closed h = true -> made h config ->
  Forall (fun x => x < next h) (route keys config h).
Proof.
  intros Hc Hm. apply route_below.
  - intros l k v Hl Hget. pose proof (@closed_made h l k v Hc Hl Hget) as H.
    destruct v; auto.
  - destruct config; auto.
Qed.

(** A dictionary does not lie below itself. *)
Lemma head_not_below (lev : loc -> nat) (up : loc -> loc * str) (h : heap)
    (keys : list str) (l : loc) (k : str) (v : val) :
  shaped lev up h = true -> l < next h ->
  entry_get (cells h l) k = Some v -> ~ In l (route keys v h).
Proof.
  intros Hsh Hl Hget.
  pose proof (proj2 (@route_layers lev up h (k :: keys) Hsh l Hl)) as Hnd.
  cbn [route] in Hnd. rewrite Hget in Hnd.
  now apply NoDup_cons_iff in Hnd as [Hnot _].
Qed.

(** Reading depends on the dictionaries on its way only. *)
Lemma traverse_route (keys : list str) :
  forall (v : val) (h h' : heap),
    (forall x, In x (route keys v h) -> cells h' x = cells h x) ->
    traverse keys v h' = traverse keys v h.
Proof.
  induction keys as [|k keys IH]; intros v h h' Hsame; [reflexivity|].
  cbn [traverse]. destruct v; try reflexivity.
  cbn [getitem route] in *. rewrite (Hsame l (or_introl eq_refl)).
  destruct (entry_get (cells h l) k) as [v|] eqn:Hget; [|reflexivity].
  cbn [bind]. apply IH. intros x Hx. apply Hsame. now right.
Qed.

(** Ways down from two dictionaries of one layer do not meet. *)
Lemma routes_apart (lev : loc -> nat) (up : loc -> loc * str) (h : heap) :
  shaped lev up h = true ->
  forall (ks1 ks2 : list str) (a b x : loc),
    a < next h -> b < next h -> lev a = lev b -> a <> b ->
    In x (route ks1 (VRef a) h) -> In x (route ks2 (VRef b) h) -> False.
Proof.
  intros Hsh.
  assert (Htail : forall ks l k x, l < next h ->
            In x match entry_get (cells h l) k with
                 | Some v => route ks v h
                 | None => []
                 end ->
            exists l', entry_get (cells h l) k = Some (VRef l') /\
                       l' < next h /\ lev l' = S (lev l) /\ up l' = (l, k) /\
                       In x (route ks (VRef l') h) /\ lev l' <= lev x).
  { intros ks l k x Hl Hin.
    destruct (entry_get (cells h l) k) as [v|] eqn:Hget; [|destruct Hin].
    destruct (plain v) eqn:Hp; [rewrite (route_plain ks v h Hp) in Hin; destruct Hin|].
    destruct v as [| | | | | |l']; try discriminate.
    destruct (@shaped_In lev up h l l' k Hsh Hl (entry_get_In_key _ _ Hget))
      as (H1 & H2 & H3).
    exists l'. repeat split; auto.
    destruct (@route_layers lev up h ks Hsh l' H1) as [Hall _].
    rewrite Forall_forall in Hall. now apply Hall. }
  induction ks1 as [|k1 ks1 IH]; intros ks2 a b x Ha Hb Hlev Hne H1 H2.
  - cbn [route] in H1. destruct H1 as [<-|[]].
    destruct ks2 as [|k2 ks2]; cbn [route] in H2.
    + destruct H2 as [H2|[]]. congruence.
    + destruct H2 as [H2|H2]; [congruence|].
      destruct (Htail ks2 b k2 a Hb H2) as (l' & _ & _ & Hl' & _ & _ & Hle). lia.
  - cbn [route] in H1. destruct H1 as [<-|H1].
    + destruct ks2 as [|k2 ks2]; cbn [route] in H2.
      * destruct H2 as [H2|[]]. congruence.
      * destruct H2 as [H2|H2]; [congruence|].
        destruct (Htail ks2 b k2 a Hb H2) as (l' & _ & _ & Hl' & _ & _ & Hle). lia.
    + destruct (Htail ks1 a k1 x Ha H1) as (a1 & _ & Ha1 & Hla1 & Hup1 & Hin1 & Hle1).
      destruct ks2 as [|k2 ks2]; cbn [route] in H2.
      * destruct H2 as [<-|[]]. lia.
      * destruct H2 as [<-|H2]; [lia|].
        destruct (Htail ks2 b k2 x Hb H2) as (b1 & _ & Hb1 & Hlb1 & Hup2 & Hin2 & _).
        apply (IH ks2 a1 b1 x Ha1 Hb1); [lia| |exact Hin1|exact Hin2].
        intros ->. rewrite Hup1 in Hup2. injection Hup2 as Hab _. congruence.
Qed.

(** On the way [set] has made from an empty dictionary, a path that
    parts from it misses a key. *)
Lemma fresh_miss (c : list str) (kp kq : str) (p' q' : list str) (value : val) :
  kp <> kq ->
  forall (n : loc) (h h' : heap),
    closed h = true -> cells h n = [] -> n < next h ->
    assign (c ++ kp :: p') (VRef n) value h = (Ok tt, h') ->
    traverse (c ++ kq :: q') (VRef n) h' = Raise KeyError.
Proof.
  intros Hk.
  assert (Hmiss : str_eqb kp kq = false).
  { destruct (str_eqb kp kq) eqn:E; [|reflexivity].
    apply str_eqb_eq in E. contradiction. }
  assert (Hstep : forall k k1 rest n h h',
            closed h = true -> cells h n = [] -> n < next h ->
            assign (k :: k1 :: rest) (VRef n) value h = (Ok tt, h') ->
            let h1 := write n (entry_set (cells h n) k (VRef (next h)))
                        (snd (new [] h)) in
            assign (k1 :: rest) (VRef (next h)) value h1 = (Ok tt, h') /\
            closed h1 = true /\ cells h1 (next h) = [] /\ next h < next h1 /\
            cells h' n = [(k, VRef (next h))]).
  { intros k k1 rest n h h' Hc Hcell Hn Hrun. cbv zeta.
    assert (Hget : entry_get (cells h n) k = None) by now rewrite Hcell.
    rewrite (@assign_absent k k1 rest n value h Hn Hget) in Hrun.
    set (h1 := write n (entry_set (cells h n) k (VRef (next h)))
                 (snd (new [] h))) in *.
    assert (Hc1 : closed h1 = true) by now apply closed_extend.
    assert (Hempty : cells h1 (next h) = []).
    { subst h1. cbn [write new snd cells]. rewrite Nat.eqb_refl.
      destruct (Nat.eqb (next h) n) eqn:E; [|reflexivity].
      apply Nat.eqb_eq in E. lia. }
    split; [exact Hrun|]. split; [exact Hc1|]. split; [exact Hempty|].
    split; [subst h1; cbn; lia|].
    assert (Hm1 : made h1 (VRef (next h))) by (cbn; lia).
    assert (Hn1 : n < next h1) by (subst h1; cbn; lia).
    assert (Hout : ~ In n (route (removelast (k1 :: rest)) (VRef (next h)) h1)).
    { destruct (removelast (k1 :: rest)); cbn [route]; [|rewrite Hempty];
        cbn [entry_get]; intros [H|[]]; lia. }
    pose proof (@assign_frame (k1 :: rest) value (VRef (next h)) h1 n
                  Hc1 Hm1 Hn1 Hout) as Hfr.
    rewrite Hrun in Hfr. cbn [snd] in Hfr. rewrite Hfr.
    subst h1. cbn [write cells]. rewrite Nat.eqb_refl, Hcell. reflexivity. }
  induction c as [|k c IH]; intros n h h' Hc Hcell Hn Hrun.
  - cbn [app] in *. destruct p' as [|k1 rest].
    + cbn [assign setitem] in Hrun. injection Hrun as <-.
      cbn [traverse getitem write cells]. rewrite Nat.eqb_refl, Hcell.
      cbn [entry_set entry_get]. now rewrite Hmiss.
    + destruct (Hstep kp k1 rest n h h' Hc Hcell Hn Hrun) as (_ & _ & _ & _ & Hn').
      cbn [traverse getitem]. rewrite Hn'. cbn [entry_get]. now rewrite Hmiss.
  - assert (Hne : exists k1 rest, c ++ kp :: p' = k1 :: rest).
    { destruct c; cbn [app]; eauto. }
    destruct Hne as (k1 & rest & Hrest).
    change ((k :: c) ++ kp :: p') with (k :: (c ++ kp :: p')) in Hrun.
    rewrite Hrest in Hrun.
    destruct (Hstep k k1 rest n h h' Hc Hcell Hn Hrun)
      as (Hrun1 & Hc1 & Hempty & Hlt & Hn').
    change ((k :: c) ++ kq :: q') with (k :: (c ++ kq :: q')).
    cbn [traverse getitem]. rewrite Hn'. cbn [entry_get].
    rewrite str_eqb_refl. cbn [bind].
    rewrite <- Hrest in Hrun1.
    exact (IH (next h) _ h' Hc1 Hempty Hlt Hrun1).
Qed.

(** On dictionaries that form trees, a [set] that returned has changed
    nothing on a path that parts from its own. *)
Lemma assign_apart (lev : loc -> nat) (up : loc -> loc * str) (value : val)
    (kp kq : str) (p' q' : list str) :
  kp <> kq ->
  forall (c : list str) (config : val) (h h' : heap),
    shaped lev up h = true -> made h config ->
    assign (c ++ kp :: p') config value h = (Ok tt, h') ->
    traverse (c ++ kq :: q') config h' = traverse (c ++ kq :: q') config h.
Proof.
  intros Hk.
  assert (Hmiss : str_eqb kp kq = false).
  { destruct (str_eqb kp kq) eqn:E; [|reflexivity].
    apply str_eqb_eq in E. contradiction. }
  (* the dictionary a turn of the loop stands at keeps its other keys *)
  assert (Hhead : forall k k1 rest l h h',
            shaped lev up h = true -> l < next h ->
            assign (k :: k1 :: rest) (VRef l) value h = (Ok tt, h') ->
            forall k', k' <> k ->
              entry_get (cells h' l) k' = entry_get (cells h l) k').
  { intros k k1 rest l h h' Hsh Hl Hrun k' Hk'.
    pose proof (shaped_closed lev up h Hsh) as Hc.
    destruct (entry_get (cells h l) k) as [v|] eqn:Hget.
    - rewrite (@assign_present k k1 rest l v value h Hget) in Hrun.
      pose proof (@closed_made h l k v Hc Hl Hget) as Hv.
      assert (Hout : ~ In l (route (removelast (k1 :: rest)) v h)).
      { exact (@head_not_below lev up h _ l k v Hsh Hl Hget). }
      pose proof (@assign_frame (k1 :: rest) value v h l Hc Hv Hl Hout) as Hfr.
      rewrite Hrun in Hfr. cbn [snd] in Hfr. now rewrite Hfr.
    - rewrite (@assign_absent k k1 rest l value h Hl Hget) in Hrun.
      set (h1 := write l (entry_set (cells h l) k (VRef (next h)))
                   (snd (new [] h))) in *.
      assert (Hc1 : closed h1 = true) by now apply closed_extend.
      assert (Hm1 : made h1 (VRef (next h))) by (cbn; lia).
      assert (Hl1 : l < next h1) by (subst h1; cbn; lia).
      assert (Hempty : cells h1 (next h) = []).
      { subst h1. cbn [write new snd cells]. rewrite Nat.eqb_refl.
        destruct (Nat.eqb (next h) l) eqn:E; [|reflexivity].
        apply Nat.eqb_eq in E. lia. }
      assert (Hout : ~ In l (route (removelast (k1 :: rest)) (VRef (next h)) h1)).
      { destruct (removelast (k1 :: rest)); cbn [route]; [|rewrite Hempty];
          cbn [entry_get]; intros [H|[]]; lia. }
      pose proof (@assign_frame (k1 :: rest) value (VRef (next h)) h1 l
                    Hc1 Hm1 Hl1 Hout) as Hfr.
      rewrite Hrun in Hfr. cbn [snd] in Hfr. rewrite Hfr.
      subst h1. cbn [write cells]. rewrite Nat.eqb_refl, entry_get_set.
      destruct (str_eqb k k') eqn:E; [|reflexivity].
      apply str_eqb_eq in E. congruence. }
  induction c as [|k c IH]; intros config h h' Hsh Hm Hrun.
  - cbn [app] in *. pose proof (shaped_closed lev up h Hsh) as Hc.
    destruct config as [| | | | | |l];
      try (destruct p'; cbn [assign setitem contains] in Hrun; discriminate).
    + destruct p' as [|k1 rest]; [cbn [assign setitem] in Hrun; discriminate|].
      rewrite assign_cons in Hrun. cbn [contains] in Hrun.
      destruct (occurs kp s); cbn [new setitem getitem] in Hrun; discriminate.
    + destruct p' as [|k1 rest]; [cbn [assign setitem] in Hrun; discriminate|].
      rewrite assign_cons in Hrun. cbn [contains] in Hrun.
      destruct (existsb _ items); cbn [new setitem getitem] in Hrun; discriminate.
    + cbn [made] in Hm. cbn [traverse getitem].
      assert (Hq : entry_get (cells h' l) kq = entry_get (cells h l) kq).
      { destruct p' as [|k1 rest].
        - cbn [assign setitem] in Hrun. injection Hrun as <-.
          cbn [write cells]. rewrite Nat.eqb_refl, entry_get_set. now rewrite Hmiss.
        - apply (Hhead kp k1 rest l h h' Hsh Hm Hrun). congruence. }
      rewrite Hq.
      destruct (entry_get (cells h l) kq) as [vq|] eqn:Hgq; [|reflexivity].
      cbn [bind]. apply traverse_route. intros x Hx.
      pose proof (@closed_made h l kq vq Hc Hm Hgq) as Hvq.
      assert (Hxn : x < next h).
      { pose proof (@route_made h q' vq Hc Hvq) as Hall.
        rewrite Forall_forall in Hall. now apply Hall. }
      assert (Hxl : x <> l /\ exists b1, vq = VRef b1 /\ b1 < next h /\
                                       lev b1 = S (lev l) /\ up b1 = (l, kq)).
      { destruct (plain vq) eqn:Hp;
          [rewrite (route_plain q' vq h Hp) in Hx; destruct Hx|].
        destruct vq as [| | | | | |b1]; try discriminate.
        destruct (@shaped_In lev up h l b1 kq Hsh Hm (entry_get_In_key _ _ Hgq))
          as (H1 & H2 & H3).
        destruct (@route_layers lev up h q' Hsh b1 H1) as [Hall _].
        rewrite Forall_forall in Hall. specialize (Hall x Hx).
        split; [intros ->; lia|]. exists b1. auto. }
      destruct Hxl as (Hxl & b1 & -> & Hb1 & Hlb1 & Hub1).
      destruct p' as [|k1 rest].
      * cbn [assign setitem] in Hrun. injection Hrun as <-.
        cbn [write cells]. apply Nat.eqb_neq in Hxl. now rewrite Hxl.
      * destruct (entry_get (cells h l) kp) as [vp|] eqn:Hgp.
        -- rewrite (@assign_present kp k1 rest l vp value h Hgp) in Hrun.
           pose proof (@closed_made h l kp vp Hc Hm Hgp) as Hvp.
           assert (Hout : ~ In x (route (removelast (k1 :: rest)) vp h)).
           { intros Hin.
             destruct (plain vp) eqn:Hp;
               [rewrite (route_plain _ vp h Hp) in Hin; destruct Hin|].
             destruct vp as [| | | | | |a1]; try discriminate.
             destruct (@shaped_In lev up h l a1 kp Hsh Hm (entry_get_In_key _ _ Hgp))
               as (H1 & H2 & H3).
             apply (@routes_apart lev up h Hsh (removelast (k1 :: rest)) q' a1 b1 x H1 Hb1);
               [lia| |exact Hin|exact Hx].
             intros ->. rewrite H3 in Hub1. injection Hub1 as E. congruence. }
           pose proof (@assign_frame (k1 :: rest) value vp h x Hc Hvp Hxn Hout) as Hfr.
           rewrite Hrun in Hfr. exact Hfr.
        -- rewrite (@assign_absent kp k1 rest l value h Hm Hgp) in Hrun.
           set (h1 := write l (entry_set (cells h l) kp (VRef (next h)))
                        (snd (new [] h))) in *.
           assert (Hc1 : closed h1 = true) by now apply closed_extend.
           assert (Hm1 : made h1 (VRef (next h))) by (cbn; lia).
           assert (Hx1 : x < next h1) by (subst h1; cbn; lia).
           assert (Hempty : cells h1 (next h) = []).
           { subst h1. cbn [write new snd cells]. rewrite Nat.eqb_refl.
             destruct (Nat.eqb (next h) l) eqn:E; [|reflexivity].
             apply Nat.eqb_eq in E. lia. }
           assert (Hout : ~ In x (route (removelast (k1 :: rest))
                                    (VRef (next h)) h1)).
           { destruct (removelast (k1 :: rest)); cbn [route]; [|rewrite Hempty];
               cbn [entry_get]; intros [H|[]]; lia. }
           pose proof (@assign_frame (k1 :: rest) value (VRef (next h)) h1 x
                         Hc1 Hm1 Hx1 Hout) as Hfr.
           rewrite Hrun in Hfr. cbn [snd] in Hfr. rewrite Hfr.
           subst h1. cbn [write new snd cells].
           apply Nat.eqb_neq in Hxl. rewrite Hxl.
           destruct (Nat.eqb x (next h)) eqn:E; [apply Nat.eqb_eq in E; lia|].
           reflexivity.
  - pose proof (shaped_closed lev up h Hsh) as Hc.
    assert (Hne : exists k1 rest, c ++ kp :: p' = k1 :: rest).
    { destruct c; cbn [app]; eauto. }
    destruct Hne as (k1 & rest & Hrest).
    change ((k :: c) ++ kp :: p') with (k :: (c ++ kp :: p')) in Hrun.
    change ((k :: c) ++ kq :: q') with (k :: (c ++ kq :: q')).
    rewrite Hrest in Hrun.
    destruct config as [| | | | | |l];
      try (rewrite assign_cons in Hrun; cbn [contains] in Hrun; discriminate).
    + rewrite assign_cons in Hrun. cbn [contains] in Hrun.
      destruct (occurs k s); cbn [new setitem getitem] in Hrun; discriminate.
    + rewrite assign_cons in Hrun. cbn [contains] in Hrun.
      destruct (existsb _ items); cbn [new setitem getitem] in Hrun; discriminate.
    + cbn [made] in Hm. cbn [traverse getitem].
      destruct (entry_get (cells h l) k) as [v|] eqn:Hget.
      * pose proof Hrun as Hrun0.
        rewrite (@assign_present k k1 rest l v value h Hget) in Hrun.
        pose proof (@closed_made h l k v Hc Hm Hget) as Hv.
        assert (Hout : ~ In l (route (removelast (k1 :: rest)) v h)).
        { exact (@head_not_below lev up h _ l k v Hsh Hm Hget). }
        pose proof (@assign_frame (k1 :: rest) value v h l Hc Hv Hm Hout) as Hfr.
        rewrite Hrun in Hfr. cbn [snd] in Hfr. rewrite Hfr, Hget. cbn [bind].
        rewrite <- Hrest in Hrun. exact (IH v h h' Hsh Hv Hrun).
      * rewrite (@assign_absent k k1 rest l value h Hm Hget) in Hrun.
        set (h1 := write l (entry_set (cells h l) k (VRef (next h)))
                     (snd (new [] h))) in *.
        assert (Hc1 : closed h1 = true) by now apply closed_extend.
        assert (Hm1 : made h1 (VRef (next h))) by (cbn; lia).
        assert (Hl1 : l < next h1) by (subst h1; cbn; lia).
        assert (Hempty : cells h1 (next h) = []).
        { subst h1. cbn [write new snd cells]. rewrite Nat.eqb_refl.
          destruct (Nat.eqb (next h) l) eqn:E; [|reflexivity].
          apply Nat.eqb_eq in E. lia. }
        assert (Hout : ~ In l (route (removelast (k1 :: rest)) (VRef (next h)) h1)).
        { destruct (removelast (k1 :: rest)); cbn [route]; [|rewrite Hempty];
            cbn [entry_get]; intros [H|[]]; lia. }
        pose proof (@assign_frame (k1 :: rest) value (VRef (next h)) h1 l
                      Hc1 Hm1 Hl1 Hout) as Hfr.
        rewrite Hrun in Hfr. cbn [snd] in Hfr. rewrite Hfr.
        subst h1. cbn [write cells]. rewrite Nat.eqb_refl, entry_get_set.
        rewrite str_eqb_refl. cbn [bind].
        rewrite <- Hrest in Hrun.
        apply (@fresh_miss c kp kq p' q' value Hk (next h) _ h' Hc1); auto.
Qed.

(** X9. On a configuration whose dictionaries form trees, a [set] leaves
    every [get] along a path that parts from its own as it was: neither
    key begins with the other, segment by segment.  This holds whether
    the [set] returned or raised. *)
Theorem set_leaves_others (key key' : str) (value default : val) (self : t)
    (h h' : heap) (r : result unit) (lev : loc -> nat) (up : loc -> loc * str) :
  shaped lev up h = true -> _config self < next h ->
  part (split Config.dot key) (split Config.dot key') ->
  set key value self h = (r, h') ->
  get key' default self h' = get key' default self h.
Proof.
  intros Hsh Hm (c & kp & kq & p' & q' & Hp & Hq & Hk).
  destruct (set_assign key value self h) as [Hne ->]. intros Hrun.
  pose proof (shaped_closed lev up h Hsh) as Hc.
  unfold get. destruct r as [[]|e].
  - rewrite Hp in Hrun. rewrite Hq.
    now rewrite (@assign_apart lev up value kp kq p' q' Hk c
                   (VRef (_config self)) h h' Hsh Hm Hrun).
  - destruct (@assign_raises (split Config.dot key) value (VRef (_config self))
                h h' e Hc Hm Hne Hrun) as [_ Hsame].
    now rewrite (@traverse_agree (split Config.dot key') (VRef (_config self))
                   h h' Hc Hm Hsame).
Qed.

(** A new configuration with the defaults, in a store that held
    nothing. *)
Definition sample : t * heap := object_of Config._load_defaults empty.

Definition sample_layers (l : loc) : nat := if Nat.eqb l 5 then 0 else 1.

Definition sample_up (l : loc) : loc * str :=
  (5, nth l [lit "app"; lit "database"; lit "redis"; lit "logging";
             lit "monitoring"] []).

Lemma set_then_get_witness :
  let h' := snd (set (lit "test.key") (VStr (lit "test_value"))
                     (fst sample) (snd sample)) in
  get (lit "test.key") VNone (fst sample) h' = Ok (VStr (lit "test_value")).
Proof.
  cbv zeta.
  apply (@set_then_get (lit "test.key") (VStr (lit "test_value")) VNone
           (fst sample) (snd sample)).
  - vm_compute. reflexivity.
  - vm_compute. lia.
  - vm_compute. constructor; [intros []|constructor].
  - vm_compute. reflexivity.
Defined.


Lemma set_keeps_shape_witness :
  let h' := snd (set (lit "new.nested.key") (VStr (lit "nested_value"))
                     (fst sample) (snd sample)) in
  get (lit "new.nested.key") VNone (fst sample) h'
  = Ok (VStr (lit "nested_value")).
Proof.
  cbv zeta.
  apply (@set_keeps_shape (lit "new.nested.key") (VStr (lit "nested_value"))
           VNone (fst sample) (snd sample) _ sample_layers sample_up).
  - vm_compute. reflexivity.
  - vm_compute. lia.
  - reflexivity.
  - vm_compute. reflexivity.
Defined.

Lemma set_raises_unchanged_witness :
  let r := set (lit "app.name.x") (VInt 1) (fst sample) (snd sample) in
  fst r = Raise TypeError /\
  get (lit "app.name") VNone (fst sample) (snd r) = Ok (VStr (lit "finovatex")).
Proof.
  cbv zeta. split; [vm_compute; reflexivity|].
  assert (H : set (lit "app.name.x") (VInt 1) (fst sample) (snd sample)
              = (Raise TypeError,
                 snd (set (lit "app.name.x") (VInt 1) (fst sample) (snd sample))))
    by (vm_compute; reflexivity).
  assert (Hc : closed (snd sample) = true) by (vm_compute; reflexivity).
  assert (Hm : _config (fst sample) < next (snd sample)) by (vm_compute; lia).
  rewrite (proj2 (proj2 (@set_raises_unchanged _ _ _ _ _ _ Hc Hm H))).
  vm_compute. reflexivity.
Defined.

Lemma set_returns_iff_witness :
  fst (set (lit "monitoring.alerts.email") (VBool true) (fst sample) (snd sample))
  = Ok tt.
Proof.
  apply set_returns_iff.
  - vm_compute. reflexivity.
  - vm_compute. lia.
  - vm_compute. reflexivity.
Defined.

Lemma to_dict_shallow_witness :
  let d := fst (to_dict (fst sample) (snd sample)) in
  let h1 := snd (to_dict (fst sample) (snd sample)) in
  let h2 := snd (set (lit "app.debug") (VBool true) (fst sample) h1) in
  traverse [lit "app"; lit "debug"] d h1 = Ok (VBool false) /\
  traverse [lit "app"; lit "debug"] d h2 = Ok (VBool true).
Proof.
  cbv zeta. split; [vm_compute; reflexivity|].
  assert (Hc : closed (snd sample) = true) by (vm_compute; reflexivity).
  assert (Hm : _config (fst sample) < next (snd sample)) by (vm_compute; lia).
  assert (Hnd : NoDup (route (removelast (split Config.dot (lit "app.debug")))
                         (VRef (_config (fst sample)))
                         (snd (to_dict (fst sample) (snd sample))))).
  { vm_compute. repeat constructor; cbn; intuition lia. }
  assert (Hrun : set (lit "app.debug") (VBool true) (fst sample)
                     (snd (to_dict (fst sample) (snd sample)))
                 = (Ok tt, snd (set (lit "app.debug") (VBool true) (fst sample)
                                    (snd (to_dict (fst sample) (snd sample))))))
    by (vm_compute; reflexivity).
  exact (proj2 (@to_dict_shallow _ _ _ _ _ Hc Hm Hnd Hrun)
           (lit "app") [lit "debug"] (VRef 0) eq_refl
           ltac:(discriminate) eq_refl).
Defined.

Lemma set_leaves_others_witness :
  let h' := snd (set (lit "app.debug") (VBool true) (fst sample) (snd sample)) in
  get (lit "app.port") VNone (fst sample) h' = Ok (VInt 8080).
Proof.
  cbv zeta.
  rewrite (@set_leaves_others (lit "app.debug") (lit "app.port") (VBool true)
             VNone (fst sample) (snd sample)
             (snd (set (lit "app.debug") (VBool true) (fst sample) (snd sample)))
             (Ok tt) sample_layers sample_up).
  - vm_compute. reflexivity.
  - vm_compute. reflexivity.
  - vm_compute. lia.
  - exists [lit "app"], (lit "debug"), (lit "port"), [], [].
    split; [vm_compute; reflexivity|]. split; [vm_compute; reflexivity|].
    vm_compute. discriminate.
  - vm_compute. reflexivity.
Defined.

(** *** A new configuration

    Induction on values, through the lists and dictionaries inside. *)
Section Values.

Variable Q : pyval -> Prop.
Hypothesis QNone : Q PNone.
Hypothesis QBool : forall b, Q (PBool b).
Hypothesis QInt : forall z, Q (PInt z).
Hypothesis QFloat : forall lexeme, Q (PFloat lexeme).
Hypothesis QStr : forall s, Q (PStr s).
Hypothesis QList : forall items, Forall Q items -> Q (PList items).
Hypothesis QDict : forall d, Forall (fun kv => Q (snd kv)) d -> Q (PDict d).

Fixpoint pyval_induction (p : pyval) : Q p :=
  match p with
  | PNone => QNone
  | PBool b => QBool b
  | PInt z => QInt z
  | PFloat lexeme => QFloat lexeme
  | PStr s => QStr s
  | PList items =>
      QList ((fix each (items : list pyval) : Forall Q items :=
                match items with
                | [] => Forall_nil Q
                | x :: items' => Forall_cons x (pyval_induction x) (each items')
                end) items)
  | PDict d =>
      QDict ((fix each (d : list (str * pyval))
                : Forall (fun kv => Q (snd kv)) d :=
                match d with
                | [] => Forall_nil _
                | kv :: d' =>
                    Forall_cons kv (pyval_induction (snd kv)) (each d')
                end) d)
  end.

End Values.

(** The items of a list, laid out one after the other. *)
Fixpoint allocate_items (items : list pyval) (h : heap) : list val * heap :=
  match items with
  | [] => ([], h)
  | x :: items' =>
      let (v, h1) := allocate x h in
      let (vs, h2) := allocate_items items' h1 in (v :: vs, h2)
  end.

Lemma allocate_list (items : list pyval) (h : heap) :
  allocate (PList items) h
  = let (vs, h') := allocate_items items h in (VList vs, h').
Proof. reflexivity. Qed.

Lemma allocate_dict (d : dict) (h : heap) :
  allocate (PDict d) h
  = let (es, h') := allocate_entries d h in
    let (l, h'') := new es h' in (VRef l, h'').
Proof. reflexivity. Qed.

(** Laying a value out keeps the dictionaries in trees: those there
    before stay as they were, and a dictionary it comes to has the
    layer and the place one cares to give it, nothing referring to it
    yet. *)
Definition grows (lev : loc -> nat) (up : loc -> loc * str) (h : heap)
    (lev' : loc -> nat) (up' : loc -> loc * str) (h' : heap) : Prop :=
  next h <= next h' /\
  (forall x, x < next h ->
     cells h' x = cells h x /\ lev' x = lev x /\ up' x = up x) /\
  shaped lev' up' h' = true.

Definition placed (lev' : loc -> nat) (up' : loc -> loc * str) (h' : heap)
    (d : nat) (u0 : loc * str) (v : val) : Prop :=
  match v with
  | VRef r => r < next h' /\ lev' r = d /\ up' r = u0
  | _ => True
  end.

Definition allocate_ok (p : pyval) : Prop :=
  forall (h : heap) (lev : loc -> nat) (up : loc -> loc * str) (d : nat)
         (u0 : loc * str),
    shaped lev up h = true ->
    exists lev' up',
      grows lev up h lev' up' (snd (allocate p h)) /\
      placed lev' up' (snd (allocate p h)) d u0 (fst (allocate p h)).

Lemma grows_refl (lev : loc -> nat) (up : loc -> loc * str) (h : heap) :
  shaped lev up h = true -> grows lev up h lev up h.
Proof. intros H. split; [apply le_n|]. split; auto. Qed.

Lemma grows_trans (lev0 lev1 lev2 : loc -> nat) (up0 up1 up2 : loc -> loc * str)
    (h0 h1 h2 : heap) :
  grows lev0 up0 h0 lev1 up1 h1 -> grows lev1 up1 h1 lev2 up2 h2 ->
  grows lev0 up0 h0 lev2 up2 h2.
Proof.
  intros (A1 & A2 & _) (B1 & B2 & B3). split; [lia|]. split; [|exact B3].
  intros x Hx. destruct (A2 x Hx) as (a1 & a2 & a3).
  destruct (B2 x) as (b1 & b2 & b3); [lia|].
  repeat split; congruence.
Qed.

Lemma placed_grows (lev1 lev2 : loc -> nat) (up1 up2 : loc -> loc * str)
    (h1 h2 : heap) (d : nat) (u0 : loc * str) (v : val) :
  placed lev1 up1 h1 d u0 v -> grows lev1 up1 h1 lev2 up2 h2 ->
  placed lev2 up2 h2 d u0 v.
Proof.
  intros Hp (B1 & B2 & _). destruct v; auto. cbn [placed] in *.
  destruct Hp as (H1 & H2 & H3). destruct (B2 l H1) as (_ & b2 & b3).
  repeat split; [lia|congruence|congruence].
Qed.

Lemma allocate_entries_ok (d : dict) :
  Forall (fun kv => allocate_ok (snd kv)) d ->
  forall (h : heap) (lev : loc -> nat) (up : loc -> loc * str) (depth : nat)
         (parent : loc),
    shaped lev up h = true ->
    exists lev' up',
      grows lev up h lev' up' (snd (allocate_entries d h)) /\
      Forall (fun kv => placed lev' up' (snd (allocate_entries d h)) depth
                               (parent, fst kv) (snd kv))
             (fst (allocate_entries d h)).
Proof.
  induction 1 as [|[k x] d Hx _ IH]; intros h lev up depth parent Hsh.
  - exists lev, up. cbn [allocate_entries fst snd].
    split; [now apply grows_refl|constructor].
  - cbn [allocate_entries]. cbn [snd] in Hx.
    destruct (Hx h lev up depth (parent, k) Hsh) as (lev1 & up1 & G1 & P1).
    destruct (allocate x h) as [v h1]. cbn [fst snd] in *.
    destruct (IH h1 lev1 up1 depth parent (proj2 (proj2 G1)))
      as (lev2 & up2 & G2 & P2).
    destruct (allocate_entries d h1) as [es h2]. cbn [fst snd] in *.
    exists lev2, up2. split; [eapply grows_trans; [exact G1|exact G2]|].
    constructor; [|exact P2]. cbn [fst snd].
    eapply placed_grows; [exact P1|exact G2].
Qed.

Lemma allocate_items_ok (items : list pyval) :
  Forall allocate_ok items ->
  forall (h : heap) (lev : loc -> nat) (up : loc -> loc * str),
    shaped lev up h = true ->
    exists lev' up', grows lev up h lev' up' (snd (allocate_items items h)).
Proof.
  induction 1 as [|x items Hx _ IH]; intros h lev up Hsh.
  - exists lev, up. now apply grows_refl.
  - cbn [allocate_items].
    destruct (Hx h lev up 0 (0, []) Hsh) as (lev1 & up1 & G1 & _).
    destruct (allocate x h) as [v h1]. cbn [fst snd] in *.
    destruct (IH h1 lev1 up1 (proj2 (proj2 G1))) as (lev2 & up2 & G2).
    destruct (allocate_items items h1) as [vs h2]. cbn [fst snd] in *.
    exists lev2, up2. eapply grows_trans; [exact G1|exact G2].
Qed.

(** A new dictionary over entries that are placed under it. *)
Lemma new_placed (es : entries) (h : heap) (lev : loc -> nat)
    (up : loc -> loc * str) (d : nat) (u0 : loc * str) :
  shaped lev up h = true ->
  Forall (fun kv => placed lev up h (S d) (next h, fst kv) (snd kv)) es ->
  exists lev' up',
    grows lev up h lev' up' (snd (new es h)) /\
    placed lev' up' (snd (new es h)) d u0 (VRef (fst (new es h))).
Proof.
  intros Hsh Hes.
  exists (fun x => if Nat.eqb x (next h) then d else lev x),
         (fun x => if Nat.eqb x (next h) then u0 else up x).
  cbn [new fst snd]. split; [split; [cbn; lia|split]|].
  - intros x Hx. cbn [cells].
    destruct (Nat.eqb x (next h)) eqn:E; [apply Nat.eqb_eq in E; lia|auto].
  - apply shaped_intro. cbn [next cells]. intros x k' l' Hx Hin.
    destruct (Nat.eqb x (next h)) eqn:E.
    + apply Nat.eqb_eq in E. subst x.
      rewrite Forall_forall in Hes. specialize (Hes _ Hin).
      cbn [placed fst snd] in Hes. destruct Hes as (H1 & H2 & H3).
      destruct (Nat.eqb l' (next h)) eqn:E2; [apply Nat.eqb_eq in E2; lia|].
      repeat split; [lia|exact H2|exact H3].
    + apply Nat.eqb_neq in E. assert (Hx' : x < next h) by lia.
      destruct (@shaped_In lev up h x l' k' Hsh Hx' Hin) as (H1 & H2 & H3).
      destruct (Nat.eqb l' (next h)) eqn:E2; [apply Nat.eqb_eq in E2; lia|].
      repeat split; [lia|exact H2|exact H3].
  - cbn [placed next]. rewrite Nat.eqb_refl. repeat split. lia.
Qed.

Lemma allocate_all (p : pyval) : allocate_ok p.
Proof.
  induction p using pyval_induction;
    try (intros h lev up d u0 Hsh; exists lev, up; cbn [allocate fst snd];
         split; [now apply grows_refl|exact I]).
  - (* a list *)
    intros h lev up d u0 Hsh. rewrite allocate_list.
    destruct (@allocate_items_ok items H h lev up Hsh) as (lev' & up' & G).
    destruct (allocate_items items h) as [vs h']. cbn [fst snd] in *.
    exists lev', up'. split; [exact G|exact I].
  - (* a dictionary *)
    intros h lev up depth u0 Hsh. rewrite allocate_dict.
    destruct (@allocate_entries_ok d H h lev up (S depth)
                (next (snd (allocate_entries d h))) Hsh)
      as (lev1 & up1 & G1 & P1).
    destruct (allocate_entries d h) as [es h1]. cbn [fst snd] in *.
    destruct (@new_placed es h1 lev1 up1 depth u0 (proj2 (proj2 G1)) P1)
      as (lev2 & up2 & G2 & P2).
    destruct (new es h1) as [l h2]. cbn [fst snd] in *.
    exists lev2, up2. split; [eapply grows_trans; [exact G1|exact G2]|exact P2].
Qed.

(** The dictionaries of a new configuration form trees, whatever the
    configuration holds: a dictionary display makes a new dictionary
    for each dictionary inside it. *)
Lemma object_of_shaped (c : Config.t) :
  exists lev up,
    shaped lev up (snd (object_of c empty)) = true /\
    _config (fst (object_of c empty)) < next (snd (object_of c empty)).
Proof.
  unfold object_of.
  assert (Hall : Forall (fun kv => allocate_ok (snd kv)) (Config._config c)).
  { apply Forall_forall. intros kv _. apply allocate_all. }
  assert (Hempty : shaped (fun _ => 0) (fun _ => (0, [])) empty = true)
    by reflexivity.
  destruct (@allocate_entries_ok _ Hall empty _ _ 1
              (next (snd (allocate_entries (Config._config c) empty))) Hempty)
    as (lev1 & up1 & G1 & P1).
  destruct (allocate_entries (Config._config c) empty) as [es h1].
  cbn [fst snd] in *.
  destruct (@new_placed es h1 lev1 up1 0 (0, []) (proj2 (proj2 G1)) P1)
    as (lev2 & up2 & G2 & P2).
  exists lev2, up2. cbn [new fst snd _config] in *.
  split; [exact (proj2 (proj2 G2))|]. cbn. lia.
Qed.

(** X10. On a new configuration, whatever it holds, a [set] that
    returned is read back by [get] with the same key, and every key
    whose path parts from that one reads as it did before. *)
Theorem new_config_set (c : Config.t) (key : str) (value : val) (h' : heap) :
  let self := fst (object_of c empty) in
  let h := snd (object_of c empty) in
  set key value self h = (Ok tt, h') ->
  (forall default, get key default self h' = Ok value) /\
  forall key' default,
    part (split Config.dot key) (split Config.dot key') ->
    get key' default self h' = get key' default self h.
Proof.
  cbv zeta. destruct (object_of_shaped c) as (lev & up & Hsh & Hm).
  destruct (set_assign key value (fst (object_of c empty))
              (snd (object_of c empty))) as [Hne ->].
  intros Hrun. split.
  - intros default. unfold get.
    now rewrite (@assign_get (split Config.dot key) value
                   (VRef (_config (fst (object_of c empty)))) _ _
                   (shaped_closed lev up _ Hsh) Hm Hne
                   (proj2 (@route_layers lev up _ _ Hsh _ Hm)) Hrun).
  - intros key' default (p & kp & kq & p' & q' & Hp & Hq & Hk).
    unfold get. rewrite Hp in Hrun. rewrite Hq.
    now rewrite (@assign_apart lev up value kp kq p' q' Hk p
                   (VRef (_config (fst (object_of c empty)))) _ _ Hsh Hm Hrun).
Qed.

Lemma new_config_set_witness :
  let self := fst (object_of Config._load_defaults empty) in
  let h' := snd (set (lit "new.nested.key") (VStr (lit "nested_value")) self
                     (snd (object_of Config._load_defaults empty))) in
  get (lit "new.nested.key") VNone self h' = Ok (VStr (lit "nested_value")) /\
  get (lit "app.port") VNone self h' = Ok (VInt 8080).
Proof.
  cbv zeta.
  assert (Hrun : set (lit "new.nested.key") (VStr (lit "nested_value"))
                   (fst (object_of Config._load_defaults empty))
                   (snd (object_of Config._load_defaults empty))
                 = (Ok tt,
                    snd (set (lit "new.nested.key") (VStr (lit "nested_value"))
                           (fst (object_of Config._load_defaults empty))
                           (snd (object_of Config._load_defaults empty)))))
    by (vm_compute; reflexivity).
  destruct (@new_config_set _ _ _ _ Hrun) as [Hget Hother]. split.
  - apply Hget.
  - rewrite (Hother (lit "app.port") VNone).
    + vm_compute. reflexivity.
    + exists [], (lit "new"), (lit "app"), [lit "nested"; lit "key"], [lit "port"].
      split; [vm_compute; reflexivity|]. split; [vm_compute; reflexivity|].
      vm_compute. discriminate.
Defined.

(** The dictionaries [to_dict] shares can be put back into the
    configuration; one then lies on its own way down, and a [set] that
    goes through it twice is not read back. *)
Example shared_dictionary_not_read_back :
  let self := fst sample in
  let (d, h1) := to_dict self (snd sample) in
  match getitem d (lit "app") h1 with
  | Ok app =>
      let h2 := snd (set (lit "app.loop") app self h1) in
      let r := set (lit "app.loop.loop") (VInt 5) self h2 in
      fst r = Ok tt /\
      get (lit "app.loop.loop") VNone self (snd r) = Ok VNone
  | Raise _ => False
  end.
Proof. vm_compute. split; reflexivity. Qed.

End ConfigObject.


(* ================================================================== *)
(** ** [json.dumps] and [json.loads], as the envelope codec uses them *)

Module Json.
Import Py.
Local Open Scope N_scope.

(** *** Encoder ([ensure_ascii=True], separators [", "] and [": "]) *)

Definition hex_digit (n : N) : N := if n <? 10 then 48 + n else 87 + n.

(** ['{0:04x}'.format(n)] for [n < 0x10000]. *)
Definition hex4 (n : N) : str :=
  [ hex_digit (n / 4096 mod 16); hex_digit (n / 256 mod 16);
    hex_digit (n / 16 mod 16); hex_digit (n mod 16) ].

(** [ESCAPE_ASCII] with [ESCAPE_DCT] and the [replace] fallback: the two
    quoting characters and the five short escapes, then everything that
    is not printable ASCII as [\uXXXX], above the BMP as a surrogate
    pair. *)
Definition escape_char (c : N) : str :=
  if c =? 34 then [92; 34]
  else if c =? 92 then [92; 92]
  else if c =? 8 then [92; 98]
  else if c =? 12 then [92; 102]
  else if c =? 10 then [92; 110]
  else if c =? 13 then [92; 114]
  else if c =? 9 then [92; 116]
  else if (32 <=? c) && (c <=? 126) then [c]
  else if c <? 65536 then 92 :: 117 :: hex4 c
  else
    let n := c - 65536 in
    let s1 := N.lor 55296 (N.land (N.shiftr n 10) 1023) in
    let s2 := N.lor 56320 (N.land n 1023) in
    (92 :: 117 :: hex4 s1) ++ (92 :: 117 :: hex4 s2).

Definition encode_basestring_ascii (s : str) : str :=
  34 :: flat_map escape_char s ++ [34].

Fixpoint join (sep : str) (parts : list str) : str :=
  match parts with
  | [] => []
  | [x] => x
  | x :: rest => x ++ sep ++ join sep rest
  end.

Definition int_repr (z : Z) : str :=
  lit (DecimalString.NilZero.string_of_int (Z.to_int z)).

Fixpoint dumps (v : pyval) : str :=
  match v with
  | PNone => lit "null"
  | PBool true => lit "true"
  | PBool false => lit "false"
  | PInt z => int_repr z
  | PFloat lexeme => lexeme
  | PStr s => encode_basestring_ascii s
  | PList l => 91 :: join (lit ", ") (map dumps l) ++ [93]
  | PDict d =>
      123 :: join (lit ", ")
               (map (fun kv => encode_basestring_ascii (fst kv)
                                 ++ lit ": " ++ dumps (snd kv)) d)
          ++ [125]
  end.

(** *** Decoder *)

Definition hex_val (c : N) : option N :=
  if (48 <=? c) && (c <=? 57) then Some (c - 48)
  else if (97 <=? c) && (c <=? 102) then Some (c - 87)
  else if (65 <=? c) && (c <=? 70) then Some (c - 55)
  else None.

(** [_decode_uXXXX]: four hexadecimal digits. *)
Definition decode_uXXXX (a b c d : N) : option N :=
  match hex_val a, hex_val b, hex_val c, hex_val d with
  | Some x, Some y, Some z, Some w => Some (((x * 16 + y) * 16 + z) * 16 + w)
  | _, _, _, _ => None
  end.

(** The [BACKSLASH] table. *)
Definition backslash (e : N) : option N :=
  if e =? 34 then Some 34
  else if e =? 92 then Some 92
  else if e =? 47 then Some 47
  else if e =? 98 then Some 8
  else if e =? 102 then Some 12
  else if e =? 110 then Some 10
  else if e =? 114 then Some 13
  else if e =? 116 then Some 9
  else None.

Definition is_high (u : N) : bool := (55296 <=? u) && (u <=? 56319).
Definition is_low (u : N) : bool := (56320 <=? u) && (u <=? 57343).

Definition push (c : N) (r : result (str * str)) : result (str * str) :=
  match r with
  | Ok (s, rest) => Ok (c :: s, rest)
  | Raise e => Raise e
  end.

(** [scanstring] (strict), entered after the opening quote: the decoded
    string and the text after the closing quote. *)
Fixpoint scanstring (s : str) : result (str * str) :=
  match s with
  | [] => Raise JSONDecodeError
  | c :: s1 =>
      if c =? 34 then Ok ([], s1)
      else if c =? 92 then
        match s1 with
        | [] => Raise JSONDecodeError
        | e :: s2 =>
            if e =? 117 then
              match s2 with
              | h1 :: h2 :: h3 :: h4 :: s3 =>
                  match decode_uXXXX h1 h2 h3 h4 with
                  | None => Raise JSONDecodeError
                  | Some uni =>
                      match s3 with
                      | b :: u :: s3' =>
                          if is_high uni && (b =? 92) && (u =? 117) then
                            match s3' with
                            | l1 :: l2 :: l3 :: l4 :: s4 =>
                                match decode_uXXXX l1 l2 l3 l4 with
                                | None => Raise JSONDecodeError
                                | Some uni2 =>
                                    if is_low uni2 then
                                      push (65536 + N.lor (N.shiftl (uni - 55296) 10)
                                                          (uni2 - 56320))
                                           (scanstring s4)
                                    else push uni (scanstring s3)
                                end
                            | _ => Raise JSONDecodeError
                            end
                          else push uni (scanstring s3)
                      | _ => push uni (scanstring s3)
                      end
                  end
              | _ => Raise JSONDecodeError
              end
            else
              match backslash e with
              | Some ch => push ch (scanstring s2)
              | None => Raise JSONDecodeError
              end
        end
      else if c <? 32 then Raise JSONDecodeError
      else push c (scanstring s1)
  end.

Definition is_ws (c : N) : bool :=
  (c =? 32) || (c =? 9) || (c =? 10) || (c =? 13).

Fixpoint skip_ws (s : str) : str :=
  match s with
  | c :: s' => if is_ws c then skip_ws s' else s
  | [] => []
  end.

Fixpoint strip_prefix (p s : str) : option str :=
  match p, s with
  | [], _ => Some s
  | x :: p', y :: s' => if x =? y then strip_prefix p' s' else None
  | _ :: _, [] => None
  end.

(** [NUMBER_RE.match]: an optional minus, then 0 or a digit string with
    no leading 0, then an optional fraction (a dot and digits) and an
    optional exponent (e or E, an optional sign, digits); an integer when
    there is neither fraction nor exponent. *)
Definition match_number (s : str) : option (pyval * str) :=
  let (neg, s1) :=
    match s with
    | c :: s' => if c =? 45 then (true, s') else (false, s)
    | [] => (false, s)
    end in
  match s1 with
  | [] => None
  | d :: s2 =>
      if is_digit d then
        let (ipart, r1) :=
          if d =? 48 then ([d], s2)
          else let (ds, r) := span_digits s2 in (d :: ds, r) in
        let (frac, r2) :=
          match r1 with
          | p :: r1' =>
              if p =? 46 then
                let (fd, r) := span_digits r1' in
                match fd with [] => ([], r1) | _ => (p :: fd, r) end
              else ([], r1)
          | [] => ([], r1)
          end in
        let (exp, r3) :=
          match r2 with
          | e :: r2' =>
              if (e =? 101) || (e =? 69) then
                let (sign, r2'') :=
                  match r2' with
                  | g :: t => if (g =? 43) || (g =? 45) then ([g], t) else ([], r2')
                  | [] => ([], r2')
                  end in
                let (ed, r) := span_digits r2'' in
                match ed with [] => ([], r2) | _ => (e :: sign ++ ed, r) end
              else ([], r2)
          | [] => ([], r2)
          end in
        match frac, exp with
        | [], [] =>
            let n := Z.of_N (digits_value ipart) in
            Some (PInt (if neg then (- n)%Z else n), r3)
        | _, _ =>
            Some (PFloat ((if neg then [45] else []) ++ ipart ++ frac ++ exp), r3)
        end
      else None
  end.

(** The constants the scanner tries when nothing else matched. *)
Definition match_constant (s : str) : option (pyval * str) :=
  match strip_prefix (lit "NaN") s with
  | Some r => Some (PFloat (lit "NaN"), r)
  | None =>
      match strip_prefix (lit "Infinity") s with
      | Some r => Some (PFloat (lit "Infinity"), r)
      | None =>
          match strip_prefix (lit "-Infinity") s with
          | Some r => Some (PFloat (lit "-Infinity"), r)
          | None => None
          end
      end
  end.

(** [scan_once], [JSONObject] and [JSONArray].  [fuel] bounds the number
    of nested calls; every call reads at least one character, so the
    length of the text is enough.  [members] is entered after the quote
    that opens a key, [elements] at the first character of a value. *)
Fixpoint scan_once (fuel : nat) (s : str) : result (pyval * str) :=
  match fuel with
  | O => Raise JSONDecodeError
  | S fuel' =>
      match s with
      | [] => Raise JSONDecodeError
      | c :: s1 =>
          if c =? 34 then
            bind (scanstring s1) (fun vr => Ok (PStr (fst vr), snd vr))
          else if c =? 123 then
            match skip_ws s1 with
            | c2 :: s2 =>
                if c2 =? 125 then Ok (PDict [], s2)
                else if c2 =? 34 then members fuel' [] s2
                else Raise JSONDecodeError
            | [] => Raise JSONDecodeError
            end
          else if c =? 91 then
            match skip_ws s1 with
            | c2 :: s2 =>
                if c2 =? 93 then Ok (PList [], s2)
                else elements fuel' [] (c2 :: s2)
            | [] => Raise JSONDecodeError
            end
          else
            match strip_prefix (lit "null") s with
            | Some r => Ok (PNone, r)
            | None =>
            match strip_prefix (lit "true") s with
            | Some r => Ok (PBool true, r)
            | None =>
            match strip_prefix (lit "false") s with
            | Some r => Ok (PBool false, r)
            | None =>
            match match_number s with
            | Some x => Ok x
            | None =>
            match match_constant s with
            | Some x => Ok x
            | None => Raise JSONDecodeError
            end end end end end
      end
  end
with members (fuel : nat) (acc : dict) (s : str) : result (pyval * str) :=
  match fuel with
  | O => Raise JSONDecodeError
  | S fuel' =>
      bind (scanstring s) (fun kr =>
        match skip_ws (snd kr) with
        | c :: r1 =>
            if c =? 58 then
              bind (scan_once fuel' (skip_ws r1)) (fun vr =>
                let acc' := dict_set acc (fst kr) (fst vr) in
                match skip_ws (snd vr) with
                | d :: r3 =>
                    if d =? 125 then Ok (PDict acc', r3)
                    else if d =? 44 then
                      match skip_ws r3 with
                      | q :: r4 =>
                          if q =? 34 then members fuel' acc' r4
                          else Raise JSONDecodeError
                      | [] => Raise JSONDecodeError
                      end
                    else Raise JSONDecodeError
                | [] => Raise JSONDecodeError
                end)
            else Raise JSONDecodeError
        | [] => Raise JSONDecodeError
        end)
  end
with elements (fuel : nat) (acc : list pyval) (s : str) : result (pyval * str) :=
  match fuel with
  | O => Raise JSONDecodeError
  | S fuel' =>
      bind (scan_once fuel' s) (fun vr =>
        match skip_ws (snd vr) with
        | d :: r =>
            if d =? 93 then Ok (PList (rev (fst vr :: acc)), r)
            else if d =? 44 then elements fuel' (fst vr :: acc) (skip_ws r)
            else Raise JSONDecodeError
        | [] => Raise JSONDecodeError
        end)
  end.

(** [json.loads] of a [str]: one value, blanks around it, nothing else. *)
Definition loads (s : str) : result pyval :=
  match s with
  | 65279 :: _ => Raise JSONDecodeError
  | _ =>
      bind (scan_once (S (List.length s)) (skip_ws s)) (fun vr =>
        match skip_ws (snd vr) with
        | [] => Ok (fst vr)
        | _ :: _ => Raise JSONDecodeError
        end)
  end.

(** *** Strings survive the encoder and the decoder *)

(** Unicode scalar values: code points that are not surrogates. *)
Definition scalar (c : N) : bool :=
  (c <? 55296) || ((57343 <? c) && (c <? 1114112)).

Definition scalar_str (s : str) : bool := forallb scalar s.

Ltac divmod := Z.div_mod_to_equations.

Lemma hex_val_digit (n : N) : n < 16 -> hex_val (hex_digit n) = Some n.
Proof.
  intros H. unfold hex_digit, hex_val.
  destruct (n <? 10) eqn:E.
  - apply N.ltb_lt in E.
    replace ((48 <=? 48 + n) && (48 + n <=? 57)) with true.
    + f_equal; lia.
    + symmetry; apply andb_true_iff; split; apply N.leb_le; lia.
  - apply N.ltb_ge in E.
    replace ((48 <=? 87 + n) && (87 + n <=? 57)) with false.
    + replace ((97 <=? 87 + n) && (87 + n <=? 102)) with true.
      * f_equal; lia.
      * symmetry; apply andb_true_iff; split; apply N.leb_le; lia.
    + symmetry; apply andb_false_iff; right; apply N.leb_gt; lia.
Qed.

Lemma decode_hex4 (c : N) :
  c < 65536 ->
  decode_uXXXX (hex_digit (c / 4096 mod 16)) (hex_digit (c / 256 mod 16))
               (hex_digit (c / 16 mod 16)) (hex_digit (c mod 16)) = Some c.
Proof.
  intros H. unfold decode_uXXXX.
  rewrite !hex_val_digit by (apply N.mod_lt; discriminate).
  f_equal.
  change 4096 with (16 * 256); change 256 with (16 * 16).
  rewrite <- !N.Div0.div_div.
  pose proof (N.div_mod c 16). pose proof (N.div_mod (c / 16) 16).
  pose proof (N.div_mod (c / 16 / 16) 16).
  assert (c / 16 / 16 / 16 < 16) by (zify; divmod; lia).
  rewrite (N.mod_small (c / 16 / 16 / 16)) by assumption.
  lia.
Qed.

Lemma lor_disjoint (a b k : N) :
  b < 2 ^ k -> N.lor (N.shiftl a k) b = a * 2 ^ k + b.
Proof.
  intros Hb.
  rewrite <- N.shiftl_mul_pow2.
  rewrite N.add_nocarry_lxor, N.lxor_lor; try reflexivity;
    apply N.bits_inj; intros i; rewrite N.land_spec, N.bits_0;
    destruct (N.lt_ge_cases i k) as [Hi|Hi].
  1,3: now rewrite N.shiftl_spec_low.
  all: rewrite andb_comm;
    destruct (N.eq_dec b 0) as [->|Hn]; [now rewrite N.bits_0|];
    rewrite N.bits_above_log2; [reflexivity|];
    apply N.log2_lt_pow2 in Hb; lia.
Qed.

Lemma surrogate_high (n : N) :
  n < 1048576 ->
  N.lor 55296 (N.land (N.shiftr n 10) 1023) = 55296 + n / 1024.
Proof.
  intros H.
  change 1023 with (N.ones 10). rewrite N.land_ones, N.shiftr_div_pow2.
  change (2 ^ 10) with 1024.
  assert (Hq : n / 1024 < 1024) by (zify; divmod; lia).
  rewrite N.mod_small by exact Hq.
  change 55296 with (N.shiftl 54 10) at 1.
  rewrite lor_disjoint by exact Hq. reflexivity.
Qed.

Lemma surrogate_low (n : N) :
  N.lor 56320 (N.land n 1023) = 56320 + n mod 1024.
Proof.
  change 1023 with (N.ones 10). rewrite N.land_ones.
  change (2 ^ 10) with 1024.
  change 56320 with (N.shiftl 55 10) at 1.
  rewrite lor_disjoint by (apply N.mod_lt; discriminate). reflexivity.
Qed.

Lemma surrogate_join (n : N) :
  n < 1048576 ->
  65536 + N.lor (N.shiftl (55296 + n / 1024 - 55296) 10)
                (56320 + n mod 1024 - 56320) = 65536 + n.
Proof.
  intros H.
  rewrite (N.add_comm 55296), (N.add_comm 56320), !N.add_sub.
  rewrite lor_disjoint by (apply N.mod_lt; discriminate).
  change (2 ^ 10) with 1024.
  pose proof (N.div_mod n 1024). lia.
Qed.

Lemma scan_u (h1 h2 h3 h4 uni : N) (t : str) :
  decode_uXXXX h1 h2 h3 h4 = Some uni -> is_high uni = false ->
  scanstring (92 :: 117 :: h1 :: h2 :: h3 :: h4 :: t) = push uni (scanstring t).
Proof.
  intros Hd Hh.
  change (scanstring (92 :: 117 :: h1 :: h2 :: h3 :: h4 :: t)) with
    (match decode_uXXXX h1 h2 h3 h4 with
     | None => Raise JSONDecodeError
     | Some uni =>
         match t with
         | b :: u :: s3' =>
             if is_high uni && (b =? 92) && (u =? 117) then
               match s3' with
               | l1 :: l2 :: l3 :: l4 :: s4 =>
                   match decode_uXXXX l1 l2 l3 l4 with
                   | None => Raise JSONDecodeError
                   | Some uni2 =>
                       if is_low uni2 then
                         push (65536 + N.lor (N.shiftl (uni - 55296) 10) (uni2 - 56320))
                              (scanstring s4)
                       else push uni (scanstring t)
                   end
               | _ => Raise JSONDecodeError
               end
             else push uni (scanstring t)
         | _ => push uni (scanstring t)
         end
     end).
  rewrite Hd. destruct t as [|b [|u t']]; try reflexivity.
  now rewrite Hh.
Qed.

Lemma scan_pair (h1 h2 h3 h4 l1 l2 l3 l4 u1 u2 : N) (t : str) :
  decode_uXXXX h1 h2 h3 h4 = Some u1 -> decode_uXXXX l1 l2 l3 l4 = Some u2 ->
  is_high u1 = true -> is_low u2 = true ->
  scanstring (92 :: 117 :: h1 :: h2 :: h3 :: h4 ::
              92 :: 117 :: l1 :: l2 :: l3 :: l4 :: t)
  = push (65536 + N.lor (N.shiftl (u1 - 55296) 10) (u2 - 56320)) (scanstring t).
Proof.
  intros H1 H2 Hh Hl.
  change (scanstring (92 :: 117 :: h1 :: h2 :: h3 :: h4 ::
                      92 :: 117 :: l1 :: l2 :: l3 :: l4 :: t)) with
    (match decode_uXXXX h1 h2 h3 h4 with
     | None => Raise JSONDecodeError
     | Some uni =>
         if is_high uni && true && true then
           match decode_uXXXX l1 l2 l3 l4 with
           | None => Raise JSONDecodeError
           | Some uni2 =>
               if is_low uni2 then
                 push (65536 + N.lor (N.shiftl (uni - 55296) 10) (uni2 - 56320))
                      (scanstring t)
               else push uni (scanstring (92 :: 117 :: l1 :: l2 :: l3 :: l4 :: t))
           end
         else push uni (scanstring (92 :: 117 :: l1 :: l2 :: l3 :: l4 :: t))
     end).
  now rewrite H1, Hh, H2, Hl.
Qed.

(** One escaped character is read back as itself. *)
Lemma scan_escape_char (c : N) (t : str) :
  scalar c = true ->
  scanstring (escape_char c ++ t) = push c (scanstring t).
Proof.
  intros Hc. unfold escape_char.
  destruct (c =? 34) eqn:E1; [apply N.eqb_eq in E1; subst; reflexivity|].
  destruct (c =? 92) eqn:E2; [apply N.eqb_eq in E2; subst; reflexivity|].
  destruct (c =? 8) eqn:E3; [apply N.eqb_eq in E3; subst; reflexivity|].
  destruct (c =? 12) eqn:E4; [apply N.eqb_eq in E4; subst; reflexivity|].
  destruct (c =? 10) eqn:E5; [apply N.eqb_eq in E5; subst; reflexivity|].
  destruct (c =? 13) eqn:E6; [apply N.eqb_eq in E6; subst; reflexivity|].
  destruct (c =? 9) eqn:E7; [apply N.eqb_eq in E7; subst; reflexivity|].
  destruct ((32 <=? c) && (c <=? 126)) eqn:E8.
  - apply andb_true_iff in E8 as [Hlo _]. apply N.leb_le in Hlo.
    change (scanstring ([c] ++ t)) with
      (if c =? 34 then Ok ([], t)
       else if c =? 92 then
         match t with
         | [] => Raise JSONDecodeError
         | e :: s2 => scanstring (92 :: e :: s2)
         end
       else if c <? 32 then Raise JSONDecodeError
       else push c (scanstring t)).
    rewrite E1, E2. replace (c <? 32) with false; [reflexivity|].
    symmetry; apply N.ltb_ge; exact Hlo.
  - unfold scalar in Hc.
    destruct (c <? 65536) eqn:E9.
    + apply N.ltb_lt in E9. unfold hex4.
      apply scan_u; [now apply decode_hex4|].
      unfold is_high. apply orb_true_iff in Hc as [Hc|Hc].
      * apply N.ltb_lt in Hc. apply andb_false_iff; left; apply N.leb_gt; lia.
      * apply andb_true_iff in Hc as [Hc _]. apply N.ltb_lt in Hc.
        apply andb_false_iff; right; apply N.leb_gt; lia.
    + apply N.ltb_ge in E9.
      assert (Hn : c - 65536 < 1048576).
      { apply orb_true_iff in Hc as [Hc|Hc].
        - apply N.ltb_lt in Hc; lia.
        - apply andb_true_iff in Hc as [_ Hc]. apply N.ltb_lt in Hc; lia. }
      cbv zeta. rewrite surrogate_high by exact Hn. rewrite surrogate_low.
      set (n := c - 65536) in *.
      assert (Hq : n / 1024 < 1024) by (zify; divmod; lia).
      assert (Hr : n mod 1024 < 1024) by (apply N.mod_lt; discriminate).
      unfold hex4.
      cbn [app].
      rewrite (@scan_pair _ _ _ _ _ _ _ _ (55296 + n / 1024) (56320 + n mod 1024)).
      * rewrite surrogate_join by exact Hn. f_equal. subst n; lia.
      * apply decode_hex4. revert Hq; generalize (n / 1024); intros; lia.
      * apply decode_hex4. revert Hr; generalize (n mod 1024); intros; lia.
      * unfold is_high. revert Hq; generalize (n / 1024); intros q Hq.
        apply andb_true_iff; split; apply N.leb_le; lia.
      * unfold is_low. revert Hr; generalize (n mod 1024); intros r Hr.
        apply andb_true_iff; split; apply N.leb_le; lia.
Qed.

(** [scanstring] undoes [encode_basestring_ascii] on every string of
    scalar values, whatever follows the closing quote. *)
Lemma scanstring_escape (s rest : str) :
  scalar_str s = true ->
  scanstring (flat_map escape_char s ++ 34 :: rest) = Ok (s, rest).
Proof.
  induction s as [|c s IH]; intros Hs.
  - reflexivity.
  - apply andb_true_iff in Hs as [Hc Hs].
    cbn [flat_map]. rewrite <- app_assoc.
    rewrite scan_escape_char by exact Hc.
    now rewrite IH.
Qed.

(** *** Dictionaries of strings survive too *)

(** A dictionary whose values are all strings. *)
Definition sdict (d : list (str * str)) : dict :=
  map (fun kv => (fst kv, PStr (snd kv))) d.

Definition scalar_pair (kv : str * str) : bool :=
  scalar_str (fst kv) && scalar_str (snd kv).

Definition member_text (kv : str * str) : str :=
  34 :: flat_map escape_char (fst kv)
     ++ 34 :: 58 :: 32 :: 34 :: flat_map escape_char (snd kv) ++ [34].

Definition more_text (d : list (str * str)) : str :=
  flat_map (fun kv => 44 :: 32 :: member_text kv) d.

Definition update (acc : dict) (d : dict) : dict :=
  fold_left (fun a kv => dict_set a (fst kv) (snd kv)) d acc.

Lemma scan_once_string (fuel : nat) (s rest : str) :
  scalar_str s = true ->
  scan_once (S fuel) (34 :: flat_map escape_char s ++ 34 :: rest) = Ok (PStr s, rest).
Proof.
  intros Hs. cbn [scan_once N.eqb Pos.eqb].
  now rewrite scanstring_escape.
Qed.

Lemma members_eq (fuel : nat) (acc : dict) (s : str) :
  members (S fuel) acc s =
  bind (scanstring s) (fun kr =>
    match skip_ws (snd kr) with
    | c :: r1 =>
        if c =? 58 then
          bind (scan_once fuel (skip_ws r1)) (fun vr =>
            let acc' := dict_set acc (fst kr) (fst vr) in
            match skip_ws (snd vr) with
            | d :: r3 =>
                if d =? 125 then Ok (PDict acc', r3)
                else if d =? 44 then
                  match skip_ws r3 with
                  | q :: r4 =>
                      if q =? 34 then members fuel acc' r4
                      else Raise JSONDecodeError
                  | [] => Raise JSONDecodeError
                  end
                else Raise JSONDecodeError
            | [] => Raise JSONDecodeError
            end)
        else Raise JSONDecodeError
    | [] => Raise JSONDecodeError
    end).
Proof. reflexivity. Qed.

Lemma join_cons (sep x : str) (l : list str) :
  join sep (x :: l) = x ++ flat_map (fun y => sep ++ y) l.
Proof.
  revert x; induction l as [|y l IH]; intros x.
  - cbn. now rewrite app_nil_r.
  - change (join sep (x :: y :: l)) with (x ++ sep ++ join sep (y :: l)).
    rewrite IH. cbn [flat_map]. now rewrite <- !app_assoc.
Qed.

Lemma dumps_member (kv : str * str) :
  encode_basestring_ascii (fst kv) ++ lit ": " ++ dumps (PStr (snd kv))
  = member_text kv.
Proof.
  unfold member_text, encode_basestring_ascii. cbn [dumps].
  unfold encode_basestring_ascii.
  change (lit ": ") with [58; 32].
  cbn [app]. rewrite <- app_assoc. reflexivity.
Qed.

Lemma dumps_sdict (kv : str * str) (d : list (str * str)) :
  dumps (PDict (sdict (kv :: d))) = 123 :: member_text kv ++ more_text d ++ [125].
Proof.
  cbn [dumps]. f_equal. unfold sdict. rewrite map_map. cbn [map fst snd].
  rewrite join_cons, dumps_member, <- app_assoc. do 2 f_equal.
  unfold more_text. induction d as [|kv' d IH]; [reflexivity|].
  cbn [map flat_map]. rewrite IH, dumps_member. reflexivity.
Qed.

Lemma members_flat (d : list (str * str)) :
  forall (fuel : nat) (acc : dict) (kv : str * str) (rest : str),
    forallb scalar_pair (kv :: d) = true ->
    (List.length d < fuel)%nat ->
    members (S fuel) acc
      (flat_map escape_char (fst kv)
         ++ 34 :: 58 :: 32 :: 34 :: flat_map escape_char (snd kv)
         ++ 34 :: more_text d ++ 125 :: rest)
    = Ok (PDict (update acc (sdict (kv :: d))), rest).
Proof.
  induction d as [|kv' d IH]; intros fuel acc kv rest Hs Hf;
    cbn [forallb] in Hs; apply andb_true_iff in Hs as [Hkv Hs];
    apply andb_true_iff in Hkv as [Hk Hv];
    (destruct fuel as [|fuel]; [cbn in Hf; lia|]);
    rewrite members_eq, scanstring_escape by exact Hk;
    cbn [bind fst snd skip_ws is_ws N.eqb Pos.eqb orb];
    rewrite scan_once_string by exact Hv;
    cbn [bind fst snd].
  - reflexivity.
  - cbn [more_text flat_map member_text app skip_ws is_ws N.eqb Pos.eqb orb].
    rewrite <- !app_assoc. cbn [app].
    rewrite <- !app_assoc. cbn [app].
    rewrite IH; [reflexivity|exact Hs|cbn in Hf; lia].
Qed.

Lemma more_text_length (d : list (str * str)) :
  (List.length d <= List.length (more_text d))%nat.
Proof.
  induction d as [|kv d IH]; [apply le_n|].
  unfold more_text in *. cbn [flat_map List.length app].
  rewrite length_app. lia.
Qed.

(** A non-empty dictionary of strings is read back from its JSON text,
    key by key in the order written. *)
Lemma loads_dumps_sdict (kv : str * str) (d : list (str * str)) :
  forallb scalar_pair (kv :: d) = true ->
  loads (dumps (PDict (sdict (kv :: d)))) = Ok (PDict (update [] (sdict (kv :: d)))).
Proof.
  intros Hs. rewrite dumps_sdict. unfold loads.
  cbn [skip_ws is_ws N.eqb Pos.eqb orb].
  set (text := 123 :: member_text kv ++ more_text d ++ [125]).
  assert (Hlen : (List.length d + 2 <= List.length text)%nat).
  { subst text. cbn [List.length]. rewrite !length_app.
    pose proof (more_text_length d). cbn [List.length]. lia. }
  destruct (List.length text) as [|[|fuel]]; try lia.
  subst text. unfold member_text.
  cbn [scan_once N.eqb Pos.eqb app skip_ws is_ws orb].
  rewrite <- !app_assoc. cbn [app].
  rewrite <- !app_assoc. cbn [app].
  rewrite members_flat; [reflexivity|exact Hs|lia].
Qed.

End Json.

(* ================================================================== *)
(** ** [src/utils/logger.py] *)

Module Logger.
Import Py.
Local Open Scope string_scope.
Local Open Scope list_scope.

(** What [get_logger] can raise: [getattr] on a name the [logging]
    module does not have, [setLevel] on a level it does not take. *)
Inductive error := AttributeError | ValueError | TypeError.

Inductive outcome (A : Type) :=
| Returned (a : A)
| Raised (e : error).
Arguments Returned {A} a.
Arguments Raised {A} e.

(** An attribute of the [logging] module, as [setLevel] looks at it: an
    integer, a string, or something else. *)
Inductive attr :=
| AInt (n : Z)
| AStr (s : str)
| AOther.

Definition INFO : Z := 20.

(** A [StreamHandler] on [sys.stdout], with its level and the two
    strings of its formatter. *)
Record handler := mkHandler {
  h_level : Z;
  h_fmt : str;
  h_datefmt : str }.

(** A logger, as far as [get_logger] touches it. *)
Record logger := mkLogger {
  level : Z;
  handlers : list handler }.

Definition loc := nat.

(** The loggers there are: one object per name, kept by the [logging]
    module. *)
Definition store := loc -> logger.

Definition update (l : loc) (x : logger) (s : store) : store :=
  fun l' => if Nat.eqb l' l then x else s l'.

Section WithLogging.

(** [logging.getLogger]: the logger of a name, the same object each
    time; [getattr(logging, name)]; the level names [setLevel] knows;
    and [str.upper]. *)
Variable getLogger : str -> loc.
Variable attribute : str -> option attr.
Variable name_to_level : str -> option Z.
Variable upper : str -> str.

(** [Logger.setLevel] up to the assignment: the level it would set. *)
Definition _checkLevel (a : attr) : outcome Z :=
  match a with
  | AInt n => Returned n
  | AStr s =>
      match name_to_level s with
      | Some n => Returned n
      | None => Raised ValueError
      end
  | AOther => Raised TypeError
  end.

Definition console_handler : handler :=
  mkHandler INFO (lit "%(asctime)s - %(name)s - %(levelname)s - %(message)s")
            (lit "%Y-%m-%d %H:%M:%S").

Definition get_logger (name : str) (level_ : option str) (s : store)
  : outcome loc * store :=
  let logger := getLogger name in
  match handlers (s logger) with
  | _ :: _ => (Returned logger, s)
  | [] =>
      let checked :=
        match level_ with
        | Some (c :: l) =>
            match attribute (upper (c :: l)) with
            | Some a => _checkLevel a
            | None => Raised AttributeError
            end
        | _ => Returned INFO
        end in
      match checked with
      | Raised e => (Raised e, s)
      | Returned n =>
          (Returned logger,
           update logger
             (mkLogger n (handlers (s logger) ++ [console_handler])) s)
      end
  end.

(** X11. [get_logger] sets a logger up once.  A call that returns leaves
    the logger with a handler, and every other logger as it was; a
    logger that had handlers is left as it was, one that had none gets
    the console handler alone; and any later call for the name, whatever
    level it asks for, returns the same logger and changes nothing. *)
Theorem get_logger_once (name : str) (level_ : option str) (s s1 : store)
    (l : loc) :
  get_logger name level_ s = (Returned l, s1) ->
  l = getLogger name /\
  (forall l', l' <> l -> s1 l' = s l') /\
  (handlers (s l) <> [] -> s1 = s) /\
  (handlers (s l) = [] -> handlers (s1 l) = [console_handler]) /\
  forall level', get_logger name level' s1 = (Returned l, s1).
Proof.
  unfold get_logger.
  destruct (handlers (s (getLogger name))) as [|h hs] eqn:Hh.
  - match goal with
    | |- context [match ?c with Returned _ => _ | Raised _ => _ end] =>
        destruct c as [n|e]; [|discriminate]
    end.
    intros [= <- <-]. split; [reflexivity|]. split; [|split; [|split]].
    + intros l' Hl'. unfold update. apply Nat.eqb_neq in Hl'. now rewrite Hl'.
    + rewrite Hh. congruence.
    + intros _. unfold update. now rewrite Nat.eqb_refl.
    + intros level'. unfold update at 1. now rewrite Nat.eqb_refl.
  - intros [= <- <-]. split; [reflexivity|]. split; [reflexivity|].
    split; [reflexivity|]. split; [rewrite Hh; discriminate|].
    intros level'. now rewrite Hh.
Qed.

(** The store after [n] objects have been constructed on one name, each
    taking its logger with [get_logger(name)], without a level:
    [NATSTestHelper.__init__] does so with the name [nats_test_helper],
    [StructuredLogger.__init__] with its own. *)
Fixpoint constructed (n : nat) (name : str) (s : store) : store :=
  match n with
  | O => s
  | S n' => constructed n' name (snd (get_logger name None s))
  end.

(** Without a level [get_logger] does not raise. *)
Lemma get_logger_default (name : str) (s : store) :
  exists s', get_logger name None s = (Returned (getLogger name), s').
Proof.
  unfold get_logger. destruct (handlers (s (getLogger name))); eauto.
Qed.

(** X12. Objects that take their logger from [get_logger] without a
    level share it by name, and the logger is set up by the first of
    them only: however many are constructed, a logger that had no
    handler ends with the one console handler and level INFO, a logger
    that had handlers is left as it was, and no other logger is
    touched. *)
Theorem constructed_once (n : nat) (name : str) (s : store) :
  let l := getLogger name in
  let s' := constructed (S n) name s in
  (handlers (s l) = [] -> s' l = mkLogger INFO [console_handler]) /\
  (handlers (s l) <> [] -> s' l = s l) /\
  forall l', l' <> l -> s' l' = s l'.
Proof.
  cbv zeta.
  assert (Hkeep : forall m s0, handlers (s0 (getLogger name)) <> [] ->
            forall x, constructed m name s0 x = s0 x).
  { induction m as [|m IH]; intros s0 Hh x; [reflexivity|].
    cbn [constructed]. unfold get_logger.
    destruct (handlers (s0 (getLogger name))) eqn:E; [congruence|].
    cbn [snd]. apply IH. now rewrite E. }
  cbn [constructed]. unfold get_logger.
  destruct (handlers (s (getLogger name))) as [|h0 hs] eqn:E; cbn [snd app].
  - split; [|split; [congruence|]].
    + intros _. rewrite Hkeep.
      * unfold update. now rewrite Nat.eqb_refl.
      * unfold update. rewrite Nat.eqb_refl. discriminate.
    + intros l' Hl'. rewrite Hkeep.
      * unfold update. apply Nat.eqb_neq in Hl'. now rewrite Hl'.
      * unfold update. rewrite Nat.eqb_refl. discriminate.
  - split; [discriminate|]. split.
    + intros _. apply Hkeep. now rewrite E.
    + intros l' _. apply Hkeep. now rewrite E.
Qed.

End WithLogging.

(** *** [StructuredLogger] *)

Section Structured.

(** The keyword arguments are of any type; [format_] is what an
    f-string makes of one. *)
Variable V : Type.
Variable format_ : V -> str.

(** The method of the underlying logger a message is handed to. *)
Inductive method := Info | Error | Warning | Debug.

Definition extra_data (kwargs : list (str * V)) : str :=
  Json.join (lit " ")
    (map (fun kv => fst kv ++ lit "=" ++ format_ (snd kv)) kwargs).

(** The text the four methods build alike. *)
Definition text (message : str) (kwargs : list (str * V)) : str :=
  match extra_data kwargs with
  | [] => message
  | _ :: _ => message ++ lit " | " ++ extra_data kwargs
  end.

Definition info (message : str) (kwargs : list (str * V)) : method * str :=
  (Info, text message kwargs).

Definition error_ (message : str) (kwargs : list (str * V)) : method * str :=
  (Error, text message kwargs).

Definition warning (message : str) (kwargs : list (str * V)) : method * str :=
  (Warning, text message kwargs).

Definition debug (message : str) (kwargs : list (str * V)) : method * str :=
  (Debug, text message kwargs).

Lemma extra_data_cons (kv : str * V) (kwargs : list (str * V)) :
  exists rest, extra_data (kv :: kwargs) = fst kv ++ 61%N :: rest.
Proof.
  unfold extra_data. cbn [map].
  match goal with
  | |- context [Json.join _ (_ :: ?m)] => destruct m as [|x xs]
  end; cbn [Json.join].
  - exists (format_ (snd kv)). reflexivity.
  - exists (format_ (snd kv) ++ lit " " ++ Json.join (lit " ") (x :: xs)).
    now rewrite <- !app_assoc.
Qed.

(** X13. The text a [StructuredLogger] method hands on is the message
    alone exactly when there are no keyword arguments; with any, it is
    the message, [" | "] and the arguments as [key=value] joined by
    spaces: an argument always leaves at least its [=]. *)
Theorem text_suffix (message : str) (kwargs : list (str * V)) :
  (text message kwargs = message <-> kwargs = []) /\
  (kwargs <> [] -> text message kwargs = message ++ lit " | " ++ extra_data kwargs).
Proof.
  destruct kwargs as [|kv kwargs].
  - split; [split; reflexivity|congruence].
  - destruct (extra_data_cons kv kwargs) as [rest E].
    assert (Hne : extra_data (kv :: kwargs) <> []).
    { rewrite E. destruct (fst kv); discriminate. }
    unfold text. destruct (extra_data (kv :: kwargs)) as [|c r] eqn:Ed;
      [congruence|].
    split; [|reflexivity]. split; [|discriminate].
    intros H. apply (f_equal (@List.length N)) in H.
    rewrite !length_app in H. cbn in H. lia.
Qed.

End Structured.

(** A registry, a [logging] module and an [upper] to run examples with:
    a logger per length of name, the five level names, ASCII letters. *)
Definition by_length (name : str) : loc := List.length name.

Definition level_names (name : str) : option attr :=
  if str_eqb name (lit "DEBUG") then Some (AInt 10)
  else if str_eqb name (lit "INFO") then Some (AInt 20)
  else if str_eqb name (lit "WARNING") then Some (AInt 30)
  else if str_eqb name (lit "ERROR") then Some (AInt 40)
  else if str_eqb name (lit "CRITICAL") then Some (AInt 50)
  else None.

Definition ascii_upper (s : str) : str :=
  map (fun c => if (N.leb 97 c && N.leb c 122)%bool then N.sub c 32 else c) s.

Definition no_loggers : store := fun _ => mkLogger 0 [].

Lemma get_logger_once_witness :
  let name := lit "test_logger_debug" in
  let r := get_logger by_length level_names (fun _ => None) ascii_upper
             name (Some (lit "debug")) no_loggers in
  level (snd r (by_length name)) = 10%Z /\
  get_logger by_length level_names (fun _ => None) ascii_upper
    name (Some (lit "ERROR")) (snd r) = (Returned (by_length name), snd r).
Proof.
  cbv zeta. split; [vm_compute; reflexivity|].
  refine (proj2 (proj2 (proj2 (proj2
            (@get_logger_once by_length level_names (fun _ => None) ascii_upper
               (lit "test_logger_debug") (Some (lit "debug")) no_loggers _ _ _))))
            (Some (lit "ERROR"))).
  vm_compute. reflexivity.
Defined.

(** [test_structured_logger]: the keyword arguments are an integer and a
    string. *)
Example test_structured_logger :
  info (fun v : Z + str => match v with inl z => Json.int_repr z | inr s => s end)
       (lit "test message")
       [(lit "user_id", inl 123%Z); (lit "action", inr (lit "login"))]
  = (Info, lit "test message | user_id=123 action=login").
Proof. vm_compute. reflexivity. Qed.

End Logger.


(* ================================================================== *)
(** ** [datetime.isoformat] and [datetime.fromisoformat]

    Naive and aware timestamps, in the grammar [isoformat] writes and
    [fromisoformat] has read since it exists:
    [YYYY-MM-DD], then optionally one separator character and
    [HH[:MM[:SS[.fff[fff]]]]], then optionally a sign and the UTC offset
    [HH:MM[:SS[.ffffff]]]. *)

Module Datetime.
Import Py.
Local Open Scope N_scope.

Definition is_leap (y : N) : bool :=
  (y mod 4 =? 0) && (negb (y mod 100 =? 0) || (y mod 400 =? 0)).

Definition days_in_month (y m : N) : N :=
  if m =? 2 then (if is_leap y then 29 else 28)
  else if (m =? 4) || (m =? 6) || (m =? 9) || (m =? 11) then 30
  else 31.

(** A [timezone] takes an offset strictly between minus and plus one
    day. *)
Definition valid_offset (off : option Z) : bool :=
  match off with
  | None => true
  | Some o => (-86400000000 <? o)%Z && (o <? 86400000000)%Z
  end.

(** The range checks of the [datetime] constructor. *)
Definition valid_datetime (t : datetime) : bool :=
  (1 <=? year t) && (year t <=? 9999) &&
  (1 <=? month t) && (month t <=? 12) &&
  (1 <=? day t) && (day t <=? days_in_month (year t) (month t)) &&
  (hour t <? 24) && (minute t <? 60) && (second t <? 60) &&
  (microsecond t <? 1000000) && valid_offset (utcoffset t).

(** ["%0kd" % n] for [n] of at most [k] digits. *)
Fixpoint zfill (k : nat) (n : N) : str :=
  match k with
  | O => []
  | S k' => zfill k' (n / 10) ++ [48 + n mod 10]
  end.

(** [HH:MM:SS], and [.ffffff] when there are microseconds: the time of
    day, and the tail of an offset. *)
Definition clock_text (h mi s us : N) : str :=
  zfill 2 h ++ 58 :: zfill 2 mi ++ 58 :: zfill 2 s
  ++ (if us =? 0 then [] else 46 :: zfill 6 us).

(** [_format_offset]: sign, hours and minutes, then seconds and
    microseconds when there are any. *)
Definition offset_text (off : option Z) : str :=
  match off with
  | None => []
  | Some o =>
      let a := Z.to_N (Z.abs o) in
      let hh := a / 3600000000 in
      let mm := a mod 3600000000 / 60000000 in
      let rest := a mod 60000000 in
      (if (o <? 0)%Z then 45 else 43)
        :: (if rest =? 0 then zfill 2 hh ++ 58 :: zfill 2 mm
            else clock_text hh mm (rest / 1000000) (rest mod 1000000))
  end.

Definition isoformat (t : datetime) : str :=
  zfill 4 (year t) ++ 45 :: zfill 2 (month t) ++ 45 :: zfill 2 (day t)
  ++ 84 :: clock_text (hour t) (minute t) (second t) (microsecond t)
  ++ offset_text (utcoffset t).

(** [int(text)] on a run of decimal digits. *)
Definition num (ds : str) : option N :=
  if forallb is_digit ds then Some (digits_value ds) else None.

Definition make (y mo d h mi s us : N) (off : option Z) : result datetime :=
  let t := mkDatetime y mo d h mi s us off in
  if valid_datetime t then Ok t else Raise ValueError.

(** The fraction after the seconds: nothing, or a dot and three or six
    digits. *)
Definition parse_fraction (r : str) : option N :=
  match r with
  | [] => Some 0
  | c :: f =>
      if c =? 46 then
        match f with
        | [_; _; _] => option_map (fun n => n * 1000) (num f)
        | [_; _; _; _; _; _] => num f
        | _ => None
        end
      else None
  end.

(** [_parse_hh_mm_ss_ff]. *)
Definition parse_hh_mm_ss_ff (tstr : str) : option (N * N * N * N) :=
  match tstr with
  | h1 :: h2 :: r =>
      match num [h1; h2], r with
      | None, _ => None
      | Some h, [] => Some (h, 0, 0, 0)
      | Some h, c :: m1 :: m2 :: r2 =>
          if c =? 58 then
            match num [m1; m2], r2 with
            | None, _ => None
            | Some mi, [] => Some (h, mi, 0, 0)
            | Some mi, c2 :: s1 :: s2 :: r3 =>
                if c2 =? 58 then
                  match num [s1; s2], parse_fraction r3 with
                  | Some s, Some us => Some (h, mi, s, us)
                  | _, _ => None
                  end
                else None
            | Some _, _ => None
            end
          else None
      | Some _, _ => None
      end
  | _ => None
  end.

(** [s.find(c)]. *)
Fixpoint find_char (c : N) (s : str) : option nat :=
  match s with
  | [] => None
  | x :: s' => if x =? c then Some O else option_map S (find_char c s')
  end.

(** Where the offset starts: at the first [-], or else at the first
    [+]. *)
Definition tz_pos (tstr : str) : option nat :=
  match find_char 45 tstr with
  | Some i => Some i
  | None => find_char 43 tstr
  end.

(** The offset after its sign: [HH:MM], [HH:MM:SS] or
    [HH:MM:SS.ffffff]; all zeros is UTC. *)
Definition parse_offset (negative : bool) (tzstr : str) : option Z :=
  let n := List.length tzstr in
  if Nat.eqb n 5 || Nat.eqb n 8 || Nat.eqb n 15 then
    match parse_hh_mm_ss_ff tzstr with
    | Some (h, mi, s, us) =>
        let a := Z.of_N (((h * 60 + mi) * 60 + s) * 1000000 + us) in
        Some (if negative then (- a)%Z else a)
    | None => None
    end
  else None.

(** [_parse_isoformat_time]. *)
Definition parse_isoformat_time (tstr : str)
  : option (N * N * N * N * option Z) :=
  match tz_pos tstr with
  | None => option_map (fun c => (c, None)) (parse_hh_mm_ss_ff tstr)
  | Some i =>
      match parse_hh_mm_ss_ff (firstn i tstr),
            parse_offset (match nth_error tstr i with
                          | Some c => c =? 45
                          | None => false
                          end) (skipn (S i) tstr) with
      | Some c, Some off => Some (c, Some off)
      | _, _ => None
      end
  end.

Definition fromisoformat (date_string : str) : result datetime :=
  match date_string with
  | y1 :: y2 :: y3 :: y4 :: c1 :: m1 :: m2 :: c2 :: d1 :: d2 :: rest =>
      if (c1 =? 45) && (c2 =? 45) then
        match num [y1; y2; y3; y4], num [m1; m2], num [d1; d2] with
        | Some y, Some mo, Some d =>
            match rest with
            | [] | [_] => make y mo d 0 0 0 0 None
            | _ :: tstr =>
                match parse_isoformat_time tstr with
                | Some (h, mi, s, us, off) => make y mo d h mi s us off
                | None => Raise ValueError
                end
            end
        | _, _, _ => Raise ValueError
        end
      else Raise ValueError
  | _ => Raise ValueError
  end.

Lemma is_digit_zfill (k : nat) (n : N) : forallb is_digit (zfill k n) = true.
Proof.
  revert n; induction k as [|k IH]; intros n; cbn [zfill]; [reflexivity|].
  rewrite forallb_app, IH. cbn [forallb andb].
  assert (H : n mod 10 < 10) by (apply N.mod_lt; discriminate).
  revert H; generalize (n mod 10); intros r H. rewrite andb_true_r.
  unfold is_digit. apply andb_true_iff; split; apply N.leb_le; lia.
Qed.

Lemma digits_value_zfill (k : nat) (n : N) :
  n < 10 ^ N.of_nat k -> digits_value (zfill k n) = n.
Proof.
  unfold digits_value.
  revert n; induction k as [|k IH]; intros n Hn.
  - simpl in *. lia.
  - cbn [zfill]. rewrite fold_left_app. cbn [fold_left].
    rewrite IH.
    + pose proof (N.div_mod n 10) as H.
      revert H; generalize (n / 10) (n mod 10); intros q r H. lia.
    + rewrite Nat2N.inj_succ, N.pow_succ_r' in Hn.
      apply N.Div0.div_lt_upper_bound. lia.
Qed.

Lemma num_zfill (k : nat) (n : N) :
  n < 10 ^ N.of_nat k -> num (zfill k n) = Some n.
Proof.
  intros Hn. unfold num.
  now rewrite is_digit_zfill, digits_value_zfill.
Qed.

Lemma zfill_length (k : nat) (n : N) : List.length (zfill k n) = k.
Proof.
  revert n; induction k as [|k IH]; intros n; [reflexivity|].
  cbn [zfill]. rewrite length_app, IH. cbn. lia.
Qed.

(** Digits, colons and dots: what a time of day is written with. *)
Definition clock_char (c : N) : bool :=
  is_digit c || (c =? 58) || (c =? 46).

Lemma clock_char_zfill (k : nat) (n : N) : forallb clock_char (zfill k n) = true.
Proof.
  pose proof (is_digit_zfill k n) as H.
  rewrite forallb_forall in *. intros x Hx. unfold clock_char.
  now rewrite (H x Hx).
Qed.

Lemma clock_char_clock_text (h mi s us : N) :
  forallb clock_char (clock_text h mi s us) = true.
Proof.
  unfold clock_text.
  repeat (rewrite forallb_app || cbn [forallb]).
  rewrite !clock_char_zfill. destruct (us =? 0); cbn [forallb]; [reflexivity|].
  now rewrite clock_char_zfill.
Qed.

Lemma clock_char_scalar (s : str) :
  forallb clock_char s = true -> Json.scalar_str s = true.
Proof.
  unfold Json.scalar_str. rewrite !forallb_forall. intros H x Hx.
  specialize (H x Hx). unfold clock_char, is_digit in H.
  unfold Json.scalar. apply orb_true_iff; left. apply N.ltb_lt.
  apply orb_true_iff in H as [H|H]; [apply orb_true_iff in H as [H|H]|].
  - apply andb_true_iff in H as [_ H]. apply N.leb_le in H. lia.
  - apply N.eqb_eq in H. lia.
  - apply N.eqb_eq in H. lia.
Qed.

Lemma find_char_none (c : N) (s : str) :
  clock_char c = false -> forallb clock_char s = true -> find_char c s = None.
Proof.
  intros Hc. induction s as [|x s IH]; [reflexivity|].
  cbn [forallb find_char]. intros H. apply andb_true_iff in H as [Hx Hs].
  destruct (x =? c) eqn:E.
  - apply N.eqb_eq in E. congruence.
  - now rewrite IH.
Qed.

Lemma find_char_app (c : N) (s rest : str) :
  clock_char c = false -> forallb clock_char s = true ->
  find_char c (s ++ c :: rest) = Some (List.length s).
Proof.
  intros Hc. induction s as [|x s IH].
  - intros _. cbn [app find_char]. now rewrite N.eqb_refl.
  - cbn [forallb app find_char]. intros H. apply andb_true_iff in H as [Hx Hs].
    destruct (x =? c) eqn:E.
    + apply N.eqb_eq in E. congruence.
    + now rewrite IH.
Qed.

Lemma num2 (n : N) : n < 100 -> num [48 + n / 10 mod 10; 48 + n mod 10] = Some n.
Proof. exact (@num_zfill 2 n). Qed.

Lemma num4 (n : N) :
  n < 10000 ->
  num [48 + n / 10 / 10 / 10 mod 10; 48 + n / 10 / 10 mod 10;
       48 + n / 10 mod 10; 48 + n mod 10] = Some n.
Proof. exact (@num_zfill 4 n). Qed.

Lemma num6 (n : N) :
  n < 1000000 ->
  num [48 + n / 10 / 10 / 10 / 10 / 10 mod 10; 48 + n / 10 / 10 / 10 / 10 mod 10;
       48 + n / 10 / 10 / 10 mod 10; 48 + n / 10 / 10 mod 10;
       48 + n / 10 mod 10; 48 + n mod 10] = Some n.
Proof. exact (@num_zfill 6 n). Qed.

Lemma parse_clock_text (h mi s us : N) :
  h < 100 -> mi < 100 -> s < 100 -> us < 1000000 ->
  parse_hh_mm_ss_ff (clock_text h mi s us) = Some (h, mi, s, us).
Proof.
  intros Hh Hm Hs Hus. unfold clock_text. cbn [zfill app].
  unfold parse_hh_mm_ss_ff. rewrite !num2 by assumption.
  cbn [N.eqb Pos.eqb].
  destruct (us =? 0) eqn:E.
  - apply N.eqb_eq in E. subst us. reflexivity.
  - cbn [app parse_fraction N.eqb Pos.eqb]. now rewrite num6.
Qed.

Lemma parse_hh_mm (h mi : N) :
  h < 100 -> mi < 100 ->
  parse_hh_mm_ss_ff (zfill 2 h ++ 58 :: zfill 2 mi) = Some (h, mi, 0, 0).
Proof.
  intros Hh Hm. cbn [zfill app].
  unfold parse_hh_mm_ss_ff. now rewrite !num2 by assumption.
Qed.

Lemma clock_text_length (h mi s us : N) :
  List.length (clock_text h mi s us) = if us =? 0 then 8%nat else 15%nat.
Proof. unfold clock_text. cbn [zfill app]. now destruct (us =? 0). Qed.

Lemma find_minus_before_plus (s rest : str) :
  forallb clock_char s = true -> forallb clock_char rest = true ->
  find_char 45 (s ++ 43 :: rest) = None.
Proof.
  intros Hs Hr. induction s as [|x s IH].
  - cbn [app find_char N.eqb Pos.eqb]. now rewrite find_char_none.
  - cbn [forallb] in Hs. apply andb_true_iff in Hs as [Hx Hs].
    cbn [app find_char]. destruct (x =? 45) eqn:E.
    + apply N.eqb_eq in E. subst x. discriminate.
    + now rewrite IH.
Qed.

Lemma firstn_length_app (A : Type) (l r : list A) :
  firstn (List.length l) (l ++ r) = l.
Proof. induction l as [|x l IH]; [reflexivity|]. cbn. now rewrite IH. Qed.

Lemma nth_error_length_app (A : Type) (l r : list A) (x : A) :
  nth_error (l ++ x :: r) (List.length l) = Some x.
Proof. induction l as [|y l IH]; [reflexivity|]. exact IH. Qed.

Lemma skipn_length_app (A : Type) (l r : list A) (x : A) :
  skipn (S (List.length l)) (l ++ x :: r) = r.
Proof. induction l as [|y l IH]; [reflexivity|]. exact IH. Qed.

(** The offset is read back from its text. *)
Lemma parse_offset_text (o : Z) :
  (-86400000000 < o < 86400000000)%Z ->
  exists rest,
    offset_text (Some o) = (if (o <? 0)%Z then 45 else 43) :: rest /\
    forallb clock_char rest = true /\
    parse_offset (o <? 0)%Z rest = Some o.
Proof.
  intros Ho. unfold offset_text.
  set (a := Z.to_N (Z.abs o)).
  assert (Ha : a < 86400000000) by (subst a; lia).
  assert (Hhh : a / 3600000000 < 24)
    by (apply N.Div0.div_lt_upper_bound; exact Ha).
  assert (Hmm : a mod 3600000000 / 60000000 < 60).
  { apply N.Div0.div_lt_upper_bound.
    change (60000000 * 60) with 3600000000. apply N.mod_lt. discriminate. }
  assert (Hrest : a mod 60000000 < 60000000) by (apply N.mod_lt; discriminate).
  assert (Hsum : ((a / 3600000000 * 60 + a mod 3600000000 / 60000000) * 60)
                 * 1000000 + a mod 60000000 = a).
  { pose proof (N.div_mod a 3600000000) as H1.
    pose proof (N.div_mod (a mod 3600000000) 60000000) as H2.
    assert (H3 : (a mod 3600000000) mod 60000000 = a mod 60000000).
    { change 3600000000 with (60000000 * 60).
      rewrite N.Div0.mod_mul_r. rewrite N.mul_comm, N.Div0.mod_add.
      apply N.Div0.mod_mod. }
    rewrite H3 in H2.
    revert H1 H2.
    generalize (a / 3600000000) (a mod 3600000000)
               (a mod 3600000000 / 60000000) (a mod 60000000).
    intros q r q' r' H1 H2. lia. }
  set (hh := a / 3600000000) in *. set (mm := a mod 3600000000 / 60000000) in *.
  set (rest := a mod 60000000) in *.
  assert (Hsign : (if (o <? 0)%Z then (- Z.of_N a)%Z else Z.of_N a) = o).
  { subst a. destruct (o <? 0)%Z eqn:E.
    - apply Z.ltb_lt in E. lia.
    - apply Z.ltb_ge in E. lia. }
  eexists. split; [reflexivity|].
  unfold parse_offset.
  destruct (rest =? 0) eqn:E.
  - apply N.eqb_eq in E. split.
    + rewrite forallb_app. cbn [forallb]. now rewrite !clock_char_zfill.
    + rewrite length_app. cbn [List.length]. rewrite !zfill_length.
      cbn [Nat.add Nat.eqb orb].
      rewrite parse_hh_mm by lia.
      replace (((hh * 60 + mm) * 60 + 0) * 1000000 + 0) with a by lia.
      now rewrite Hsign.
  - split; [apply clock_char_clock_text|].
    assert (Hss : rest / 1000000 < 60)
      by (apply N.Div0.div_lt_upper_bound; exact Hrest).
    assert (Hus : rest mod 1000000 < 1000000) by (apply N.mod_lt; discriminate).
    rewrite clock_text_length.
    rewrite parse_clock_text by lia.
    assert (Hr : rest / 1000000 * 1000000 + rest mod 1000000 = rest).
    { pose proof (N.div_mod rest 1000000). lia. }
    replace (((hh * 60 + mm) * 60 + rest / 1000000) * 1000000 + rest mod 1000000)
      with a.
    + rewrite Hsign. now destruct (rest mod 1000000 =? 0).
    + revert Hr. generalize (rest / 1000000) (rest mod 1000000). intros q r Hr.
      lia.
Qed.

Lemma parse_isoformat_time_text (h mi s us : N) (off : option Z) :
  h < 100 -> mi < 100 -> s < 100 -> us < 1000000 -> valid_offset off = true ->
  parse_isoformat_time (clock_text h mi s us ++ offset_text off)
  = Some (h, mi, s, us, off).
Proof.
  intros Hh Hm Hs Hus Hoff.
  pose proof (clock_char_clock_text h mi s us) as Hclock.
  pose proof (parse_clock_text Hh Hm Hs Hus) as Hparse.
  unfold parse_isoformat_time, tz_pos.
  destruct off as [o|].
  - cbn [valid_offset] in Hoff. apply andb_true_iff in Hoff as [H1 H2].
    apply Z.ltb_lt in H1, H2.
    destruct (@parse_offset_text o (conj H1 H2)) as (rest & -> & Hr & Hp).
    assert (Hpos : match find_char 45 (clock_text h mi s us
                           ++ (if (o <? 0)%Z then 45 else 43) :: rest) with
                   | Some i => Some i
                   | None => find_char 43 (clock_text h mi s us
                           ++ (if (o <? 0)%Z then 45 else 43) :: rest)
                   end = Some (List.length (clock_text h mi s us))).
    { destruct (o <? 0)%Z.
      - now rewrite find_char_app.
      - rewrite find_minus_before_plus by assumption. now rewrite find_char_app. }
    rewrite Hpos, firstn_length_app, nth_error_length_app, skipn_length_app, Hparse.
    replace ((if (o <? 0)%Z then 45 else 43) =? 45) with (o <? 0)%Z
      by now destruct (o <? 0)%Z.
    now rewrite Hp.
  - cbn [offset_text]. rewrite app_nil_r.
    rewrite (@find_char_none 45) by (reflexivity || exact Hclock).
    rewrite (@find_char_none 43) by (reflexivity || exact Hclock).
    now rewrite Hparse.
Qed.

Lemma clock_char_offset_text (o : Z) :
  exists sign rest,
    offset_text (Some o) = sign :: rest /\ sign < 128 /\
    forallb clock_char rest = true.
Proof.
  unfold offset_text. do 2 eexists. split; [reflexivity|]. split.
  - destruct (o <? 0)%Z; reflexivity.
  - match goal with |- context [if ?b then _ else _] => destruct b end.
    + rewrite forallb_app. cbn [forallb]. now rewrite !clock_char_zfill.
    + apply clock_char_clock_text.
Qed.

Lemma isoformat_scalar (t : datetime) : Json.scalar_str (isoformat t) = true.
Proof.
  unfold isoformat, Json.scalar_str.
  repeat (rewrite forallb_app || cbn [forallb]).
  fold (Json.scalar_str (zfill 4 (year t))).
  fold (Json.scalar_str (zfill 2 (month t))).
  fold (Json.scalar_str (zfill 2 (day t))).
  fold (Json.scalar_str (clock_text (hour t) (minute t) (second t) (microsecond t))).
  fold (Json.scalar_str (offset_text (utcoffset t))).
  rewrite !(@clock_char_scalar _ (clock_char_zfill _ _)).
  rewrite (@clock_char_scalar _ (clock_char_clock_text _ _ _ _)).
  cbn [andb]. destruct (utcoffset t) as [o|]; [|reflexivity].
  destruct (clock_char_offset_text o) as (sign & rest & -> & Hsign & Hrest).
  unfold Json.scalar_str. cbn [forallb].
  fold (Json.scalar_str rest). rewrite (@clock_char_scalar _ Hrest).
  rewrite andb_true_r. unfold Json.scalar.
  apply orb_true_iff; left. apply N.ltb_lt. lia.
Qed.

(** [fromisoformat] reads back what [isoformat] wrote, microseconds and
    UTC offset included. *)
Lemma fromisoformat_isoformat (t : datetime) :
  valid_datetime t = true -> fromisoformat (isoformat t) = Ok t.
Proof.
  intros Hv. pose proof Hv as Hv'. unfold valid_datetime in Hv'.
  destruct t as [y mo d h mi s us off].
  cbn [year month day hour minute second microsecond utcoffset] in *.
  repeat (apply andb_true_iff in Hv' as [Hv' ?]).
  repeat match goal with
         | H : (_ <=? _) = true |- _ => apply N.leb_le in H
         | H : (_ <? _) = true |- _ => apply N.ltb_lt in H
         end.
  assert (Hd : d < 100).
  { assert (days_in_month y mo <= 31); [|lia].
    unfold days_in_month.
    repeat match goal with |- context [if ?b then _ else _] => destruct b end; lia. }
  assert (Htime : parse_isoformat_time (clock_text h mi s us ++ offset_text off)
                  = Some (h, mi, s, us, off))
    by (apply parse_isoformat_time_text; (lia || assumption)).
  assert (Hlen : exists c1 c2 r, clock_text h mi s us ++ offset_text off = c1 :: c2 :: r).
  { unfold clock_text. cbn [zfill app]. eauto. }
  destruct Hlen as (c1 & c2 & r & Hlen).
  unfold isoformat. cbn [year month day hour minute second microsecond utcoffset].
  rewrite Hlen in *. cbn [zfill app].
  unfold fromisoformat.
  cbn [N.eqb Pos.eqb andb].
  rewrite num4, !num2 by lia.
  rewrite Htime. unfold make. now rewrite Hv.
Qed.

End Datetime.

(* ================================================================== *)
(** ** [TestMessage]: the envelope and its JSON codec *)

Module TestMessage.
Import Py.
Local Open Scope string_scope.
Local Open Scope list_scope.
Local Open Scope N_scope.

(** The four attributes.  [id], [type] and [payload] hold whatever the
    caller or [json.loads] put there. *)
Record t := mk {
  id : pyval;
  type : pyval;
  payload : pyval;
  timestamp : datetime }.

(** What the two ambient calls of the constructor give when it runs:
    the 128 bits of [uuid.uuid4()] and the reading of [datetime.now()]. *)
Record env := mkEnv { uuid4 : N; now : datetime }.

Fixpoint hexfill (k : nat) (n : N) : str :=
  match k with
  | O => []
  | S k' => hexfill k' (n / 16) ++ [Json.hex_digit (n mod 16)]
  end.

(** [str(uuid)]: 8-4-4-4-12 hexadecimal digits. *)
Definition uuid_str (u : N) : str :=
  hexfill 8 (u / 2 ^ 96) ++ 45 :: hexfill 4 (u / 2 ^ 80) ++ 45 :: hexfill 4 (u / 2 ^ 64)
  ++ 45 :: hexfill 4 (u / 2 ^ 48) ++ 45 :: hexfill 12 u.

(** [__init__]: [msg_id or str(uuid.uuid4())], [timestamp or
    datetime.now()]; a [datetime] is always true. *)
Definition __init__ (e : env) (msg_id msg_type payload : pyval)
    (timestamp : option datetime) : t :=
  {| id := if truthy msg_id then msg_id else PStr (uuid_str (uuid4 e));
     type := msg_type;
     payload := payload;
     timestamp := match timestamp with Some ts => ts | None => now e end |}.

Definition to_dict (self : t) : dict :=
  [ (lit "id", id self);
    (lit "type", type self);
    (lit "payload", payload self);
    (lit "timestamp", PStr (Datetime.isoformat (timestamp self))) ].

Definition to_json (self : t) : str := Json.dumps (PDict (to_dict self)).

(** [datetime.fromisoformat] wants a [str]. *)
Definition fromisoformat_arg (v : pyval) : result datetime :=
  match v with
  | PStr s => Datetime.fromisoformat s
  | _ => Raise TypeError
  end.

(** [from_json]: the keyword arguments are evaluated left to right, then
    the constructor runs. *)
Definition from_json (e : env) (json_str : str) : result t :=
  bind (Json.loads json_str) (fun data =>
  bind (getitem data (lit "id")) (fun msg_id =>
  bind (getitem data (lit "type")) (fun msg_type =>
  bind (getitem data (lit "payload")) (fun payload =>
  bind (getitem data (lit "timestamp")) (fun ts =>
  bind (fromisoformat_arg ts) (fun timestamp =>
  Ok (__init__ e msg_id msg_type payload (Some timestamp)))))))).

(** A valid envelope: [id], [type] and [payload] are strings of Unicode
    scalar values, [id] is not empty (the constructor never leaves it
    so), and [timestamp] is a [datetime], naive or aware, within the
    constructor's ranges. *)
Definition valid (m : t) : bool :=
  match id m, type m, payload m with
  | PStr i, PStr ty, PStr p =>
      negb (str_eqb i []) && Json.scalar_str i && Json.scalar_str ty
      && Json.scalar_str p && Datetime.valid_datetime (timestamp m)
  | _, _, _ => false
  end.

Definition required : list str :=
  [lit "id"; lit "type"; lit "payload"; lit "timestamp"].

Definition is_str (v : pyval) : bool :=
  match v with PStr _ => true | _ => false end.

(** A decoded JSON value that is not an envelope: not an object, or an
    object that lacks a required field or holds a non-string in one. *)
Definition malformed (data : pyval) : bool :=
  match data with
  | PDict d =>
      negb (forallb (fun k => match dict_get d k with
                              | Some v => is_str v
                              | None => false
                              end) required)
  | _ => true
  end.

Lemma update_fields (i ty p s : pyval) :
  Json.update [] [ (lit "id", i); (lit "type", ty); (lit "payload", p);
                   (lit "timestamp", s) ]
  = [ (lit "id", i); (lit "type", ty); (lit "payload", p); (lit "timestamp", s) ].
Proof. reflexivity. Qed.

Lemma getitem_fields (i ty p s : pyval) :
  let d := PDict [ (lit "id", i); (lit "type", ty); (lit "payload", p);
                   (lit "timestamp", s) ] in
  getitem d (lit "id") = Ok i /\ getitem d (lit "type") = Ok ty /\
  getitem d (lit "payload") = Ok p /\ getitem d (lit "timestamp") = Ok s.
Proof. repeat split; reflexivity. Qed.

(** The constructor leaves a non-empty [id], whatever it is given. *)
Lemma init_id_truthy (e : env) (msg_id msg_type payload : pyval)
    (ts : option datetime) :
  truthy (id (__init__ e msg_id msg_type payload ts)) = true.
Proof.
  cbn [__init__ id]. destruct (truthy msg_id) eqn:E; [exact E|].
  unfold uuid_str. cbn [truthy hexfill app].
  destruct (hexfill 7 (uuid4 e / 2 ^ 96 / 16)); reflexivity.
Qed.

(** The codec loses nothing of a valid envelope. *)
Lemma round_trip (e : env) (m : t) :
  valid m = true -> from_json e (to_json m) = Ok m.
Proof.
  destruct m as [i ty p ts]. unfold valid. cbn [id type payload timestamp].
  destruct i as [| | | |i| |]; try discriminate.
  destruct ty as [| | | |ty| |]; try discriminate.
  destruct p as [| | | |p| |]; try discriminate.
  intros Hv.
  repeat (apply andb_true_iff in Hv as [Hv ?]).
  unfold from_json, to_json, to_dict. cbn [id type payload timestamp].
  change (PDict _) with
    (PDict (Json.sdict [ (lit "id", i); (lit "type", ty); (lit "payload", p);
                         (lit "timestamp", Datetime.isoformat ts) ])).
  rewrite Json.loads_dumps_sdict.
  - cbn [Json.sdict map fst snd]. rewrite update_fields. cbn [bind].
    destruct (getitem_fields (PStr i) (PStr ty) (PStr p)
                (PStr (Datetime.isoformat ts))) as (-> & -> & -> & ->).
    cbn [bind fromisoformat_arg].
    rewrite Datetime.fromisoformat_isoformat by assumption.
    cbn [bind __init__ truthy].
    destruct i; [discriminate|reflexivity].
  - unfold Json.scalar_pair. cbn [forallb fst snd].
    rewrite Datetime.isoformat_scalar.
    repeat match goal with H : _ = true |- _ => rewrite H end.
    reflexivity.
Qed.


(** An envelope of the ordering test: a Chinese payload and a timestamp
    with microseconds. *)
Definition sample_env : env :=
  mkEnv 113059749145936325402354257176981405696 (mkDatetime 2024 3 9 14 5 7 250 None).

Definition sample : t :=
  __init__ sample_env (PStr (lit "order-000")) (PStr (lit "ordering_test"))
    (PStr [26377; 24207; 28040; 24687; 32; 48]) None.

Example sample_to_json :
  to_json sample
  = jlit "{'id': 'order-000', 'type': 'ordering_test', 'payload': '\u6709\u5e8f\u6d88\u606f 0', 'timestamp': '2024-03-09T14:05:07.000250'}".
Proof. vm_compute. reflexivity. Qed.

Example sample_uuid :
  id (__init__ sample_env PNone (PStr (lit "test")) (PStr []) None)
  = PStr (lit "550e8400-e29b-41d4-a716-446655440000").
Proof. vm_compute. reflexivity. Qed.


(** *** What [from_json] rejects and what it lets through *)

(** JSON text of an object with the four fields, none of [id], [type]
    and [payload] a string. *)
Definition wrong_shape_text : str :=
  jlit "{'id': 5, 'type': [], 'payload': null, 'timestamp': '2024-01-01T00:00:00'}".

(** [from_json] returns an envelope for an object whose [id], [type] and
    [payload] are not strings: the claim that such input is rejected
    fails here. *)
Lemma from_json_accepts_wrong_shape :
  (exists data, Json.loads wrong_shape_text = Ok data /\ malformed data = true) /\
  from_json sample_env wrong_shape_text
  = Ok (mk (PInt 5) (PList []) PNone (mkDatetime 2024 1 1 0 0 0 0 None)).
Proof.
  split.
  - eexists. split; vm_compute; reflexivity.
  - vm_compute. reflexivity.
Qed.

Lemma fromisoformat_raises (s : str) (x : exn) :
  Datetime.fromisoformat s = Raise x -> x = ValueError.
Proof.
  unfold Datetime.fromisoformat, Datetime.make.
  repeat match goal with
         | |- context [match ?l with [] => _ | _ :: _ => _ end] => destruct l
         | |- context [if ?b then _ else _] => destruct b
         | |- context [match ?o with Some _ => _ | None => _ end] => destruct o
         | |- context [let (_, _) := ?p in _] => destruct p
         end;
    intros [= <-] || discriminate; reflexivity.
Qed.

Lemma fromisoformat_arg_raises (v : pyval) (x : exn) :
  fromisoformat_arg v = Raise x ->
  (is_str v = false /\ x = TypeError) \/ (is_str v = true /\ x = ValueError).
Proof.
  destruct v; cbn; try (intros [= <-]; now left).
  intros H; right; split; [reflexivity|]. now apply fromisoformat_raises in H.
Qed.

(** C7, as the code has it.  [from_json] raises, and lets the exception
    reach its caller, when the text is not JSON (the decoder's error),
    when the decoded value is not an object ([TypeError]), when one of
    [id], [type], [payload], [timestamp] is absent ([KeyError]), when
    [timestamp] is not a string ([TypeError]) and when it is a string
    that [fromisoformat] refuses ([ValueError]).  It does not look at
    the shape of [id], [type] and [payload]: with the four fields there
    and a well-formed [timestamp] it returns the envelope the
    constructor builds from them. *)
Theorem from_json_rejects (e : env) (s : str) :
  (forall x, Json.loads s = Raise x -> from_json e s = Raise x) /\
  (forall data, Json.loads s = Ok data -> (forall d, data <> PDict d) ->
     from_json e s = Raise TypeError) /\
  (forall d k, Json.loads s = Ok (PDict d) -> In k required ->
     dict_get d k = None -> from_json e s = Raise KeyError) /\
  (forall d i ty p ts, Json.loads s = Ok (PDict d) ->
     dict_get d (lit "id") = Some i -> dict_get d (lit "type") = Some ty ->
     dict_get d (lit "payload") = Some p ->
     dict_get d (lit "timestamp") = Some ts ->
     (is_str ts = false -> from_json e s = Raise TypeError) /\
     (forall x, ts = PStr x -> Datetime.fromisoformat x = Raise ValueError ->
        from_json e s = Raise ValueError) /\
     (forall x dt, ts = PStr x -> Datetime.fromisoformat x = Ok dt ->
        from_json e s = Ok (__init__ e i ty p (Some dt)))).
Proof.
  unfold from_json. repeat split.
  - intros x ->. reflexivity.
  - intros data -> Hd. cbn [bind].
    destruct data; try reflexivity. now destruct (Hd d).
  - intros d k -> Hk Hnone. cbn [bind getitem].
    destruct Hk as [<-|[<-|[<-|[<-|[]]]]]; rewrite ?Hnone; cbn [bind];
      repeat match goal with
             | |- context [dict_get d ?key] =>
                 lazymatch goal with
                 | H : dict_get d key = _ |- _ => fail
                 | _ => destruct (dict_get d key) eqn:?; cbn [bind]
                 end
             end; try reflexivity; try congruence.
  - intros Hts. rewrite H. cbn [bind getitem]. rewrite H0, H1, H2, H3. cbn [bind].
    destruct ts; try reflexivity; discriminate.
  - intros x -> Hx. rewrite H. cbn [bind getitem]. rewrite H0, H1, H2, H3.
    cbn [bind fromisoformat_arg]. now rewrite Hx.
  - intros x dt -> Hx. rewrite H. cbn [bind getitem]. rewrite H0, H1, H2, H3.
    cbn [bind fromisoformat_arg]. now rewrite Hx.
Qed.

Lemma hexfill_length (k : nat) (n : N) : List.length (hexfill k n) = k.
Proof.
  revert n; induction k as [|k IH]; intros n; [reflexivity|].
  cbn [hexfill]. rewrite length_app, IH. cbn. lia.
Qed.

(** X14. The constructor never leaves a falsy [id]: an id that is true
    is kept as it is, and one that is not ([None], the empty string, 0,
    an empty list, ...) is replaced by the 36 characters of
    [str(uuid.uuid4())]. *)
Theorem init_id (e : env) (msg_id msg_type payload : pyval)
    (ts : option datetime) :
  let m := __init__ e msg_id msg_type payload ts in
  truthy (id m) = true /\
  (truthy msg_id = true -> id m = msg_id) /\
  (truthy msg_id = false ->
     id m = PStr (uuid_str (uuid4 e)) /\
     List.length (uuid_str (uuid4 e)) = 36%nat).
Proof.
  cbv zeta. cbn [__init__ id].
  assert (Hlen : List.length (uuid_str (uuid4 e)) = 36%nat).
  { unfold uuid_str.
    repeat (rewrite length_app || cbn [List.length]).
    rewrite !hexfill_length. reflexivity. }
  destruct (truthy msg_id) eqn:E.
  - split; [exact E|]. split; [reflexivity|discriminate].
  - split; [|split; [discriminate|intros _; split; [reflexivity|exact Hlen]]].
    cbn [truthy]. destruct (uuid_str (uuid4 e)); [discriminate Hlen|reflexivity].
Qed.

(** X15. Two valid envelopes with the same serialization are the same
    envelope: [to_json] loses nothing of the four fields. *)
Theorem to_json_injective (m1 m2 : t) :
  valid m1 = true -> valid m2 = true -> to_json m1 = to_json m2 -> m1 = m2.
Proof.
  intros H1 H2 E.
  pose proof (round_trip sample_env m1 H1) as R1.
  pose proof (round_trip sample_env m2 H2) as R2.
  rewrite E in R1. congruence.
Qed.

(** The sample, a millisecond later. *)
Definition sample_later : t :=
  mk (id sample) (type sample) (payload sample)
     (mkDatetime 2024 3 9 14 5 7 1250 None).

Lemma to_json_injective_witness : to_json sample <> to_json sample_later.
Proof.
  intros E.
  assert (H : sample = sample_later).
  { apply to_json_injective; [reflexivity|reflexivity|exact E]. }
  discriminate H.
Defined.

End TestMessage.

(* ================================================================== *)
(** ** [str.encode()] and [bytes.decode()]: UTF-8 *)

Module Utf8.
Import Py.
Local Open Scope N_scope.

Definition bytes := list N.

(** [UnicodeEncodeError] and [UnicodeDecodeError] are [ValueError]s. *)
Definition encode_char (c : N) : result bytes :=
  if c <? 128 then Ok [c]
  else if c <? 2048 then Ok [192 + c / 64; 128 + c mod 64]
  else if (55296 <=? c) && (c <=? 57343) then Raise ValueError
  else if c <? 65536 then
    Ok [224 + c / 4096; 128 + c / 64 mod 64; 128 + c mod 64]
  else if c <? 1114112 then
    Ok [240 + c / 262144; 128 + c / 4096 mod 64; 128 + c / 64 mod 64;
        128 + c mod 64]
  else Raise ValueError.

Fixpoint encode (s : str) : result bytes :=
  match s with
  | [] => Ok []
  | c :: s' =>
      bind (encode_char c) (fun b => bind (encode s') (fun bs => Ok (b ++ bs)))
  end.

Definition cont (b : N) : bool := (128 <=? b) && (b <=? 191).

Definition push (c : N) (r : result str) : result str :=
  bind r (fun s => Ok (c :: s)).

Fixpoint decode (b : bytes) : result str :=
  match b with
  | [] => Ok []
  | b0 :: r0 =>
      if b0 <? 128 then push b0 (decode r0)
      else if (194 <=? b0) && (b0 <=? 223) then
        match r0 with
        | b1 :: r1 =>
            if cont b1 then push ((b0 - 192) * 64 + (b1 - 128)) (decode r1)
            else Raise ValueError
        | _ => Raise ValueError
        end
      else if (224 <=? b0) && (b0 <=? 239) then
        match r0 with
        | b1 :: b2 :: r2 =>
            let lo := if b0 =? 224 then 160 else 128 in
            let hi := if b0 =? 237 then 159 else 191 in
            if (lo <=? b1) && (b1 <=? hi) && cont b2 then
              push (((b0 - 224) * 64 + (b1 - 128)) * 64 + (b2 - 128)) (decode r2)
            else Raise ValueError
        | _ => Raise ValueError
        end
      else if (240 <=? b0) && (b0 <=? 244) then
        match r0 with
        | b1 :: b2 :: b3 :: r3 =>
            let lo := if b0 =? 240 then 144 else 128 in
            let hi := if b0 =? 244 then 143 else 191 in
            if (lo <=? b1) && (b1 <=? hi) && cont b2 && cont b3 then
              push ((((b0 - 240) * 64 + (b1 - 128)) * 64 + (b2 - 128)) * 64
                    + (b3 - 128)) (decode r3)
            else Raise ValueError
        | _ => Raise ValueError
        end
      else Raise ValueError
  end.

Definition ascii (s : str) : bool := forallb (fun c => c <? 128) s.

Lemma encode_ascii (s : str) : ascii s = true -> encode s = Ok s.
Proof.
  induction s as [|c s IH]; [reflexivity|].
  intros H. apply andb_true_iff in H as [Hc Hs].
  cbn [encode]. unfold encode_char. rewrite Hc. cbn [bind].
  now rewrite IH.
Qed.

Lemma decode_ascii (b : bytes) : ascii b = true -> decode b = Ok b.
Proof.
  induction b as [|c b IH]; [reflexivity|].
  intros H. apply andb_true_iff in H as [Hc Hs].
  cbn [decode]. rewrite Hc. now rewrite IH.
Qed.

Lemma hex_digit_ascii (n : N) : n < 16 -> (Json.hex_digit n <? 128) = true.
Proof.
  intros H. unfold Json.hex_digit. apply N.ltb_lt.
  destruct (n <? 10); lia.
Qed.

Lemma hex4_ascii (n : N) : ascii (Json.hex4 n) = true.
Proof.
  unfold Json.hex4, ascii. cbn [forallb].
  rewrite !hex_digit_ascii by (apply N.mod_lt; discriminate). reflexivity.
Qed.

Lemma escape_char_ascii (c : N) : ascii (Json.escape_char c) = true.
Proof.
  unfold Json.escape_char.
  repeat match goal with
         | |- context [if ?b then _ else _] => destruct b eqn:?
         end; try reflexivity.
  - apply andb_true_iff in Heqb6 as [_ H]. apply N.leb_le in H.
    unfold ascii. cbn [forallb]. rewrite andb_true_r. apply N.ltb_lt. lia.
  - change (ascii (92 :: 117 :: Json.hex4 c) = true).
    unfold ascii. cbn [forallb]. fold (ascii (Json.hex4 c)).
    now rewrite hex4_ascii.
  - cbv zeta. unfold ascii. rewrite forallb_app. cbn [forallb].
    match goal with |- context [forallb _ (Json.hex4 ?a)] =>
      fold (ascii (Json.hex4 a)) end.
    rewrite hex4_ascii.
    match goal with |- context [forallb _ (Json.hex4 ?a)] =>
      fold (ascii (Json.hex4 a)) end.
    now rewrite hex4_ascii.
Qed.

Lemma escape_ascii (s : str) : ascii (flat_map Json.escape_char s) = true.
Proof.
  induction s as [|c s IH]; [reflexivity|].
  cbn [flat_map]. unfold ascii in *. rewrite forallb_app, IH.
  fold (ascii (Json.escape_char c)). now rewrite escape_char_ascii.
Qed.

Lemma member_text_ascii (kv : str * str) : ascii (Json.member_text kv) = true.
Proof.
  unfold Json.member_text, ascii.
  cbn [forallb]. rewrite forallb_app. cbn [forallb]. rewrite forallb_app.
  fold (ascii (flat_map Json.escape_char (fst kv))).
  fold (ascii (flat_map Json.escape_char (snd kv))).
  rewrite !escape_ascii. reflexivity.
Qed.

Lemma more_text_ascii (d : list (str * str)) : ascii (Json.more_text d) = true.
Proof.
  induction d as [|kv d IH]; [reflexivity|].
  unfold Json.more_text, ascii in *. cbn [flat_map]. rewrite forallb_app, IH.
  cbn [forallb]. fold (ascii (Json.member_text kv)).
  now rewrite member_text_ascii.
Qed.

(** The JSON text of a dictionary of strings is ASCII, so its UTF-8
    bytes are its characters. *)
Lemma dumps_sdict_ascii (kv : str * str) (d : list (str * str)) :
  ascii (Json.dumps (PDict (Json.sdict (kv :: d)))) = true.
Proof.
  rewrite Json.dumps_sdict. unfold ascii. cbn [forallb].
  rewrite !forallb_app.
  fold (ascii (Json.member_text kv)). fold (ascii (Json.more_text d)).
  now rewrite member_text_ascii, more_text_ascii.
Qed.

End Utf8.

(* ================================================================== *)
(** ** The envelope on the wire: [message.to_json().encode()] *)

Module Wire.
Import Py.
Local Open Scope string_scope.
Local Open Scope list_scope.

Lemma string_fields_ascii (i ty p : str) (ts : datetime) :
  Utf8.ascii (TestMessage.to_json
                (TestMessage.mk (PStr i) (PStr ty) (PStr p) ts)) = true.
Proof.
  unfold TestMessage.to_json, TestMessage.to_dict.
  cbn [TestMessage.id TestMessage.type TestMessage.payload TestMessage.timestamp].
  exact (Utf8.dumps_sdict_ascii (lit "id", i)
           [ (lit "type", ty); (lit "payload", p);
             (lit "timestamp", Datetime.isoformat ts) ]).
Qed.

(** X16. The serialization of an envelope whose [id], [type] and
    [payload] are strings is ASCII only, whatever the strings hold (lone
    surrogates included, which [json.dumps] escapes): [encode] does not
    raise on it and gives the text itself, a byte a character, and
    [decode] gives the text back. *)
Theorem to_json_encodes (i ty p : str) (ts : datetime) :
  let text := TestMessage.to_json (TestMessage.mk (PStr i) (PStr ty) (PStr p) ts) in
  Utf8.ascii text = true /\
  Utf8.encode text = Ok text /\
  Utf8.decode text = Ok text.
Proof.
  cbv zeta. pose proof (string_fields_ascii i ty p ts) as H.
  split; [exact H|].
  split; [now apply Utf8.encode_ascii|now apply Utf8.decode_ascii].
Qed.

End Wire.

(* ================================================================== *)
(** ** [NATSTestHelper]: publishing and the durable pull loop *)

Module Helper.
Import Py.

(** The JetStream client calls the helper makes, over a broker state
    [B]: each takes the broker as it is and gives it back after the call.
    Times are in milliseconds. *)
Class JetStream (B P M : Type) := {
  publish : str -> Utf8.bytes -> B -> result unit * B;
  pull_subscribe : str -> str -> str -> B -> result P * B;
  fetch : P -> nat -> Z -> B -> result (list M) * B;
  data : M -> Utf8.bytes;
  ack : M -> B -> result unit * B;
  sleep : Z -> B -> B }.

Inductive level := DEBUG | INFO | WARNING | ERROR.

(** The figures the benchmarks log. *)
Inductive metric := Throughput | TotalTime | AvgLatency | MaxLatency | MinLatency.

(** What a log line says (the text around it is fixed).  A measured
    figure is kept as the number handed to the formatter. *)
Inductive line :=
| LPublished (subject : str) (msg_id : pyval)
| LPublishFailed (e : exn)
| LReceived (msg_id : pyval)
| LFetchFailed (e : exn)
| LSubscribeFailed (e : exn)
| LMeasured (what : metric) (value : Q).

(** The calls made on the broker, oldest first: a record kept beside the
    program to state what it did. *)
Inductive call (P M : Type) :=
| CPublish (subject : str) (payload : Utf8.bytes) (ok : bool)
| CSubscribe (subject durable stream : str) (ok : bool)
| CFetch (r : result (list M))
| CAck (m : M) (ok : bool).
Arguments CPublish {P M}.
Arguments CSubscribe {P M}.
Arguments CFetch {P M}.
Arguments CAck {P M}.

Section WithBroker.

Context {B P M : Type} {JS : JetStream B P M}.

(** What [uuid.uuid4()] and [datetime.now()] give to the n-th run of the
    [TestMessage] constructor. *)
Variable ambient : nat -> TestMessage.env.

(** The helper and what it is connected to: [js] says whether [self.js]
    is set, [made] counts the envelopes constructed so far. *)
Record t := mk {
  js : bool;
  broker : B;
  made : nat;
  logs : list (level * line);
  calls : list (call P M) }.

Definition log (l : level) (what : line) (self : t) : t :=
  mk (js self) (broker self) (made self) (logs self ++ [(l, what)]) (calls self).

Definition called (c : call P M) (b : B) (self : t) : t :=
  mk (js self) b (made self) (logs self) (calls self ++ [c]).

Definition constructed (self : t) : t :=
  mk (js self) (broker self) (S (made self)) (logs self) (calls self).

Definition publish_message (subject : str) (message : TestMessage.t) (self : t)
  : result unit * t :=
  if negb (js self) then (Raise RuntimeError, self)
  else
    match Utf8.encode (TestMessage.to_json message) with
    | Raise e => (Raise e, log ERROR (LPublishFailed e) self)
    | Ok payload =>
        let (r, b) := publish subject payload (broker self) in
        let self := called (CPublish subject payload (is_ok r)) b self in
        match r with
        | Ok _ =>
            (Ok tt, log DEBUG (LPublished subject (TestMessage.id message)) self)
        | Raise e => (Raise e, log ERROR (LPublishFailed e) self)
        end
    end.

(** The body of the inner [try]: one [fetch(1, timeout=5.0)], then for a
    message decode, [from_json], [messages.append], [ack].  The list is
    given back in the failing case too: what was appended stays
    appended. *)
Definition fetch_round (psub : P) (messages : list TestMessage.t) (self : t)
  : result unit * list TestMessage.t * t :=
  let (r, b) := fetch psub 1 5000 (broker self) in
  let self := called (CFetch r) b self in
  match r with
  | Raise e => (Raise e, messages, self)
  | Ok [] => (Ok tt, messages, self)
  | Ok (m :: _) =>
      match bind (Utf8.decode (data m))
                 (TestMessage.from_json (ambient (made self))) with
      | Raise e => (Raise e, messages, self)
      | Ok test_msg =>
          let self := constructed self in
          let messages := messages ++ [test_msg] in
          let (a, b) := ack m (broker self) in
          let self := called (CAck m (is_ok a)) b self in
          match a with
          | Raise e => (Raise e, messages, self)
          | Ok _ =>
              (Ok tt, messages,
               log DEBUG (LReceived (TestMessage.id test_msg)) self)
          end
      end
  end.

(** [for _ in range(count)] around it, with the [except Exception] that
    logs a warning and breaks. *)
Fixpoint fetch_loop (psub : P) (count : nat) (messages : list TestMessage.t)
    (self : t) : list TestMessage.t * t :=
  match count with
  | O => (messages, self)
  | S count' =>
      match fetch_round psub messages self with
      | (Ok _, messages', self') => fetch_loop psub count' messages' self'
      | (Raise e, messages', self') =>
          (messages', log WARNING (LFetchFailed e) self')
      end
  end.

Definition subscribe_messages (subject stream consumer : str) (count : nat)
    (self : t) : result (list TestMessage.t) * t :=
  if negb (js self) then (Raise RuntimeError, self)
  else
    let (r, b) := pull_subscribe subject consumer stream (broker self) in
    let self := called (CSubscribe subject consumer stream (is_ok r)) b self in
    match r with
    | Raise e => (Raise e, log ERROR (LSubscribeFailed e) self)
    | Ok psub =>
        let (messages, self') := fetch_loop psub count [] self in
        (Ok messages, self')
    end.

(** *** What a run of the loop does, round by round *)

(** One turn of the loop, by its outcome: a message fetched,
    deserialized into [tm] and appended, its [ack] called ([acked] says
    whether the call returned or raised); an empty fetch; or a failure
    before anything was appended (the fetch raised, or the bytes did not
    deserialize). *)
Inductive round :=
| Delivered (wire : M) (rest : list M) (tm : TestMessage.t) (acked : bool)
| Nothing
| Failed (r : result (list M)).

Definition calls_of (r : round) : list (call P M) :=
  match r with
  | Delivered wire rest _ acked => [CFetch (Ok (wire :: rest)); CAck wire acked]
  | Nothing => [CFetch (Ok [])]
  | Failed r => [CFetch r]
  end.

Definition returned (r : round) : list TestMessage.t :=
  match r with
  | Delivered _ _ tm _ => [tm]
  | _ => []
  end.

(** The loop goes on after this round. *)
Definition goes_on (r : round) : bool :=
  match r with
  | Delivered _ _ _ acked => acked
  | Nothing => true
  | Failed _ => false
  end.

Fixpoint only_last_stops (rounds : list round) : bool :=
  match rounds with
  | [] => true
  | [_] => true
  | r :: rest => goes_on r && only_last_stops rest
  end.

(** The envelope of a delivered round is what the wire message
    deserializes to. *)
Definition deserialized (r : round) : Prop :=
  match r with
  | Delivered wire _ tm _ =>
      exists n, bind (Utf8.decode (data wire))
                     (TestMessage.from_json (ambient n)) = Ok tm
  | _ => True
  end.

Lemma fetch_round_outcome (psub : P) (messages : list TestMessage.t) (self : t) :
  exists r : round,
    calls (snd (fetch_round psub messages self)) = calls self ++ calls_of r /\
    snd (fst (fetch_round psub messages self)) = messages ++ returned r /\
    is_ok (fst (fst (fetch_round psub messages self))) = goes_on r /\
    js (snd (fetch_round psub messages self)) = js self /\
    deserialized r.
Proof.
  unfold fetch_round.
  destruct (fetch psub 1 5000 (broker self)) as [[[|m rest]|e] b].
  - exists Nothing. cbn. rewrite app_nil_r. auto.
  - cbn [called broker made].
    destruct (bind (Utf8.decode (data m))
                   (TestMessage.from_json (ambient (made self)))) as [tm|e] eqn:E.
    + unfold constructed, called. cbn [broker made js logs calls].
      destruct (ack m b) as [[u|e] b'].
      * exists (Delivered m rest tm true). cbn.
        rewrite <- ?app_assoc. repeat split; eauto.
      * exists (Delivered m rest tm false). cbn.
        rewrite <- ?app_assoc. repeat split; eauto.
    + exists (Failed (Ok (m :: rest))). cbn. rewrite app_nil_r. auto.
  - exists (Failed (Raise e)). cbn. rewrite app_nil_r. auto.
Qed.

Lemma fetch_loop_rounds (psub : P) (count : nat) :
  forall (messages : list TestMessage.t) (self : t),
  exists rounds : list round,
    calls (snd (fetch_loop psub count messages self))
      = calls self ++ flat_map calls_of rounds /\
    fst (fetch_loop psub count messages self)
      = messages ++ flat_map returned rounds /\
    only_last_stops rounds = true /\
    Forall deserialized rounds /\
    List.length rounds <= count.
Proof.
  induction count as [|count IH]; intros messages self.
  - exists []. cbn. rewrite !app_nil_r. auto.
  - cbn [fetch_loop].
    destruct (fetch_round_outcome psub messages self)
      as (r & Hc & Hm & Hok & _ & Hd).
    destruct (fetch_round psub messages self) as [[res messages'] self'].
    cbn [fst snd] in *.
    destruct res as [u|e].
    + destruct (IH messages' self') as (rounds & Hc' & Hm' & Hl & Hds & Hn).
      exists (r :: rounds). cbn [flat_map List.length].
      rewrite Hc', Hm', Hc, Hm, <- !app_assoc.
      repeat split; auto; [|lia].
      cbn [only_last_stops]. destruct rounds; [reflexivity|].
      cbn [is_ok] in Hok. now rewrite <- Hok, Hl.
    + exists [r]. cbn [flat_map fst snd log calls List.length].
      rewrite !app_nil_r. repeat split; auto. lia.
Qed.




(** C5, as the code has it.  The calls a successful [subscribe_messages]
    makes are the subscription and then a sequence of rounds; in each
    round that deserialized a message, the fetch is followed at once by
    the [ack] of that very message, before the next fetch and before the
    list is returned; the list returned is the deserialized messages of
    the rounds, in order; and every round but the last went on, so every
    returned message but possibly the last was acknowledged without
    error. *)
Theorem subscribe_messages_acks (subject stream consumer : str) (count : nat)
    (self self' : t) (msgs : list TestMessage.t) :
  subscribe_messages subject stream consumer count self = (Ok msgs, self') ->
  exists rounds : list round,
    calls self'
      = calls self ++ CSubscribe subject consumer stream true
                      :: flat_map calls_of rounds /\
    msgs = flat_map returned rounds /\
    only_last_stops rounds = true /\
    Forall deserialized rounds /\
    List.length rounds <= count.
Proof.
  unfold subscribe_messages. destruct (negb (js self)); [discriminate|].
  destruct (pull_subscribe subject consumer stream (broker self)) as [[psub|e] b];
    [|discriminate].
  set (w := called _ b self).
  destruct (fetch_loop_rounds psub count [] w) as (rounds & Hc & Hm & Hl & Hd & Hn).
  destruct (fetch_loop psub count [] w) as [msgs0 w'].
  intros [= <- <-]. exists rounds. cbn [fst snd app] in *.
  rewrite Hc. subst w. cbn [called calls is_ok]. rewrite <- app_assoc.
  repeat split; auto.
Qed.

(** *** [subscribe_messages] as a coroutine

    The event loop runs a coroutine from one [await] to the next; the
    awaits of [subscribe_messages] are its three broker calls.  A task is
    the coroutine stopped before one of them (or finished), and [step]
    runs it through that call up to the next. *)

Inductive task :=
| Start (subject stream consumer : str) (count : nat)
| Fetching (psub : P) (count : nat) (messages : list TestMessage.t)
| Acking (psub : P) (count : nat) (messages : list TestMessage.t) (m : M)
    (test_msg : TestMessage.t)
| Done (r : result (list TestMessage.t)).

Definition step (tk : task) (self : t) : task * t :=
  match tk with
  | Start subject stream consumer count =>
      if negb (js self) then (Done (Raise RuntimeError), self)
      else
        let (r, b) := pull_subscribe subject consumer stream (broker self) in
        let self := called (CSubscribe subject consumer stream (is_ok r)) b self in
        match r with
        | Raise e => (Done (Raise e), log ERROR (LSubscribeFailed e) self)
        | Ok psub => (Fetching psub count [], self)
        end
  | Fetching psub O messages => (Done (Ok messages), self)
  | Fetching psub (S count') messages =>
      let (r, b) := fetch psub 1 5000 (broker self) in
      let self := called (CFetch r) b self in
      match r with
      | Raise e => (Done (Ok messages), log WARNING (LFetchFailed e) self)
      | Ok [] => (Fetching psub count' messages, self)
      | Ok (m :: _) =>
          match bind (Utf8.decode (data m))
                     (TestMessage.from_json (ambient (made self))) with
          | Raise e => (Done (Ok messages), log WARNING (LFetchFailed e) self)
          | Ok test_msg =>
              (Acking psub count' (messages ++ [test_msg]) m test_msg,
               constructed self)
          end
      end
  | Acking psub count' messages m test_msg =>
      let (a, b) := ack m (broker self) in
      let self := called (CAck m (is_ok a)) b self in
      match a with
      | Raise e => (Done (Ok messages), log WARNING (LFetchFailed e) self)
      | Ok _ =>
          (Fetching psub count' messages,
           log DEBUG (LReceived (TestMessage.id test_msg)) self)
      end
  | Done r => (Done r, self)
  end.

(** A task run alone for [fuel] steps. *)
Fixpoint run (fuel : nat) (tk : task) (self : t) : task * t :=
  match fuel with
  | O => (tk, self)
  | S fuel' => let (tk', self') := step tk self in run fuel' tk' self'
  end.

(** How many steps a task has before it, at most. *)
Definition steps_left (tk : task) : nat :=
  match tk with
  | Start _ _ _ count => 2 * count + 2
  | Fetching _ count _ => 2 * count + 1
  | Acking _ count _ _ _ => 2 * count + 2
  | Done _ => 0
  end.

(** [asyncio.gather] over tasks created together: the event loop picks
    the task to resume, one step at a time; [schedule] is the order of
    its picks. *)
Fixpoint replace_nth (i : nat) (tk : task) (tasks : list task) : list task :=
  match tasks, i with
  | [], _ => []
  | _ :: rest, O => tk :: rest
  | x :: rest, S i' => x :: replace_nth i' tk rest
  end.

Fixpoint interleave (schedule : list nat) (tasks : list task) (self : t)
  : list task * t :=
  match schedule with
  | [] => (tasks, self)
  | i :: schedule' =>
      match nth_error tasks i with
      | Some tk =>
          let (tk', self') := step tk self in
          interleave schedule' (replace_nth i tk' tasks) self'
      | None => interleave schedule' tasks self
      end
  end.

Lemma run_done (fuel : nat) (r : result (list TestMessage.t)) (self : t) :
  run fuel (Done r) self = (Done r, self).
Proof. induction fuel as [|fuel IH]; [reflexivity|exact IH]. Qed.

(** Run alone, the coroutine from the head of the loop is the loop. *)
Lemma run_fetch_loop (psub : P) (count : nat) :
  forall (fuel : nat) (messages : list TestMessage.t) (self : t),
    2 * count + 1 <= fuel ->
    run fuel (Fetching psub count messages) self
    = (Done (Ok (fst (fetch_loop psub count messages self))),
       snd (fetch_loop psub count messages self)).
Proof.
  induction count as [|count IH]; intros fuel messages self Hf.
  - destruct fuel as [|fuel]; [lia|]. cbn [run step fetch_loop fst snd].
    apply run_done.
  - destruct fuel as [|[|fuel]]; try lia.
    cbn [fetch_loop]. unfold fetch_round.
    cbn [run step].
    destruct (fetch psub 1 5000 (broker self)) as [[[|m rest]|e] b].
    + apply (IH (S fuel)). lia.
    + cbn [called made].
      destruct (bind (Utf8.decode (data m))
                     (TestMessage.from_json (ambient (made self)))) as [tm|e].
      * cbn [step]. unfold constructed, called. cbn [broker made js logs calls].
        destruct (ack m b) as [[u|e] b'].
        -- apply (IH fuel). lia.
        -- cbn [fst snd]. apply run_done.
      * cbn [step fst snd]. apply run_done.
    + cbn [step fst snd]. apply run_done.
Qed.

(** Run alone from its start, the coroutine is [subscribe_messages]. *)
Lemma run_subscribe_messages (subject stream consumer : str) (count fuel : nat)
    (self : t) :
  2 * count + 2 <= fuel ->
  run fuel (Start subject stream consumer count) self
  = (Done (fst (subscribe_messages subject stream consumer count self)),
     snd (subscribe_messages subject stream consumer count self)).
Proof.
  intros Hf. destruct fuel as [|fuel]; [lia|].
  cbn [run step]. unfold subscribe_messages.
  destruct (negb (js self)); [apply run_done|].
  destruct (pull_subscribe subject consumer stream (broker self)) as [[psub|e] b].
  - rewrite run_fetch_loop by lia.
    now destruct (fetch_loop psub count [] _).
  - apply run_done.
Qed.

End WithBroker.

Arguments mk {B P M}.
Arguments Delivered {M}.
Arguments Nothing {M}.
Arguments Failed {M}.
Arguments Start {P M}.
Arguments Fetching {P M}.
Arguments Acking {P M}.
Arguments Done {P M}.

End Helper.

(* ================================================================== *)
(** ** What the helper's calls come to, for every broker *)

Module HelperTrace.
Import Py.
Local Open Scope list_scope.

Section WithBroker.

Context {B P M : Type} {JS : Helper.JetStream B P M}.

Variable ambient : nat -> TestMessage.env.

Abbreviation helper := (@Helper.t B P M).

(** The messages whose [ack] was called, in order. *)
Definition acked (cs : list (Helper.call P M)) : list M :=
  flat_map (fun c => match c with Helper.CAck m _ => [m] | _ => [] end) cs.

(** The wire message a round handed on. *)
Definition wire_of (r : Helper.round (M := M)) : list M :=
  match r with
  | Helper.Delivered wire _ _ _ => [wire]
  | _ => []
  end.

(** [tm] is what the bytes of [wire] deserialize to. *)
Definition deserializes (wire : M) (tm : TestMessage.t) : Prop :=
  exists n, bind (Utf8.decode (Helper.data wire))
                 (TestMessage.from_json (ambient n)) = Ok tm.

Lemma acked_app (cs cs' : list (Helper.call P M)) :
  acked (cs ++ cs') = acked cs ++ acked cs'.
Proof. unfold acked. apply flat_map_app. Qed.

Lemma acked_rounds (rounds : list (Helper.round (M := M))) :
  acked (flat_map (@Helper.calls_of P M) rounds) = flat_map wire_of rounds.
Proof.
  induction rounds as [|r rounds IH]; [reflexivity|].
  cbn [flat_map]. rewrite acked_app, IH. now destruct r.
Qed.

Lemma returned_rounds (rounds : list (Helper.round (M := M))) :
  Forall (Helper.deserialized ambient) rounds ->
  Forall2 deserializes (flat_map wire_of rounds)
          (flat_map (@Helper.returned M) rounds).
Proof.
  induction 1 as [|r rounds Hr _ IH]; [constructor|].
  cbn [flat_map]. destruct r; cbn [wire_of Helper.returned app]; try exact IH.
  constructor; [exact Hr|exact IH].
Qed.

(** X17. The messages [subscribe_messages] acknowledges are those it
    returns: when it returns, [ack] has been called once for each
    returned envelope, in order, on the very message it was deserialized
    from, and on no other; a message whose bytes do not deserialize is
    not acknowledged.  When it raises, it has acknowledged nothing. *)
Theorem subscribe_messages_acked (subject stream consumer : str) (count : nat)
    (self : helper) :
  let r := Helper.subscribe_messages ambient subject stream consumer count self in
  match fst r with
  | Ok msgs =>
      exists wires,
        acked (Helper.calls (snd r)) = acked (Helper.calls self) ++ wires /\
        Forall2 deserializes wires msgs
  | Raise _ => acked (Helper.calls (snd r)) = acked (Helper.calls self)
  end.
Proof.
  cbv zeta. unfold Helper.subscribe_messages.
  destruct (negb (Helper.js self)); [reflexivity|].
  destruct (Helper.pull_subscribe subject consumer stream (Helper.broker self))
    as [[psub|e] b]; cbn [fst snd].
  - set (w := Helper.called _ b self).
    destruct (Helper.fetch_loop_rounds ambient psub count [] w)
      as (rounds & Hc & Hm & _ & Hd & _).
    destruct (Helper.fetch_loop ambient psub count [] w) as [msgs w'].
    cbn [fst snd app] in *. exists (flat_map wire_of rounds). split.
    + rewrite Hc, acked_app, acked_rounds. subst w.
      cbn [Helper.called Helper.calls]. rewrite acked_app. cbn.
      now rewrite app_nil_r.
    + rewrite Hm. now apply returned_rounds.
  - cbn [Helper.log Helper.called Helper.calls]. rewrite acked_app. cbn.
    now rewrite app_nil_r.
Qed.

(** X18. For an envelope whose [id], [type] and [payload] are strings,
    [publish_message] on a connected helper comes to one [publish] of
    the JSON text itself as the payload: its outcome is the broker's,
    the broker is left as that call left it, and one line is logged, the
    id at debug level or the exception at error level. *)
Theorem publish_message_sends (subject i ty p : str) (ts : datetime)
    (self : helper) :
  Helper.js self = true ->
  let message := TestMessage.mk (PStr i) (PStr ty) (PStr p) ts in
  let payload := TestMessage.to_json message in
  let sent := Helper.publish subject payload (Helper.broker self) in
  let r := Helper.publish_message subject message self in
  fst r = fst sent /\
  Helper.broker (snd r) = snd sent /\
  Helper.calls (snd r)
  = Helper.calls self ++ [Helper.CPublish subject payload (is_ok (fst sent))] /\
  Helper.made (snd r) = Helper.made self /\
  Helper.logs (snd r)
  = Helper.logs self
    ++ [match fst sent with
        | Ok _ => (Helper.DEBUG, Helper.LPublished subject (PStr i))
        | Raise e => (Helper.ERROR, Helper.LPublishFailed e)
        end].
Proof.
  intros Hjs. cbv zeta. unfold Helper.publish_message. rewrite Hjs. cbn [negb].
  rewrite (Utf8.encode_ascii _ (Wire.string_fields_ascii i ty p ts)).
  destruct (Helper.publish subject _ (Helper.broker self)) as [[u|e] b];
    cbn [fst snd is_ok Helper.log Helper.called Helper.broker Helper.calls
         Helper.made Helper.logs TestMessage.id].
  - destruct u. repeat split.
  - repeat split.
Qed.

End WithBroker.

End HelperTrace.

(* ================================================================== *)
(** ** The test scenarios, over any broker *)

Module Tests.
Import Py.
Local Open Scope string_scope.
Local Open Scope list_scope.

Section WithBroker.

Context {B P M : Type} {JS : Helper.JetStream B P M}.

Variable ambient : nat -> TestMessage.env.

Abbreviation helper := (@Helper.t B P M).
Abbreviation task := (@Helper.task P M).

(** A test body: it reads and changes the helper, and returns or
    raises. *)
Definition action (A : Type) : Type := helper -> result A * helper.

Definition ret {A} (a : A) : action A := fun self => (Ok a, self).

Definition raise {A} (e : exn) : action A := fun self => (Raise e, self).

Definition seq_ {A C} (a : action A) (k : A -> action C) : action C :=
  fun self =>
    match a self with
    | (Ok x, self') => k x self'
    | (Raise e, self') => (Raise e, self')
    end.

Notation "x <- a ;; k" := (seq_ a (fun x => k))
  (at level 61, a at next level, right associativity).
Notation "a ;;; k" := (seq_ a (fun _ => k))
  (at level 61, right associativity).

Definition assert_ (cond : bool) : action unit :=
  if cond then ret tt else raise AssertionError.

(** [TestMessage(...)]: the constructor run in the surroundings of the
    moment. *)
Definition construct (build : TestMessage.env -> TestMessage.t)
  : action TestMessage.t :=
  fun self => (Ok (build (ambient (Helper.made self))), Helper.constructed self).

(** [TestMessage.from_json(m.data.decode())]. *)
Definition from_wire (m : M) : action TestMessage.t :=
  fun self =>
    match bind (Utf8.decode (Helper.data m))
               (TestMessage.from_json (ambient (Helper.made self))) with
    | Ok tm => (Ok tm, Helper.constructed self)
    | Raise e => (Raise e, self)
    end.

(** The calls a test makes on [nats_helper.js] itself. *)
Definition js_pull_subscribe (subject durable stream : str) : action P :=
  fun self =>
    let (r, b) := Helper.pull_subscribe subject durable stream (Helper.broker self) in
    (r, Helper.called (Helper.CSubscribe subject durable stream (is_ok r)) b self).

Definition psub_fetch (psub : P) (batch : nat) (timeout : Z) : action (list M) :=
  fun self =>
    let (r, b) := Helper.fetch psub batch timeout (Helper.broker self) in
    (r, Helper.called (Helper.CFetch r) b self).

Definition msg_ack (m : M) : action unit :=
  fun self =>
    let (r, b) := Helper.ack m (Helper.broker self) in
    (r, Helper.called (Helper.CAck m (is_ok r)) b self).

(** [asyncio.sleep]: time passes at the broker too. *)
Definition asleep (ms : Z) : action unit :=
  fun self =>
    (Ok tt,
     Helper.mk (Helper.js self) (Helper.sleep ms (Helper.broker self))
       (Helper.made self) (Helper.logs self) (Helper.calls self)).

(** [==] between two [id]s of which one is a [str]. *)
Definition same_id (v w : pyval) : bool :=
  match v, w with
  | PStr a, PStr b => str_eqb a b
  | _, _ => false
  end.

(** [for i in range(count)]: build message [i], publish it, pause. *)
Fixpoint publish_each (build : nat -> TestMessage.env -> TestMessage.t)
    (subject : str) (pause : option Z) (i count : nat)
    (sent : list TestMessage.t) : action (list TestMessage.t) :=
  match count with
  | O => ret sent
  | S count' =>
      msg <- construct (build i) ;;
      Helper.publish_message subject msg ;;;
      match pause with Some ms => asleep ms | None => ret tt end ;;;
      publish_each build subject pause (S i) count' (sent ++ [msg])
  end.

(** [asyncio.gather] of tasks created together.  The event loop resumes
    one task at a time; [schedule] lists its first picks, and whatever is
    unfinished after them is run on, task by task, to the end. *)
Definition run_on (tasks : list task) : list nat :=
  flat_map (fun i => repeat i (Helper.steps_left (nth i tasks (Helper.Done (Ok [])))))
           (seq 0 (List.length tasks)).

Definition outcome (tk : task) : result (list TestMessage.t) :=
  match tk with
  | Helper.Done r => r
  | _ => Raise RuntimeError
  end.

Definition gather (schedule : list nat) (tasks : list task)
  : helper -> list (result (list TestMessage.t)) * helper :=
  fun self =>
    let (tasks1, self1) := Helper.interleave ambient schedule tasks self in
    let (tasks2, self2) := Helper.interleave ambient (run_on tasks1) tasks1 self1 in
    (map outcome tasks2, self2).

(** *** [test_message_ordering] *)

Definition ordering_subject : str := lit "finovatex.system.ordering.test".
Definition system_events : str := lit "SYSTEM_EVENTS".

(** [f"ordering-consumer-{int(time.time())}"]; [epoch] is the integer the
    wall clock gave. *)
Definition ordering_consumer (epoch : Z) : str :=
  lit "ordering-consumer-" ++ Json.int_repr epoch.

Definition order_id (i : nat) : str :=
  lit "order-" ++ Datetime.zfill 3 (N.of_nat i).

Definition ordering_msg (i : nat) (e : TestMessage.env) : TestMessage.t :=
  TestMessage.__init__ e (PStr (order_id i)) (PStr (lit "ordering_test"))
    (PStr ([26377; 24207; 28040; 24687; 32]%N ++ Json.int_repr (Z.of_nat i)))
    None.

Definition ordering_flow (epoch : Z) : action (list TestMessage.t) :=
  publish_each ordering_msg ordering_subject (Some 10%Z) 0 10 [] ;;;
  Helper.subscribe_messages ambient ordering_subject system_events
    (ordering_consumer epoch) 10.

Fixpoint ids_in_order (i : nat) (received : list TestMessage.t) : bool :=
  match received with
  | [] => true
  | msg :: rest =>
      same_id (TestMessage.id msg) (PStr (order_id i)) && ids_in_order (S i) rest
  end.

Definition test_message_ordering (epoch : Z) : action unit :=
  received_messages <- ordering_flow epoch ;;
  assert_ (Nat.eqb (List.length received_messages) 10) ;;;
  assert_ (ids_in_order 0 received_messages).

(** *** [_test_publish_subscribe_flow] *)

Definition flow_msg (name : str) (i : nat) (e : TestMessage.env) : TestMessage.t :=
  TestMessage.__init__ e PNone (PStr (lit "test_message"))
    (PStr ([27979; 35797; 28040; 24687; 32]%N ++ Json.int_repr (Z.of_nat i)
           ++ [32; 29992; 20110; 32]%N ++ name))
    None.

(** [f"test-consumer-{stream}-{i}-{int(time.time())}"]. *)
Definition flow_consumer (stream : str) (epoch : nat -> Z) (i : nat) : str :=
  lit "test-consumer-" ++ stream ++ [45%N] ++ Json.int_repr (Z.of_nat i)
  ++ [45%N] ++ Json.int_repr (epoch i).

(** Publish the messages one after the other, then start one
    [subscribe_messages] task per durable name and gather them. *)
Definition publish_then_gather (build : nat -> TestMessage.env -> TestMessage.t)
    (subject stream : str) (message_count : nat) (names : list str)
    (per_consumer : nat) (schedule : list nat)
  : action (list (result (list TestMessage.t))) :=
  publish_each build subject None 0 message_count [] ;;;
  (fun self =>
     let (results, self') :=
       gather schedule
         (map (fun name => Helper.Start subject stream name per_consumer) names)
         self in
     (Ok results, self')).

Definition each_got (message_count : nat) (r : result (list TestMessage.t)) : bool :=
  match r with
  | Ok result => Nat.eqb (List.length result) message_count
  | Raise _ => false
  end.

Definition _test_publish_subscribe_flow (name stream subject : str)
    (epoch : nat -> Z) (schedule : list nat) : action unit :=
  results <- publish_then_gather (flow_msg name) subject stream 5
               (map (flow_consumer stream epoch) (seq 0 3)) 5 schedule ;;
  assert_ (forallb (each_got 5) results).

(** *** [test_message_retry] *)

Definition retry_subject : str := lit "finovatex.system.retry.test".

Definition retry_consumer (epoch : Z) : str :=
  lit "retry-consumer-" ++ Json.int_repr epoch.

Definition retry_msg (e : TestMessage.env) : TestMessage.t :=
  TestMessage.__init__ e PNone (PStr (lit "retry_test"))
    (PStr [37325; 35797; 27979; 35797; 28040; 24687]%N) None.

(** The test up to its last assertion, with the two envelopes it
    received; [wait] is the sleep between the two fetches, in
    milliseconds. *)
Definition retry_flow (epoch : Z) (wait : Z)
  : action (TestMessage.t * TestMessage.t * TestMessage.t) :=
  msg <- construct retry_msg ;;
  Helper.publish_message retry_subject msg ;;;
  psub <- js_pull_subscribe retry_subject (retry_consumer epoch) system_events ;;
  msgs <- psub_fetch psub 1 5000 ;;
  match msgs with
  | [m1] =>
      received_msg1 <- from_wire m1 ;;
      assert_ (same_id (TestMessage.id received_msg1) (TestMessage.id msg)) ;;;
      asleep wait ;;;
      msgs2 <- psub_fetch psub 1 5000 ;;
      match msgs2 with
      | [m2] =>
          received_msg2 <- from_wire m2 ;;
          assert_ (same_id (TestMessage.id received_msg2) (TestMessage.id msg)) ;;;
          msg_ack m2 ;;;
          ret (msg, received_msg1, received_msg2)
      | _ => raise AssertionError
      end
  | _ => raise AssertionError
  end.

(** The source sleeps two seconds. *)
Definition test_message_retry (epoch : Z) : action unit :=
  retry_flow epoch 2000 ;;; ret tt.

End WithBroker.

End Tests.

(* ================================================================== *)
(** ** The broker the helper talks to

    The sources hold the client side only; the broker is an external
    server.  Its streams, durable consumers and redelivery are modelled
    here from the specification's sections 3 and 4.5. *)

Module Broker.
Import Py.
Local Open Scope Z_scope.

(** Modelled from the spec: the durable consumer, a named cursor over
    the messages of one stream that match one subject.  [c_next] is the
    position of the first message never delivered; [c_pending] lists the
    positions delivered and not yet acknowledged, each with the time
    from which it is redelivered, oldest delivery first. *)
Record consumer := mkConsumer {
  c_stream : str;
  c_durable : str;
  c_filter : str;
  c_next : nat;
  c_pending : list (nat * Z) }.

(** Modelled from the spec: the broker, which owns retention, cursors
    and redelivery timers.  [now] is its clock and [ack_wait] the
    configured redelivery interval, both in milliseconds; [streams]
    gives each stream's subject patterns; [stored] is every retained
    message with its subject, in publish order. *)
Record t := mk {
  now : Z;
  ack_wait : Z;
  streams : list (str * list str);
  stored : list (str * Utf8.bytes);
  consumers : list consumer }.

(** Modelled from the spec: a delivered message, its bytes and its
    acknowledgement handle (the consumer it was delivered to and its
    position in that consumer's view). *)
Record msg := mkMsg {
  m_stream : str;
  m_durable : str;
  m_index : nat;
  m_data : Utf8.bytes }.

(** Modelled from the spec: subject patterns are dot-delimited, [*]
    stands for one token and a final [>] for one or more. *)
Fixpoint tokens_match (pattern subject : list str) : bool :=
  match pattern, subject with
  | [], [] => true
  | p :: pattern', s :: subject' =>
      if str_eqb p [62%N] then
        match pattern' with [] => true | _ => false end
      else if str_eqb p [42%N] then tokens_match pattern' subject'
      else str_eqb p s && tokens_match pattern' subject'
  | _, _ => false
  end.

(** Modelled from the spec: a subject matches a pattern token by
    token. *)
Definition subject_matches (pattern subject : str) : bool :=
  tokens_match (split 46 pattern) (split 46 subject).

(** Modelled from the spec: the stream is declared. *)
Definition has_stream (b : t) (stream : str) : bool :=
  existsb (fun s => str_eqb (fst s) stream) (streams b).

(** Modelled from the spec: [stream] retains what is published on
    [subject], which one of its patterns matches. *)
Definition retains (b : t) (stream subject : str) : bool :=
  existsb (fun s => str_eqb (fst s) stream
                    && existsb (fun p => subject_matches p subject) (snd s))
          (streams b).

(** Modelled from the spec: some stream retains the subject. *)
Definition retained (b : t) (subject : str) : bool :=
  existsb (fun s => existsb (fun p => subject_matches p subject) (snd s))
          (streams b).

(** Modelled from the spec: what a consumer of [stream] filtering on
    [subject] has to see, in publish order. *)
Definition view (b : t) (stream subject : str) : list Utf8.bytes :=
  map snd (filter (fun m => retains b stream (fst m) && str_eqb (fst m) subject)
                  (stored b)).

(** Modelled from the spec: a durable consumer is known by its stream
    and its durable name. *)
Definition is_consumer (stream durable : str) (c : consumer) : bool :=
  str_eqb (c_stream c) stream && str_eqb (c_durable c) durable.

(** Modelled from the spec: the consumer of that name, when there is
    one. *)
Definition lookup (b : t) (stream durable : str) : option consumer :=
  find (is_consumer stream durable) (consumers b).

(** Modelled from the spec: the state of one consumer is replaced, the
    others stay. *)
Fixpoint replace (c : consumer) (cs : list consumer) : list consumer :=
  match cs with
  | [] => []
  | c' :: cs' =>
      if is_consumer (c_stream c) (c_durable c) c' then c :: cs'
      else c' :: replace c cs'
  end.

(** Modelled from the spec: the broker at time [at_], with the new
    state of [c]. *)
Definition with_consumer (c : consumer) (at_ : Z) (b : t) : t :=
  mk at_ (ack_wait b) (streams b) (stored b) (replace c (consumers b)).

(** Modelled from the spec: the acknowledgement wait of a pending
    message has run out at time [at_]. *)
Definition due (at_ : Z) (p : nat * Z) : bool := snd p <=? at_.

(** Modelled from the spec: position [i] is no longer pending. *)
Definition unpend (i : nat) (pending : list (nat * Z)) : list (nat * Z) :=
  filter (fun p => negb (Nat.eqb (fst p) i)) pending.

(** Modelled from the spec: what the consumer is handed at time [at_]
    without waiting.  A message whose acknowledgement is overdue comes
    first (the same message again); otherwise the next one never
    delivered.  Either way its redelivery is due [ack_wait] later. *)
Definition deliver (b : t) (at_ : Z) (c : consumer) : option (msg * consumer) :=
  let v := view b (c_stream c) (c_filter c) in
  let hand i :=
    match nth_error v i with
    | Some d =>
        Some (mkMsg (c_stream c) (c_durable c) i d,
              mkConsumer (c_stream c) (c_durable c) (c_filter c)
                (Nat.max (c_next c) (S i))
                (unpend i (c_pending c) ++ [(i, at_ + ack_wait b)]))
    | None => None
    end in
  match find (due at_) (c_pending c) with
  | Some (i, _) => hand i
  | None => hand (c_next c)
  end.

(** Modelled from the spec: the rest of a batch, what else is there at
    once. *)
Fixpoint more (b : t) (k : nat) (c : consumer) : list msg * consumer :=
  match k with
  | O => ([], c)
  | S k' =>
      match deliver b (now b) c with
      | Some (m, c') => let (ms, c'') := more b k' c' in (m :: ms, c'')
      | None => ([], c)
      end
  end.

(** Modelled from the spec: [pullFetch].  With something to hand over it
    returns at once; with nothing it waits, up to the timeout, for a
    pending message to fall due, and failing that times out. *)
Definition fetch (h : str * str) (batch : nat) (timeout : Z) (b : t)
  : result (list msg) * t :=
  match lookup b (fst h) (snd h) with
  | None => (Raise BrokerError, b)
  | Some c =>
      match batch with
      | O => (Ok [], b)
      | S k =>
          match deliver b (now b) c with
          | Some (m, c') =>
              let (ms, c'') := more b k c' in
              (Ok (m :: ms), with_consumer c'' (now b) b)
          | None =>
              match find (due (now b + timeout)) (c_pending c) with
              | Some (_, deadline) =>
                  match deliver b deadline c with
                  | Some (m, c') => (Ok [m], with_consumer c' deadline b)
                  | None => (Raise BrokerError, b)
                  end
              | None =>
                  (Raise TimeoutError,
                   mk (now b + timeout) (ack_wait b) (streams b) (stored b)
                      (consumers b))
              end
          end
      end
  end.

(** Modelled from the spec: an acknowledgement takes the message off the
    consumer's pending list. *)
Definition ack (m : msg) (b : t) : result unit * t :=
  match lookup b (m_stream m) (m_durable m) with
  | None => (Raise BrokerError, b)
  | Some c =>
      (Ok tt,
       with_consumer
         (mkConsumer (c_stream c) (c_durable c) (c_filter c) (c_next c)
            (unpend (m_index m) (c_pending c)))
         (now b) b)
  end.

(** Modelled from the spec: a publish is stored when a stream retains
    the subject, and refused otherwise. *)
Definition publish (subject : str) (payload : Utf8.bytes) (b : t)
  : result unit * t :=
  if retained b subject then
    (Ok tt,
     mk (now b) (ack_wait b) (streams b) (stored b ++ [(subject, payload)])
        (consumers b))
  else (Raise NoStreamResponse, b).

(** Modelled from the spec: the first fetch session that names a durable
    consumer creates it, at the start of the stream; a later one finds
    it as it is. *)
Definition pull_subscribe (subject durable stream : str) (b : t)
  : result (str * str) * t :=
  if negb (has_stream b stream) then (Raise BrokerError, b)
  else
    match lookup b stream durable with
    | Some c =>
        if str_eqb (c_filter c) subject then (Ok (stream, durable), b)
        else (Raise BrokerError, b)
    | None =>
        (Ok (stream, durable),
         mk (now b) (ack_wait b) (streams b) (stored b)
            (consumers b ++ [mkConsumer stream durable subject 0 []]))
    end.

(** Modelled from the spec: time passes on the broker's clock while the
    client sleeps. *)
Definition sleep (d : Z) (b : t) : t :=
  mk (now b + Z.max 0 d) (ack_wait b) (streams b) (stored b) (consumers b).

(** Modelled from the spec: the broker behind the client interface the
    helper is written against. *)
#[global] Instance jetstream : Helper.JetStream t (str * str) msg := {|
  Helper.publish := publish;
  Helper.pull_subscribe := pull_subscribe;
  Helper.fetch := fetch;
  Helper.data := m_data;
  Helper.ack := ack;
  Helper.sleep := sleep |}.

(** *** One consumer at a time *)

(** [b'] is [b] but for the consumer [(stream, durable)]: same clock,
    same streams, same stored messages, every other consumer as it
    was. *)
Definition same_but (stream durable : str) (b b' : t) : Prop :=
  now b' = now b /\ ack_wait b' = ack_wait b /\ streams b' = streams b /\
  stored b' = stored b /\
  forall st dn, (st, dn) <> (stream, durable) -> lookup b' st dn = lookup b st dn.

Lemma same_but_refl (stream durable : str) (b : t) : same_but stream durable b b.
Proof. unfold same_but; auto. Qed.

Lemma same_but_trans (stream durable : str) (b1 b2 b3 : t) :
  same_but stream durable b1 b2 -> same_but stream durable b2 b3 ->
  same_but stream durable b1 b3.
Proof.
  intros (A1 & A2 & A3 & A4 & A5) (B1 & B2 & B3 & B4 & B5).
  unfold same_but. repeat split; try congruence.
  intros st dn H. now rewrite B5, A5.
Qed.

Lemma same_but_view (stream durable : str) (b b' : t) (st subject : str) :
  same_but stream durable b b' -> view b' st subject = view b st subject.
Proof.
  intros (_ & _ & Hs & Hm & _). unfold view, retains. now rewrite Hs, Hm.
Qed.

Lemma is_consumer_key (stream durable : str) (c : consumer) :
  is_consumer stream durable c = true <-> (c_stream c, c_durable c) = (stream, durable).
Proof.
  unfold is_consumer. rewrite andb_true_iff, !str_eqb_eq.
  split; [intros [-> ->]; reflexivity|intros [= -> ->]; auto].
Qed.

Lemma is_consumer_other (stream durable : str) (c : consumer) :
  (c_stream c, c_durable c) <> (stream, durable) ->
  is_consumer stream durable c = false.
Proof.
  intros H. destruct (is_consumer stream durable c) eqn:E; [|reflexivity].
  apply is_consumer_key in E. contradiction.
Qed.

Lemma lookup_key (b : t) (stream durable : str) (c : consumer) :
  lookup b stream durable = Some c -> c_stream c = stream /\ c_durable c = durable.
Proof.
  intros H. apply find_some in H as [_ H].
  apply is_consumer_key in H. now inversion H.
Qed.

Lemma find_app {A : Type} (f : A -> bool) (l l' : list A) :
  find f (l ++ l') = match find f l with Some x => Some x | None => find f l' end.
Proof.
  induction l as [|x l IH]; [reflexivity|].
  cbn [app find]. now destruct (f x).
Qed.

Lemma find_replace (c : consumer) (cs : list consumer) (c0 : consumer) :
  find (is_consumer (c_stream c) (c_durable c)) cs = Some c0 ->
  find (is_consumer (c_stream c) (c_durable c)) (replace c cs) = Some c.
Proof.
  induction cs as [|c' cs IH]; cbn [find replace]; [discriminate|].
  destruct (is_consumer (c_stream c) (c_durable c) c') eqn:E.
  - intros _. cbn [find].
    replace (is_consumer (c_stream c) (c_durable c) c) with true; [reflexivity|].
    symmetry. now apply is_consumer_key.
  - intros H. cbn [find]. rewrite E. auto.
Qed.

Lemma find_replace_other (c : consumer) (cs : list consumer) (st dn : str) :
  (st, dn) <> (c_stream c, c_durable c) ->
  find (is_consumer st dn) (replace c cs) = find (is_consumer st dn) cs.
Proof.
  intros Hne. induction cs as [|c' cs IH]; cbn [find replace]; [reflexivity|].
  destruct (is_consumer (c_stream c) (c_durable c) c') eqn:E.
  - apply is_consumer_key in E. cbn [find].
    rewrite (@is_consumer_other st dn c) by congruence.
    rewrite (@is_consumer_other st dn c') by congruence. reflexivity.
  - cbn [find]. now rewrite IH.
Qed.

(** Putting a consumer back in place changes that consumer only. *)
Lemma with_consumer_spec (b : t) (c c0 : consumer) :
  lookup b (c_stream c) (c_durable c) = Some c0 ->
  lookup (with_consumer c (now b) b) (c_stream c) (c_durable c) = Some c /\
  same_but (c_stream c) (c_durable c) b (with_consumer c (now b) b).
Proof.
  intros H. unfold lookup, with_consumer in *. cbn [consumers]. split.
  - now apply find_replace with c0.
  - unfold same_but, lookup. cbn. repeat split.
    intros st dn Hne. now apply find_replace_other.
Qed.

Lemma retains_retained (b : t) (stream subject : str) :
  retains b stream subject = true -> retained b subject = true.
Proof.
  unfold retains, retained. rewrite !existsb_exists.
  intros (s & Hin & H). exists s. split; [exact Hin|].
  now apply andb_true_iff in H as [_ H].
Qed.

Lemma retains_has_stream (b : t) (stream subject : str) :
  retains b stream subject = true -> has_stream b stream = true.
Proof.
  unfold retains, has_stream. rewrite !existsb_exists.
  intros (s & Hin & H). exists s. split; [exact Hin|].
  now apply andb_true_iff in H as [H _].
Qed.

(** A publish on a retained subject adds the message at the end of the
    view of the consumers filtering on that subject. *)
Lemma publish_view (b : t) (stream subject : str) (payload : Utf8.bytes) :
  retains b stream subject = true ->
  exists b',
    publish subject payload b = (Ok tt, b') /\
    view b' stream subject = view b stream subject ++ [payload] /\
    now b' = now b /\ ack_wait b' = ack_wait b /\ streams b' = streams b /\
    consumers b' = consumers b.
Proof.
  intros H. unfold publish. rewrite (retains_retained _ _ _ H).
  eexists. split; [reflexivity|]. cbn. repeat split.
  unfold view, retains. cbn [stored streams].
  rewrite filter_app, map_app. cbn [filter fst].
  unfold retains in H. rewrite H, str_eqb_refl. reflexivity.
Qed.

(** The first subscription under a new durable name creates the
    consumer at the start of the stream. *)
Lemma pull_subscribe_new (b : t) (subject durable stream : str) :
  has_stream b stream = true -> lookup b stream durable = None ->
  exists b',
    pull_subscribe subject durable stream b = (Ok (stream, durable), b') /\
    lookup b' stream durable = Some (mkConsumer stream durable subject 0 []) /\
    same_but stream durable b b'.
Proof.
  intros Hs Hl. unfold pull_subscribe. rewrite Hs, Hl. cbn [negb].
  eexists. split; [reflexivity|]. unfold lookup in *. cbn [consumers]. split.
  - rewrite find_app, Hl. cbn [find].
    replace (is_consumer stream durable (mkConsumer stream durable subject 0 []))
      with true; [reflexivity|].
    symmetry. now apply is_consumer_key.
  - unfold same_but, lookup. cbn. repeat split.
    intros st dn Hne. rewrite find_app.
    destruct (find (is_consumer st dn) (consumers b)); [reflexivity|].
    cbn [find]. rewrite is_consumer_other; [reflexivity|]. cbn. congruence.
Qed.

(** A consumer with nothing pending is handed the next message it has
    not seen, and an acknowledgement leaves it one position further with
    nothing pending. *)
Lemma fetch_next (b : t) (stream durable subject : str) (k : nat)
    (d : Utf8.bytes) (timeout : Z) :
  lookup b stream durable = Some (mkConsumer stream durable subject k []) ->
  nth_error (view b stream subject) k = Some d ->
  exists b',
    fetch (stream, durable) 1 timeout b
      = (Ok [mkMsg stream durable k d], b') /\
    lookup b' stream durable
      = Some (mkConsumer stream durable subject (S k) [(k, now b + ack_wait b)]) /\
    same_but stream durable b b'.
Proof.
  intros Hl Hd. unfold fetch. cbn [fst snd]. rewrite Hl.
  unfold deliver. cbn [c_pending c_stream c_durable c_filter c_next find more].
  rewrite Hd. cbn [unpend filter app].
  rewrite Nat.max_r by lia.
  set (c' := mkConsumer stream durable subject (S k) [(k, now b + ack_wait b)]).
  eexists. split; [reflexivity|].
  exact (with_consumer_spec b c' Hl).
Qed.

Lemma ack_pending (b : t) (stream durable subject : str) (k next : nat)
    (d : Utf8.bytes) (deadline : Z) :
  lookup b stream durable
    = Some (mkConsumer stream durable subject next [(k, deadline)]) ->
  exists b',
    ack (mkMsg stream durable k d) b = (Ok tt, b') /\
    lookup b' stream durable = Some (mkConsumer stream durable subject next []) /\
    same_but stream durable b b'.
Proof.
  intros Hl. unfold ack. cbn [m_stream m_durable m_index]. rewrite Hl.
  cbn [c_pending c_stream c_durable c_filter c_next unpend filter fst].
  rewrite Nat.eqb_refl. cbn [negb].
  set (c' := mkConsumer stream durable subject next []).
  eexists. split; [reflexivity|].
  exact (with_consumer_spec b c' Hl).
Qed.



Lemma view_same (b b' : t) (stream subject : str) :
  streams b' = streams b -> stored b' = stored b ->
  view b' stream subject = view b stream subject.
Proof. intros Hs Hm. unfold view, retains. now rewrite Hs, Hm. Qed.

Lemma retains_same (b b' : t) (stream subject : str) :
  streams b' = streams b -> retains b' stream subject = retains b stream subject.
Proof. intros Hs. unfold retains. now rewrite Hs. Qed.

Lemma lookup_same (b b' : t) (stream durable : str) :
  consumers b' = consumers b -> lookup b' stream durable = lookup b stream durable.
Proof. intros Hc. unfold lookup. now rewrite Hc. Qed.

End Broker.

(* ================================================================== *)
(** ** The helper against the broker: ordering, fan-out, redelivery *)

Module Scenarios.
Import Py.

Abbreviation helper := (@Helper.t Broker.t (str * str) Broker.msg).
Abbreviation task := (@Helper.task (str * str) Broker.msg).

Lemma to_json_ascii (m : TestMessage.t) :
  TestMessage.valid m = true -> Utf8.ascii (TestMessage.to_json m) = true.
Proof.
  destruct m as [i ty p ts]. unfold TestMessage.valid.
  cbn [TestMessage.id TestMessage.type TestMessage.payload].
  destruct i as [| | | |i| |]; try discriminate.
  destruct ty as [| | | |ty| |]; try discriminate.
  destruct p as [| | | |p| |]; try discriminate.
  intros _. unfold TestMessage.to_json, TestMessage.to_dict.
  cbn [TestMessage.id TestMessage.type TestMessage.payload TestMessage.timestamp].
  exact (Utf8.dumps_sdict_ascii (lit "id", i)
           [ (lit "type", ty); (lit "payload", p);
             (lit "timestamp", Datetime.isoformat ts) ]).
Qed.

(** What is stored for a valid envelope deserializes to it, whatever the
    constructor's surroundings. *)
Lemma wire_round_trip (e : TestMessage.env) (m : TestMessage.t) :
  TestMessage.valid m = true ->
  Utf8.encode (TestMessage.to_json m) = Ok (TestMessage.to_json m) /\
  bind (Utf8.decode (TestMessage.to_json m)) (TestMessage.from_json e) = Ok m.
Proof.
  intros Hv. pose proof (to_json_ascii m Hv) as Ha. split.
  - now apply Utf8.encode_ascii.
  - rewrite Utf8.decode_ascii by exact Ha. cbn [bind].
    now apply TestMessage.round_trip.
Qed.

Section Flow.

Variable ambient : nat -> TestMessage.env.

Variables subject stream : str.

(** The first messages on the subject, all valid envelopes, and what is
    stored after them. *)
Variable msgs : list TestMessage.t.
Variable later : list Utf8.bytes.

Hypothesis msgs_valid : forallb TestMessage.valid msgs = true.

(** The helper is connected and the consumers of [stream] on [subject]
    have the serialized [msgs] to see, then [later]. *)
Definition ready (self : helper) : Prop :=
  Helper.js self = true /\
  Broker.has_stream (Helper.broker self) stream = true /\
  Broker.view (Helper.broker self) stream subject
  = map TestMessage.to_json msgs ++ later.

(** Where a [subscribe_messages] task under the durable name [name]
    stands: not subscribed yet and the name unused; at the head of the
    loop with the first [k] messages gathered and the consumer at
    position [k] with nothing pending; between the fetch and the ack of
    message [k]; or finished with all of [msgs]. *)
Inductive task_ok (name : str) (b : Broker.t) : task -> Prop :=
| ok_start :
    Broker.lookup b stream name = None ->
    task_ok name b (Helper.Start subject stream name (List.length msgs))
| ok_fetching (k : nat) :
    k <= List.length msgs ->
    Broker.lookup b stream name
    = Some (Broker.mkConsumer stream name subject k []) ->
    task_ok name b
      (Helper.Fetching (stream, name) (List.length msgs - k) (firstn k msgs))
| ok_acking (k : nat) (tm : TestMessage.t) (deadline : Z) :
    nth_error msgs k = Some tm ->
    Broker.lookup b stream name
    = Some (Broker.mkConsumer stream name subject (S k) [(k, deadline)]) ->
    task_ok name b
      (Helper.Acking (stream, name) (List.length msgs - S k) (firstn (S k) msgs)
         (Broker.mkMsg stream name k (TestMessage.to_json tm)) tm)
| ok_done : task_ok name b (Helper.Done (Ok msgs)).

Lemma firstn_snoc (k : nat) (tm : TestMessage.t) :
  nth_error msgs k = Some tm -> firstn (S k) msgs = firstn k msgs ++ [tm].
Proof.
  clear msgs_valid. revert k. induction msgs as [|x l IH]; intros [|k] H;
    try discriminate.
  - now inversion H.
  - cbn [firstn app]. f_equal. apply (IH k). exact H.
Qed.

Lemma nth_valid (k : nat) (tm : TestMessage.t) :
  nth_error msgs k = Some tm -> TestMessage.valid tm = true.
Proof.
  intros H. apply nth_error_In in H.
  exact (proj1 (forallb_forall _ _) msgs_valid tm H).
Qed.

(** One step of a task keeps the helper ready, moves the task to its
    next stand, touches no consumer but its own, and uses up one of the
    steps the task had left. *)
Lemma step_ok (name : str) (tk : task) (self : helper) :
  ready self -> task_ok name (Helper.broker self) tk ->
  ready (snd (Helper.step ambient tk self)) /\
  task_ok name (Helper.broker (snd (Helper.step ambient tk self)))
          (fst (Helper.step ambient tk self)) /\
  Broker.same_but stream name (Helper.broker self)
                  (Helper.broker (snd (Helper.step ambient tk self))) /\
  Helper.steps_left (fst (Helper.step ambient tk self))
  = pred (Helper.steps_left tk).
Proof.
  intros (Hjs & Hst & Hview) Hok.
  assert (Hkeep : forall b', Broker.same_but stream name (Helper.broker self) b' ->
            Broker.has_stream b' stream = true /\
            Broker.view b' stream subject = map TestMessage.to_json msgs ++ later).
  { intros b' Hs. split.
    - destruct Hs as (_ & _ & Hs & _). unfold Broker.has_stream in *. now rewrite Hs.
    - now rewrite (Broker.same_but_view _ _ Hs). }
  destruct Hok as [Hl|k Hk Hl|k tm deadline Hnth Hl|].
  - (* Start *)
    destruct (@Broker.pull_subscribe_new (Helper.broker self) subject name stream Hst Hl)
      as (b' & Hsub & Hl' & Hs).
    cbn [Helper.step]. rewrite Hjs. cbn [negb].
    change (Helper.pull_subscribe subject name stream (Helper.broker self))
      with (Broker.pull_subscribe subject name stream (Helper.broker self)).
    rewrite Hsub. cbn [fst snd Helper.called Helper.broker Helper.js Helper.steps_left].
    destruct (Hkeep b' Hs) as [H1 H2].
    refine (conj _ (conj _ (conj Hs _))).
    + unfold ready. auto.
    + rewrite <- (Nat.sub_0_r (List.length msgs)) at 1.
      change (@nil TestMessage.t) with (firstn 0 msgs).
      apply ok_fetching; [lia|exact Hl'].
    + lia.
  - (* Fetching *)
    destruct (Nat.eq_dec k (List.length msgs)) as [->|Hne].
    + rewrite Nat.sub_diag, firstn_all. cbn [Helper.step fst snd Helper.steps_left].
      refine (conj _ (conj _ (conj (Broker.same_but_refl _ _ _) _))).
      * unfold ready. auto.
      * apply ok_done.
      * reflexivity.
    + assert (Hlt : k < List.length msgs) by lia.
      destruct (nth_error msgs k) as [tm|] eqn:Hnth;
        [|apply nth_error_None in Hnth; lia].
      assert (Hd : nth_error (Broker.view (Helper.broker self) stream subject) k
                   = Some (TestMessage.to_json tm)).
      { rewrite Hview, nth_error_app1 by (rewrite length_map; exact Hlt).
        now apply map_nth_error. }
      destruct (@Broker.fetch_next (Helper.broker self) stream name subject k _ 5000 Hl Hd)
        as (b' & Hf & Hl' & Hs).
      replace (List.length msgs - k) with (S (List.length msgs - S k)) by lia.
      cbn [Helper.step].
      change (Helper.fetch (stream, name) 1 5000 (Helper.broker self))
        with (Broker.fetch (stream, name) 1 5000 (Helper.broker self)).
      rewrite Hf.
      change (Helper.data (Broker.mkMsg stream name k (TestMessage.to_json tm)))
        with (TestMessage.to_json tm).
      rewrite (proj2 (wire_round_trip _ tm (nth_valid _ Hnth))).
      cbn [fst snd Helper.called Helper.constructed Helper.broker Helper.js
           Helper.steps_left].
      destruct (Hkeep b' Hs) as [H1 H2].
      refine (conj _ (conj _ (conj Hs _))).
      * unfold ready. auto.
      * rewrite <- (firstn_snoc _ Hnth).
        now apply ok_acking
          with (deadline := (Broker.now (Helper.broker self)
                             + Broker.ack_wait (Helper.broker self))%Z).
      * lia.
  - (* Acking *)
    destruct (@Broker.ack_pending (Helper.broker self) stream name subject k (S k)
                (TestMessage.to_json tm) deadline Hl) as (b' & Ha & Hl' & Hs).
    cbn [Helper.step].
    change (Helper.ack (Broker.mkMsg stream name k (TestMessage.to_json tm))
              (Helper.broker self))
      with (Broker.ack (Broker.mkMsg stream name k (TestMessage.to_json tm))
              (Helper.broker self)).
    rewrite Ha.
    cbn [fst snd Helper.called Helper.log Helper.broker Helper.js Helper.steps_left].
    destruct (Hkeep b' Hs) as [H1 H2].
    assert (Hlt : k < List.length msgs).
    { apply nth_error_Some. congruence. }
    refine (conj _ (conj _ (conj Hs _))).
    + unfold ready. auto.
    + apply ok_fetching; [lia|exact Hl'].
    + lia.
  - (* Done *)
    cbn [Helper.step fst snd Helper.steps_left].
    refine (conj _ (conj _ (conj (Broker.same_but_refl _ _ _) _))).
    + unfold ready. auto.
    + apply ok_done.
    + reflexivity.
Qed.

(** A step of one task leaves the others where they stand. *)
Lemma task_ok_frame (name other : str) (b b' : Broker.t) (tk : task) :
  other <> name -> Broker.same_but stream name b b' ->
  task_ok other b tk -> task_ok other b' tk.
Proof.
  intros Hne (_ & _ & _ & _ & Hl) Hok.
  assert (Hk : (stream, other) <> (stream, name)) by congruence.
  destruct Hok; econstructor; eauto; rewrite Hl; eauto.
Qed.

(** *** Any interleaving of the consumers' tasks *)

Lemma nth_error_replace_same (i : nat) (tk tk0 : task) (tasks : list task) :
  nth_error tasks i = Some tk0 ->
  nth_error (Helper.replace_nth i tk tasks) i = Some tk.
Proof.
  revert i; induction tasks as [|x tasks IH]; intros [|i] H; try discriminate.
  - reflexivity.
  - cbn [Helper.replace_nth nth_error] in *. now apply IH.
Qed.

Lemma nth_error_replace_other (i j : nat) (tk : task) (tasks : list task) :
  i <> j -> nth_error (Helper.replace_nth i tk tasks) j = nth_error tasks j.
Proof.
  revert i j; induction tasks as [|x tasks IH]; intros [|i] [|j] H;
    try reflexivity; try lia.
  cbn [Helper.replace_nth nth_error]. apply IH. lia.
Qed.

Definition all_ok (names : list str) (b : Broker.t) (tasks : list task) : Prop :=
  Forall2 (fun name tk => task_ok name b tk) names tasks.

Lemma all_ok_frame (name : str) (b b' : Broker.t) (names : list str)
    (tasks : list task) :
  ~ In name names -> Broker.same_but stream name b b' ->
  all_ok names b tasks -> all_ok names b' tasks.
Proof.
  intros Hnot Hs Hall. induction Hall as [|n t names tasks Hn Hall IH];
    constructor.
  - apply task_ok_frame with (name := name) (b := b); auto.
    intros ->. apply Hnot. now left.
  - apply IH. intros Hin. apply Hnot. now right.
Qed.

Lemma all_ok_step (names : list str) (b b' : Broker.t) (tasks : list task)
    (i : nat) (name : str) (tk' : task) :
  NoDup names -> all_ok names b tasks -> nth_error names i = Some name ->
  Broker.same_but stream name b b' -> task_ok name b' tk' ->
  all_ok names b' (Helper.replace_nth i tk' tasks).
Proof.
  intros Hnd Hall. revert i.
  induction Hall as [|n t names tasks Hn Hall IH]; intros i Hi Hs Hok.
  - destruct i; discriminate.
  - inversion Hnd as [|? ? Hnot Hnd']; subst.
    destruct i as [|i]; cbn [nth_error Helper.replace_nth] in *.
    + injection Hi as ->. constructor; [exact Hok|].
      now apply all_ok_frame with (name := name) (b := b).
    + constructor.
      * apply task_ok_frame with (name := name) (b := b); auto.
        intros ->. apply Hnot. now apply nth_error_In in Hi.
      * now apply IH.
Qed.

Lemma all_ok_nth (names : list str) (b : Broker.t) (tasks : list task)
    (i : nat) (tk : task) :
  all_ok names b tasks -> nth_error tasks i = Some tk ->
  exists name, nth_error names i = Some name /\ task_ok name b tk.
Proof.
  intros Hall. revert i.
  induction Hall as [|n t names tasks Hn Hall IH]; intros [|i] H;
    try discriminate.
  - injection H as <-. now exists n.
  - now apply IH.
Qed.

(** However the event loop interleaves the tasks, the helper stays
    ready, every task stays at a stand of [task_ok], and a task picked
    [c] times has [c] steps fewer before it. *)
Lemma interleave_ok (names : list str) (schedule : list nat) :
  NoDup names ->
  forall (tasks : list task) (self : helper),
    ready self -> all_ok names (Helper.broker self) tasks ->
    ready (snd (Helper.interleave ambient schedule tasks self)) /\
    all_ok names
      (Helper.broker (snd (Helper.interleave ambient schedule tasks self)))
      (fst (Helper.interleave ambient schedule tasks self)) /\
    forall i tk, nth_error tasks i = Some tk ->
      exists tk',
        nth_error (fst (Helper.interleave ambient schedule tasks self)) i
        = Some tk' /\
        Helper.steps_left tk'
        = Helper.steps_left tk - count_occ Nat.eq_dec schedule i.
Proof.
  intros Hnd. induction schedule as [|i schedule IH]; intros tasks self Hr Hall.
  - cbn [Helper.interleave fst snd count_occ].
    refine (conj Hr (conj Hall _)).
    intros i tk H. exists tk. split; [exact H|lia].
  - cbn [Helper.interleave].
    destruct (nth_error tasks i) as [tk|] eqn:Hi.
    + destruct (@all_ok_nth _ _ _ _ _ Hall Hi) as (name & Hname & Hok).
      destruct (@step_ok _ _ _ Hr Hok) as (Hr' & Hok' & Hs & Hleft).
      destruct (Helper.step ambient tk self) as [tk' self'].
      cbn [fst snd] in *.
      pose proof (@all_ok_step _ _ _ _ _ _ _ Hnd Hall Hname Hs Hok') as Hall'.
      destruct (IH _ _ Hr' Hall') as (H1 & H2 & H3).
      split; [exact H1|]. split; [exact H2|].
      intros j tkj Hj. cbn [count_occ].
      destruct (Nat.eq_dec i j) as [->|Hne].
      * destruct (H3 j tk' (@nth_error_replace_same _ tk' _ _ Hj)) as (tk'' & Hn & Hl).
        exists tk''. split; [exact Hn|].
        assert (tkj = tk) by congruence. subst tkj. lia.
      * destruct (H3 j tkj) as (tk'' & Hn & Hl).
        { now rewrite nth_error_replace_other. }
        exists tk''. split; [exact Hn|exact Hl].
    + destruct (IH _ _ Hr Hall) as (H1 & H2 & H3).
      split; [exact H1|]. split; [exact H2|].
      intros j tkj Hj. cbn [count_occ].
      destruct (Nat.eq_dec i j) as [->|Hne]; [congruence|].
      now apply H3.
Qed.

Lemma task_ok_done (name : str) (b : Broker.t) (tk : task) :
  task_ok name b tk ->
  (forall r, tk = Helper.Done r -> r = Ok msgs) /\
  (Helper.steps_left tk = 0 -> tk = Helper.Done (Ok msgs)).
Proof.
  intros H. destruct H; split; try discriminate; cbn [Helper.steps_left];
    try lia.
  - now intros r [= <-].
  - reflexivity.
Qed.

(** A task run alone to its end returns [msgs]. *)
Lemma run_ok (name : str) (fuel : nat) :
  forall (tk : task) (self : helper),
    ready self -> task_ok name (Helper.broker self) tk ->
    Helper.steps_left tk <= fuel ->
    fst (Helper.run ambient fuel tk self) = Helper.Done (Ok msgs) /\
    ready (snd (Helper.run ambient fuel tk self)) /\
    Broker.same_but stream name (Helper.broker self)
      (Helper.broker (snd (Helper.run ambient fuel tk self))).
Proof.
  induction fuel as [|fuel IH]; intros tk self Hr Hok Hf.
  - cbn [Helper.run fst snd].
    refine (conj _ (conj Hr (Broker.same_but_refl _ _ _))).
    apply (task_ok_done Hok). lia.
  - cbn [Helper.run].
    destruct (@step_ok _ _ _ Hr Hok) as (Hr' & Hok' & Hs & Hleft).
    destruct (Helper.step ambient tk self) as [tk' self']. cbn [fst snd] in *.
    destruct (IH tk' self' Hr' Hok') as (H1 & H2 & H3); [lia|].
    refine (conj H1 (conj H2 _)).
    now apply Broker.same_but_trans with (b2 := Helper.broker self').
Qed.

Lemma count_occ_run_on (tasks : list task) (i : nat) (tk : task) :
  nth_error tasks i = Some tk ->
  Helper.steps_left tk <= count_occ Nat.eq_dec (Tests.run_on tasks) i.
Proof.
  intros H. unfold Tests.run_on.
  assert (Hin : In i (seq 0 (List.length tasks))).
  { apply in_seq. split; [lia|]. cbn. apply nth_error_Some. congruence. }
  revert Hin. generalize (seq 0 (List.length tasks)) as l.
  induction l as [|a l IH]; intros Hin; [destruct Hin|].
  cbn [flat_map]. rewrite count_occ_app.
  destruct Hin as [->|Hin].
  - rewrite (nth_error_nth _ _ _ H), count_occ_repeat_eq by reflexivity. lia.
  - specialize (IH Hin). lia.
Qed.

(** Gathered under any schedule, every consumer's task returns
    [msgs]. *)
Lemma gather_ok (names : list str) (schedule : list nat) (tasks : list task)
    (self : helper) :
  NoDup names -> ready self -> all_ok names (Helper.broker self) tasks ->
  fst (Tests.gather ambient schedule tasks self)
  = repeat (Ok msgs) (List.length names) /\
  ready (snd (Tests.gather ambient schedule tasks self)).
Proof.
  intros Hnd Hr Hall. unfold Tests.gather.
  destruct (@interleave_ok names schedule Hnd tasks self Hr Hall) as (Hr1 & Hall1 & _).
  destruct (Helper.interleave ambient schedule tasks self) as [tasks1 self1].
  cbn [fst snd] in *.
  destruct (@interleave_ok names (Tests.run_on tasks1) Hnd tasks1 self1 Hr1 Hall1)
    as (Hr2 & Hall2 & Hleft).
  destruct (Helper.interleave ambient (Tests.run_on tasks1) tasks1 self1)
    as [tasks2 self2].
  cbn [fst snd] in *. split; [|exact Hr2].
  assert (Hdone : forall i tk2, nth_error tasks2 i = Some tk2 ->
            tk2 = Helper.Done (Ok msgs)).
  { intros i tk2 H2.
    destruct (nth_error tasks1 i) as [tk1|] eqn:H1.
    - destruct (Hleft i tk1 H1) as (tk' & Hn & Hl).
      assert (tk' = tk2) by congruence. subst tk'.
      pose proof (count_occ_run_on _ _ H1).
      destruct (@all_ok_nth _ _ _ _ _ Hall2 H2) as (name & _ & Hok).
      apply (task_ok_done Hok). lia.
    - apply nth_error_None in H1.
      assert (nth_error tasks2 i <> None) by congruence.
      apply nth_error_Some in H.
      pose proof (Forall2_length Hall1). pose proof (Forall2_length Hall2). lia. }
  pose proof (Forall2_length Hall2) as Hlen. rewrite Hlen.
  clear - Hdone. induction tasks2 as [|tk tasks2 IH]; [reflexivity|].
  cbn [map List.length repeat]. f_equal.
  - now rewrite (Hdone 0 tk eq_refl).
  - apply IH. intros i tk2 H. exact (Hdone (S i) tk2 H).
Qed.

End Flow.

Section Assembled.

Variable ambient : nat -> TestMessage.env.

(** The clock the constructor reads shows a real [datetime]. *)
Hypothesis ambient_now :
  forall n, Datetime.valid_datetime (TestMessage.now (ambient n)) = true.

(** The envelopes [publish_each] constructs, in order. *)
Fixpoint built (build : nat -> TestMessage.env -> TestMessage.t)
    (i made count : nat) : list TestMessage.t :=
  match count with
  | O => []
  | S count' => build i (ambient made) :: built build (S i) (S made) count'
  end.

Lemma built_length (build : nat -> TestMessage.env -> TestMessage.t)
    (i made count : nat) : List.length (built build i made count) = count.
Proof.
  revert i made; induction count as [|count IH]; intros i made;
    [reflexivity|]. cbn [built List.length]. now rewrite IH.
Qed.

Lemma valid_init (e : TestMessage.env) (i ty p : str) :
  negb (str_eqb i []) && Json.scalar_str i && Json.scalar_str ty
  && Json.scalar_str p = true ->
  Datetime.valid_datetime (TestMessage.now e) = true ->
  TestMessage.valid
    (TestMessage.__init__ e (PStr i) (PStr ty) (PStr p) None) = true.
Proof.
  intros H1 H2. destruct i as [|c i]; [discriminate|].
  unfold TestMessage.valid, TestMessage.__init__.
  cbn [TestMessage.id TestMessage.type TestMessage.payload TestMessage.timestamp
       truthy].
  now rewrite H1, H2.
Qed.




(** Publishing a valid envelope stores its JSON text at the end of the
    subject's view and changes nothing else but the log. *)
Lemma publish_message_ok (subject stream : str) (msg : TestMessage.t)
    (self : helper) :
  Helper.js self = true ->
  Broker.retains (Helper.broker self) stream subject = true ->
  TestMessage.valid msg = true ->
  exists self',
    Helper.publish_message subject msg self = (Ok tt, self') /\
    Helper.js self' = true /\ Helper.made self' = Helper.made self /\
    Broker.now (Helper.broker self') = Broker.now (Helper.broker self) /\
    Broker.ack_wait (Helper.broker self') = Broker.ack_wait (Helper.broker self) /\
    Broker.streams (Helper.broker self') = Broker.streams (Helper.broker self) /\
    Broker.consumers (Helper.broker self') = Broker.consumers (Helper.broker self) /\
    Broker.view (Helper.broker self') stream subject
    = Broker.view (Helper.broker self) stream subject ++ [TestMessage.to_json msg].
Proof.
  intros Hjs Hret Hv. unfold Helper.publish_message. rewrite Hjs. cbn [negb].
  rewrite (proj1 (wire_round_trip (ambient 0) msg Hv)).
  destruct (@Broker.publish_view (Helper.broker self) stream subject
              (TestMessage.to_json msg) Hret)
    as (b' & Hp & Hview & Hnow & Haw & Hs & Hc).
  change (Helper.publish subject (TestMessage.to_json msg) (Helper.broker self))
    with (Broker.publish subject (TestMessage.to_json msg) (Helper.broker self)).
  rewrite Hp. eexists. split; [reflexivity|].
  cbn [Helper.log Helper.called Helper.js Helper.made Helper.broker].
  repeat split; assumption.
Qed.

Lemma publish_each_ok (build : nat -> TestMessage.env -> TestMessage.t)
    (subject stream : str) (pause : option Z) (count : nat) :
  forall (i : nat) (sent : list TestMessage.t) (self : helper),
    Helper.js self = true ->
    Broker.retains (Helper.broker self) stream subject = true ->
    forallb TestMessage.valid (built build i (Helper.made self) count) = true ->
    exists self',
      Tests.publish_each ambient build subject pause i count sent self
      = (Ok (sent ++ built build i (Helper.made self) count), self') /\
      Helper.js self' = true /\
      Helper.made self' = Helper.made self + count /\
      Broker.ack_wait (Helper.broker self') = Broker.ack_wait (Helper.broker self) /\
      Broker.streams (Helper.broker self') = Broker.streams (Helper.broker self) /\
      Broker.consumers (Helper.broker self') = Broker.consumers (Helper.broker self) /\
      Broker.view (Helper.broker self') stream subject
      = Broker.view (Helper.broker self) stream subject
        ++ map TestMessage.to_json (built build i (Helper.made self) count).
Proof.
  induction count as [|count IH]; intros i sent self Hjs Hret Hv.
  - exists self. cbn [Tests.publish_each built map]. unfold Tests.ret.
    rewrite !app_nil_r, Nat.add_0_r. repeat split; auto.
  - cbn [built forallb] in Hv. apply andb_true_iff in Hv as [Hv1 Hv].
    cbn [Tests.publish_each built map].
    unfold Tests.seq_ at 1. unfold Tests.construct.
    unfold Tests.seq_ at 1.
    destruct (@publish_message_ok subject stream (build i (ambient (Helper.made self)))
                (Helper.constructed self) Hjs Hret Hv1)
      as (s1 & Hp & Hjs1 & Hm1 & _ & Haw1 & Hs1 & Hc1 & Hview1).
    rewrite Hp. unfold Tests.seq_ at 1.
    set (s2 := snd ((match pause with
                     | Some ms => Tests.asleep ms
                     | None => Tests.ret tt
                     end) s1)).
    assert (Hs2 : (match pause with
                   | Some ms => Tests.asleep ms
                   | None => Tests.ret tt
                   end) s1 = (Ok tt, s2)).
    { subst s2. destruct pause; reflexivity. }
    assert (Hsame : Helper.js s2 = Helper.js s1 /\ Helper.made s2 = Helper.made s1 /\
              Broker.ack_wait (Helper.broker s2) = Broker.ack_wait (Helper.broker s1) /\
              Broker.streams (Helper.broker s2) = Broker.streams (Helper.broker s1) /\
              Broker.stored (Helper.broker s2) = Broker.stored (Helper.broker s1) /\
              Broker.consumers (Helper.broker s2) = Broker.consumers (Helper.broker s1)).
    { subst s2. destruct pause; cbn; repeat split; reflexivity. }
    destruct Hsame as (Hjs2 & Hm2 & Haw2 & Hst2 & Hsto2 & Hc2).
    rewrite Hs2.
    cbn [Helper.constructed Helper.made] in Hm1.
    destruct (IH (S i) (sent ++ [build i (ambient (Helper.made self))]) s2)
      as (s3 & Hrun & Hjs3 & Hm3 & Haw3 & Hs3 & Hc3 & Hview3).
    + congruence.
    + rewrite (@Broker.retains_same _ _ stream subject (eq_trans Hst2 Hs1)). exact Hret.
    + rewrite Hm2, Hm1. exact Hv.
    + rewrite Hm2, Hm1 in *. exists s3. rewrite Hrun, <- app_assoc.
      split; [reflexivity|].
      unfold Helper.constructed in *.
      cbn [Helper.broker Helper.made Helper.js] in *.
      split; [exact Hjs3|]. split; [lia|].
      split; [now rewrite Haw3, Haw2|]. split; [now rewrite Hs3, Hst2|].
      split; [now rewrite Hc3, Hc2|].
      rewrite Hview3, (@Broker.view_same _ _ stream subject Hst2 Hsto2), Hview1,
        <- app_assoc.
      reflexivity.
Qed.

(** After the publishes, on a subject that held nothing before, the
    helper is ready for the consumers. *)
Lemma published_ready (build : nat -> TestMessage.env -> TestMessage.t)
    (subject stream : str) (pause : option Z) (count : nat) (self : helper) :
  Helper.js self = true ->
  Broker.retains (Helper.broker self) stream subject = true ->
  Broker.view (Helper.broker self) stream subject = [] ->
  forallb TestMessage.valid (built build 0 (Helper.made self) count) = true ->
  exists self',
    Tests.publish_each ambient build subject pause 0 count [] self
    = (Ok (built build 0 (Helper.made self) count), self') /\
    ready subject stream (built build 0 (Helper.made self) count) [] self' /\
    Broker.consumers (Helper.broker self') = Broker.consumers (Helper.broker self).
Proof.
  intros Hjs Hret Hview Hv.
  destruct (@publish_each_ok build subject stream pause count 0 [] self Hjs Hret Hv)
    as (self' & Hrun & Hjs' & _ & _ & Hs & Hc & Hview').
  exists self'. split; [exact Hrun|]. split; [|exact Hc].
  unfold ready. split; [exact Hjs'|]. split.
  - apply Broker.retains_has_stream with (subject := subject).
    now rewrite (@Broker.retains_same _ _ stream subject Hs).
  - now rewrite Hview', Hview, app_nil_r.
Qed.

(** C3. Publish [message_count] valid envelopes on a subject that held
    nothing, then gather one [subscribe_messages] task per durable name,
    each asking for [message_count]: whatever the interleaving, every
    one of the [N] new, distinct consumers returns the full list of the
    [message_count] envelopes published, in order: [N] times
    [message_count] deliveries, not a share each. *)
Theorem fan_out (build : nat -> TestMessage.env -> TestMessage.t)
    (subject stream : str) (names : list str) (message_count : nat)
    (schedule : list nat) (self : helper) :
  Helper.js self = true ->
  Broker.retains (Helper.broker self) stream subject = true ->
  Broker.view (Helper.broker self) stream subject = [] ->
  NoDup names ->
  (forall name, In name names ->
     Broker.lookup (Helper.broker self) stream name = None) ->
  forallb TestMessage.valid (built build 0 (Helper.made self) message_count)
  = true ->
  let published := built build 0 (Helper.made self) message_count in
  List.length published = message_count /\
  exists self',
    Tests.publish_then_gather ambient build subject stream message_count names
      message_count schedule self
    = (Ok (repeat (Ok published) (List.length names)), self').
Proof.
  intros Hjs Hret Hview Hnd Hnew Hv published.
  pose proof (built_length build 0 (Helper.made self) message_count) as Hlen.
  split; [exact Hlen|].
  destruct (@published_ready build subject stream None message_count self
              Hjs Hret Hview Hv) as (self1 & Hrun & Hready & Hc).
  unfold Tests.publish_then_gather, Tests.seq_. rewrite Hrun.
  fold published in Hready, Hlen, Hv.
  assert (Hall : all_ok subject stream published names (Helper.broker self1)
                   (map (fun name => Helper.Start subject stream name message_count)
                        names)).
  { clear Hnd. unfold all_ok. induction names as [|name names' IH];
      cbn [map]; constructor.
    - rewrite <- Hlen. apply ok_start.
      rewrite (@Broker.lookup_same _ _ stream name Hc). apply Hnew. now left.
    - apply IH. intros n Hn. apply Hnew. now right. }
  destruct (@gather_ok ambient subject stream published [] Hv names schedule _ self1
              Hnd Hready Hall) as (Hres & _).
  destruct (Tests.gather ambient schedule _ self1) as [results self2].
  cbn [fst] in Hres. subst results. now exists self2.
Qed.

(** Fetching as many messages as were published, under a new durable
    name, returns them in publish order. *)
Lemma subscribe_all (subject stream consumer : str)
    (msgs : list TestMessage.t) (self : helper) :
  forallb TestMessage.valid msgs = true ->
  ready subject stream msgs [] self ->
  Broker.lookup (Helper.broker self) stream consumer = None ->
  fst (Helper.subscribe_messages ambient subject stream consumer
         (List.length msgs) self) = Ok msgs.
Proof.
  intros Hv Hready Hnew.
  pose proof (@Helper.run_subscribe_messages _ _ _ _ ambient subject stream consumer
                (List.length msgs) (2 * List.length msgs + 2) self (le_n _)) as Hrun.
  destruct (@run_ok ambient subject stream msgs [] Hv consumer
              (2 * List.length msgs + 2)
              (Helper.Start subject stream consumer (List.length msgs)) self
              Hready (ok_start subject stream msgs consumer _ Hnew) (le_n _))
    as (Hdone & _).
  rewrite Hrun in Hdone. cbn [fst] in Hdone. now injection Hdone.
Qed.

Lemma ordering_built_valid (made : nat) :
  forallb TestMessage.valid (built Tests.ordering_msg 0 made 10) = true.
Proof.
  cbn [built forallb]. unfold Tests.ordering_msg.
  repeat (rewrite valid_init;
          [|vm_compute; reflexivity|apply ambient_now]).
  reflexivity.
Qed.

(** C2. Publish the envelopes [order-000] to [order-009] one after the
    other, each publish awaited, on a subject that held nothing; then
    fetch ten under one new durable name: the ten come back with their
    ids in the published order, and the test's assertions hold. *)
Theorem ordering_kept (epoch : Z) (self : helper) :
  Helper.js self = true ->
  Broker.retains (Helper.broker self) Tests.system_events Tests.ordering_subject
  = true ->
  Broker.view (Helper.broker self) Tests.system_events Tests.ordering_subject = [] ->
  Broker.lookup (Helper.broker self) Tests.system_events
    (Tests.ordering_consumer epoch) = None ->
  (exists received self',
      Tests.ordering_flow ambient epoch self = (Ok received, self') /\
      map TestMessage.id received
      = map (fun i => PStr (Tests.order_id i)) (seq 0 10)) /\
  fst (Tests.test_message_ordering ambient epoch self) = Ok tt.
Proof.
  intros Hjs Hret Hview Hnew.
  pose proof (ordering_built_valid (Helper.made self)) as Hv.
  destruct (@published_ready Tests.ordering_msg Tests.ordering_subject
              Tests.system_events (Some 10%Z) 10 self Hjs Hret Hview Hv)
    as (self1 & Hrun & Hready & Hc).
  pose proof (@subscribe_all Tests.ordering_subject Tests.system_events
                (Tests.ordering_consumer epoch) _ self1 Hv Hready) as Hsub.
  rewrite (@Broker.lookup_same _ _ Tests.system_events
             (Tests.ordering_consumer epoch) Hc) in Hsub.
  specialize (Hsub Hnew). rewrite built_length in Hsub.
  assert (Hflow : Tests.ordering_flow ambient epoch self
                  = (Ok (built Tests.ordering_msg 0 (Helper.made self) 10),
                     snd (Helper.subscribe_messages ambient Tests.ordering_subject
                            Tests.system_events (Tests.ordering_consumer epoch)
                            10 self1))).
  { unfold Tests.ordering_flow, Tests.seq_. rewrite Hrun.
    destruct (Helper.subscribe_messages ambient Tests.ordering_subject
                Tests.system_events (Tests.ordering_consumer epoch) 10 self1)
      as [r s2].
    cbn [fst snd] in *. now subst r. }
  split.
  - do 2 eexists. split; [exact Hflow|]. reflexivity.
  - unfold Tests.test_message_ordering, Tests.seq_. rewrite Hflow.
    reflexivity.
Qed.





End Assembled.

End Scenarios.

(* ================================================================== *)
(** ** A concrete broker and runs against it *)

Module Runs.
Import Py.
Local Open Scope string_scope.
Local Open Scope list_scope.

(** The constructor's surroundings: the n-th call gets its own uuid; the
    clock stands still. *)
Definition ambient (n : nat) : TestMessage.env :=
  TestMessage.mkEnv (113059749145936325402354257176981405696 + N.of_nat n)
    (mkDatetime 2024 3 9 14 5 7 250 None).

Lemma ambient_now (n : nat) :
  Datetime.valid_datetime (TestMessage.now (ambient n)) = true.
Proof. reflexivity. Qed.

(** A broker with the five streams, nothing stored, no consumer, and an
    ack-wait of a second and a half. *)
Definition broker : Broker.t :=
  Broker.mk 0 1500
    [ (lit "MARKET_DATA", [lit "finovatex.market.>"]);
      (lit "TRADING_SIGNALS", [lit "finovatex.signal.>"]);
      (lit "EXECUTION_EVENTS", [lit "finovatex.execution.>"]);
      (lit "RISK_EVENTS", [lit "finovatex.risk.>"]);
      (lit "SYSTEM_EVENTS", [lit "finovatex.system.>"]) ]
    [] [].

Definition connected : Scenarios.helper := Helper.mk true broker 0 [] [].

Definition epoch : Z := 1709993107.

(** C2 at this broker. *)
Lemma ordering_kept_witness :
  Helper.js connected = true /\
  Broker.retains broker Tests.system_events Tests.ordering_subject = true /\
  Broker.view broker Tests.system_events Tests.ordering_subject = [] /\
  Broker.lookup broker Tests.system_events (Tests.ordering_consumer epoch) = None /\
  fst (Tests.test_message_ordering ambient epoch connected) = Ok tt.
Proof.
  repeat (split; [vm_compute; reflexivity|]).
  apply (@Scenarios.ordering_kept ambient ambient_now epoch connected);
    vm_compute; reflexivity.
Defined.

Example ordering_ids :
  option_map (map TestMessage.id)
    (match fst (Tests.ordering_flow ambient epoch connected) with
     | Ok received => Some received
     | Raise _ => None
     end)
  = Some (map (fun s => PStr (lit s))
            [ "order-000"; "order-001"; "order-002"; "order-003"; "order-004";
              "order-005"; "order-006"; "order-007"; "order-008"; "order-009" ]).
Proof. vm_compute. reflexivity. Qed.

(** C3 at this broker: five messages, three consumers, the event loop
    switching task at every await. *)
Definition three : list str :=
  map (Tests.flow_consumer Tests.system_events (fun _ => epoch)) (seq 0 3).

Definition flow_subject : str := lit "finovatex.system.startup.TEST".

Definition round_robin : list nat :=
  flat_map (fun _ => [0; 1; 2]) (seq 0 12).

Lemma fan_out_witness :
  Helper.js connected = true /\
  Broker.retains broker Tests.system_events flow_subject = true /\
  Broker.view broker Tests.system_events flow_subject = [] /\
  (exists self',
     Tests.publish_then_gather ambient (Tests.flow_msg (lit "system"))
       flow_subject Tests.system_events 5 three 5 round_robin connected
     = (Ok (repeat (Ok (Scenarios.built ambient (Tests.flow_msg (lit "system")) 0 0 5))
                   3),
        self')).
Proof.
  repeat (split; [vm_compute; reflexivity|]).
  apply (@Scenarios.fan_out ambient (Tests.flow_msg (lit "system"))
           flow_subject Tests.system_events three 5 round_robin connected).
  - vm_compute; reflexivity.
  - vm_compute; reflexivity.
  - vm_compute; reflexivity.
  - unfold three. cbn [seq map].
    repeat constructor; cbn [In]; intros H;
      repeat (destruct H as [H|H]; [discriminate H|]); exact H.
  - intros name _. reflexivity.
  - vm_compute; reflexivity.
Defined.

Example test_publish_subscribe_flow_passes :
  fst (Tests._test_publish_subscribe_flow ambient (lit "system")
         Tests.system_events flow_subject (fun _ => epoch) round_robin connected)
  = Ok tt.
Proof. vm_compute. reflexivity. Qed.


Example test_message_retry_passes :
  fst (Tests.test_message_retry ambient epoch connected) = Ok tt.
Proof. vm_compute. reflexivity. Qed.

(** With the ack-wait at JetStream's default of thirty seconds the two
    seconds of the test are not enough: the second fetch times out. *)
Example test_message_retry_default_ack_wait :
  fst (Tests.test_message_retry ambient epoch
         (Helper.mk true
            (Broker.mk 0 30000 (Broker.streams broker) [] []) 0 [] []))
  = Raise TimeoutError.
Proof. vm_compute. reflexivity. Qed.

(** *** Fewer messages than asked for *)

Definition partial_subject : str := lit "finovatex.system.recovery.test".

(** The helper after two publishes on [partial_subject]. *)
Definition two_published : Scenarios.helper :=
  snd (Tests.publish_each ambient Tests.ordering_msg partial_subject None 0 2 []
         connected).

Definition partial_run : result (list TestMessage.t) * Scenarios.helper :=
  Helper.subscribe_messages ambient partial_subject Tests.system_events
    (lit "recovery-consumer") 5 two_published.

(** Five asked for, two stored: the two come back, the third fetch times
    out, the loop stops with a warning and nothing is raised. *)
Example partial_run_result :
  fst partial_run
  = Ok [ Tests.ordering_msg 0 (ambient 0); Tests.ordering_msg 1 (ambient 1) ] /\
  last (Helper.logs (snd partial_run)) (Helper.DEBUG, Helper.LFetchFailed KeyError)
  = (Helper.WARNING, Helper.LFetchFailed TimeoutError).
Proof. split; vm_compute; reflexivity. Qed.


(** C5, as the code has it, at this broker. *)
Lemma subscribe_messages_acks_witness :
  exists rounds : list (@Helper.round Broker.msg),
    Helper.calls (snd partial_run)
    = Helper.calls two_published
      ++ Helper.CSubscribe partial_subject (lit "recovery-consumer")
           Tests.system_events true
         :: flat_map (@Helper.calls_of (str * str) Broker.msg) rounds /\
    match fst partial_run with Ok msgs => msgs | Raise _ => [] end
    = flat_map (@Helper.returned Broker.msg) rounds /\
    Helper.only_last_stops rounds = true /\
    Forall (Helper.deserialized ambient) rounds /\
    List.length rounds <= 5.
Proof.
  apply (@Helper.subscribe_messages_acks _ _ _ _ ambient partial_subject
           Tests.system_events (lit "recovery-consumer") 5 two_published
           (snd partial_run)
           (match fst partial_run with Ok msgs => msgs | Raise _ => [] end)).
  vm_compute; reflexivity.
Defined.

(** *** A connection that drops between the fetch and the ack *)

(** Every fetch hands over the sample envelope, every ack raises. *)
#[local] Instance connection_lost : Helper.JetStream unit unit Utf8.bytes := {|
  Helper.publish := fun _ _ b => (Ok tt, b);
  Helper.pull_subscribe := fun _ _ _ b => (Ok tt, b);
  Helper.fetch := fun _ _ _ b => (Ok [TestMessage.to_json TestMessage.sample], b);
  Helper.data := fun m => m;
  Helper.ack := fun _ b => (Raise BrokerError, b);
  Helper.sleep := fun _ b => b |}.

(** The messages whose [ack] call returned. *)
Definition acknowledged {P M : Type} (cs : list (Helper.call P M)) : list M :=
  flat_map (fun c => match c with
                     | Helper.CAck m true => [m]
                     | _ => []
                     end) cs.

(** [subscribe_messages] returns a message whose acknowledgement failed:
    it was appended before [ack] was called, and the exception only ends
    the loop.  The claim that no returned message is left unacknowledged
    fails here. *)
Lemma returned_unacknowledged :
  let r := Helper.subscribe_messages (JS := connection_lost) ambient
             partial_subject Tests.system_events (lit "recovery-consumer") 1
             (Helper.mk true tt 0 [] []) in
  fst r = Ok [TestMessage.sample] /\
  Helper.calls (snd r)
  = [ Helper.CSubscribe partial_subject (lit "recovery-consumer")
        Tests.system_events true;
      Helper.CFetch (Ok [TestMessage.to_json TestMessage.sample]);
      Helper.CAck (TestMessage.to_json TestMessage.sample) false ] /\
  acknowledged (Helper.calls (snd r)) = [].
Proof. vm_compute. repeat split; reflexivity. Qed.

End Runs.

(* ================================================================== *)
(** ** The benchmarks

    [time.time()] readings are rationals; float rounding is outside this
    model.  The wall clock is whatever the system shows: [wall k] is
    its k-th reading, and nothing says a later reading is larger. *)

Module Bench.
Import Py.
Local Open Scope string_scope.
Local Open Scope list_scope.

Section WithBroker.

Context {B P M : Type} {JS : Helper.JetStream B P M}.

Variable ambient : nat -> TestMessage.env.
Variable wall : nat -> Q.

Abbreviation helper := (@Helper.t B P M).

(** A benchmark body: the helper, and how many times the clock has been
    read. *)
Definition bench (A : Type) : Type := helper * nat -> result A * (helper * nat).

Definition ret {A} (a : A) : bench A := fun w => (Ok a, w).

Definition raise {A} (e : exn) : bench A := fun w => (Raise e, w).

Definition seq_ {A C} (a : bench A) (k : A -> bench C) : bench C :=
  fun w =>
    match a w with
    | (Ok x, w') => k x w'
    | (Raise e, w') => (Raise e, w')
    end.

Notation "x <- a ;; k" := (seq_ a (fun x => k))
  (at level 61, a at next level, right associativity).
Notation "a ;;; k" := (seq_ a (fun _ => k))
  (at level 61, right associativity).

Definition lift {A} (a : Tests.action (B := B) (P := P) (M := M) A) : bench A :=
  fun w => let (r, self) := a (fst w) in (r, (self, snd w)).

Definition time_time : bench Q :=
  fun w => (Ok (wall (snd w)), (fst w, S (snd w))).

Definition info (what : Helper.metric) (value : Q) : bench unit :=
  fun w => (Ok tt, (Helper.log Helper.INFO (Helper.LMeasured what value) (fst w), snd w)).

Definition assert_ (cond : bool) : bench unit :=
  if cond then ret tt else raise AssertionError.

(** [x / y] on numbers. *)
Definition divide (x y : Q) : bench Q :=
  if Qeq_bool y 0 then raise ZeroDivisionError else ret (x / y)%Q.

Definition Qlt_bool (x y : Q) : bool := negb (Qle_bool y x).

(** *** [test_message_throughput] *)

Definition throughput_subject : str := lit "finovatex.market.benchmark.throughput".

Definition throughput_msg (e : TestMessage.env) : TestMessage.t :=
  TestMessage.__init__ e PNone (PStr (lit "benchmark"))
    (PStr [24615; 33021; 27979; 35797; 28040; 24687]%N) None.

(** [asyncio.gather] of [count] tasks, each one [publish_message] of the
    same message: a task has a single await, so the tasks run one after
    the other in some order, and all orders are the same.  The first
    exception goes to the caller. *)
Fixpoint publish_concurrently (subject : str) (msg : TestMessage.t) (count : nat)
  : Tests.action (B := B) (P := P) (M := M) unit :=
  match count with
  | O => Tests.ret tt
  | S count' =>
      Tests.seq_ (Helper.publish_message subject msg)
                 (fun _ => publish_concurrently subject msg count')
  end.

(** The benchmark up to its assertion; it returns the throughput it
    logs. *)
Definition throughput_flow (message_count : nat) : bench Q :=
  msg <- lift (Tests.construct ambient throughput_msg) ;;
  start_time <- time_time ;;
  lift (publish_concurrently throughput_subject msg message_count) ;;;
  end_time <- time_time ;;
  let duration := (end_time - start_time)%Q in
  throughput <- divide (inject_Z (Z.of_nat message_count)) duration ;;
  info Helper.Throughput throughput ;;;
  info Helper.TotalTime duration ;;;
  ret throughput.

Definition test_message_throughput : bench unit :=
  throughput <- throughput_flow 1000 ;;
  assert_ (Qlt_bool 1000 throughput).

(** *** [test_message_latency] *)

Definition latency_subject : str := lit "finovatex.market.benchmark.latency".
Definition market_data : str := lit "MARKET_DATA".

Definition latency_msg (i : nat) (e : TestMessage.env) : TestMessage.t :=
  TestMessage.__init__ e
    (PStr (lit "latency-test-" ++ Json.int_repr (Z.of_nat i)))
    (PStr (lit "latency_benchmark"))
    (PStr [24310; 36831; 27979; 35797; 28040; 24687]%N) None.

(** The turns [i], [i+1], ... of the loop, [count] of them. *)
Fixpoint latency_loop (consumer_name : str) (i count : nat) (latencies : list Q)
  : bench (list Q) :=
  match count with
  | O => ret latencies
  | S count' =>
      start_time <- time_time ;;
      msg <- lift (Tests.construct ambient (latency_msg i)) ;;
      lift (Helper.publish_message latency_subject msg) ;;;
      received_messages <-
        lift (Helper.subscribe_messages ambient latency_subject market_data
                (consumer_name ++ [45%N] ++ Json.int_repr (Z.of_nat i)) 1) ;;
      end_time <- time_time ;;
      let latency := ((end_time - start_time) * 1000)%Q in
      let latencies := latencies ++ [latency] in
      assert_ (Nat.eqb (List.length received_messages) 1) ;;;
      assert_ (match received_messages with
               | m :: _ => Tests.same_id (TestMessage.id m) (TestMessage.id msg)
               | [] => false
               end) ;;;
      latency_loop consumer_name (S i) count' latencies
  end.

(** [sum], [max] and [min] of a list of numbers. *)
Definition sum (l : list Q) : Q := fold_left Qplus l 0%Q.

Definition maximum (x : Q) (l : list Q) : Q :=
  fold_left (fun cur y => if Qlt_bool cur y then y else cur) l x.

Definition minimum (x : Q) (l : list Q) : Q :=
  fold_left (fun cur y => if Qlt_bool y cur then y else cur) l x.

(** The figures of the report. *)
Record report := mkReport {
  latencies : list Q;
  avg_latency : Q;
  max_latency : Q;
  min_latency : Q }.

Definition latency_flow (test_count : nat) : bench report :=
  now <- time_time ;;
  let consumer_name := lit "latency-benchmark-" ++ Json.int_repr (Qfloor now) in
  latencies <- latency_loop consumer_name 0 test_count [] ;;
  avg_latency <- divide (sum latencies)
                        (inject_Z (Z.of_nat (List.length latencies))) ;;
  match latencies with
  | [] => raise ValueError
  | x :: rest =>
      let max_latency := maximum x rest in
      let min_latency := minimum x rest in
      info Helper.AvgLatency avg_latency ;;;
      info Helper.MaxLatency max_latency ;;;
      info Helper.MinLatency min_latency ;;;
      ret (mkReport latencies avg_latency max_latency min_latency)
  end.

Definition test_message_latency : bench unit :=
  r <- latency_flow 100 ;;
  assert_ (Qlt_bool (avg_latency r) 50).










End WithBroker.

(** *** Runs *)

(** A clock that ticks three milliseconds between readings. *)
Definition steady (k : nat) : Q :=
  (1709993107 + inject_Z (Z.of_nat k) * (3 # 1000))%Q.


Example throughput_steady :
  exists throughput,
    fst (throughput_flow Runs.ambient steady 1000 (Runs.connected, 0))
    = Ok throughput /\
    (throughput == 1000 / (3 # 1000))%Q.
Proof. eexists. split; [vm_compute; reflexivity|reflexivity]. Qed.



End Bench.

(* ================================================================== *)
(** ** What the benchmarks publish and report, for every broker *)

Module BenchReport.
Import Py.
Local Open Scope list_scope.

Section WithBroker.

Context {B P M : Type} {JS : Helper.JetStream B P M}.

Variable ambient : nat -> TestMessage.env.
Variable wall : nat -> Q.

Abbreviation helper := (@Helper.t B P M).

(** X19. The publishes of the throughput benchmark all carry the one
    envelope built before the clock is read: when they have all
    returned, the broker has been called [count] times with the same
    subject and the same bytes, and no envelope has been built
    meanwhile. *)
Theorem publish_concurrently_same (subject : str) (msg : TestMessage.t)
    (count : nat) (self self' : helper) :
  Bench.publish_concurrently subject msg count self = (Ok tt, self') ->
  Helper.made self' = Helper.made self /\
  match Utf8.encode (TestMessage.to_json msg) with
  | Ok payload =>
      Helper.calls self'
      = Helper.calls self ++ repeat (Helper.CPublish subject payload true) count
  | Raise _ => count = 0 /\ Helper.calls self' = Helper.calls self
  end.
Proof.
  revert self. induction count as [|count IH]; intros self.
  - cbn [Bench.publish_concurrently]. unfold Tests.ret. intros [= <-].
    split; [reflexivity|].
    destruct (Utf8.encode _); [cbn; now rewrite app_nil_r|auto].
  - cbn [Bench.publish_concurrently]. unfold Tests.seq_.
    destruct (Helper.publish_message subject msg self) as [[u|e] s1] eqn:Hpub;
      [|discriminate].
    intros Hrest. destruct (IH s1 Hrest) as [Hmade Hcalls].
    unfold Helper.publish_message in Hpub.
    destruct (negb (Helper.js self)); [discriminate|].
    destruct (Utf8.encode (TestMessage.to_json msg)) as [payload|e];
      [|discriminate].
    destruct (Helper.publish subject payload (Helper.broker self)) as [[u'|e] b];
      [|discriminate].
    injection Hpub as _ <-.
    cbn [Helper.log Helper.called Helper.made Helper.calls is_ok] in *.
    split; [exact Hmade|].
    rewrite Hcalls, <- app_assoc. reflexivity.
Qed.

Lemma faster_than_1000 (d : Q) :
  Qeq_bool d 0 = false ->
  Bench.Qlt_bool 1000 (inject_Z (Z.of_nat 1000) / d) = true
  <-> (0 < d)%Q /\ (d < 1)%Q.
Proof.
  intros Hd. unfold Bench.Qlt_bool. rewrite negb_true_iff.
  destruct d as [n p].
  assert (Hn : n <> 0%Z).
  { intros ->. unfold Qeq_bool in Hd. cbn in Hd. discriminate. }
  clear Hd. unfold Qle_bool, Qdiv, Qmult, Qinv, Qlt.
  destruct n as [|n|n]; [congruence| |]; cbn [Qnum Qden inject_Z Z.of_nat].
  - rewrite Z.leb_gt. cbn. split.
    + intros H. split; lia.
    + intros [_ H]. lia.
  - split.
    + intros H. apply Z.leb_gt in H. cbn in H. lia.
    + intros [H _]. cbn in H. lia.
Qed.

(** X20. The throughput test passes exactly when every publish returned
    and the clock moved forward by less than a second between its two
    readings: 1000 messages over the elapsed time is then above 1000 a
    second.  A clock that stood still or went back fails it. *)
Theorem throughput_passes_iff (self : helper) (k : nat) :
  let msg := Bench.throughput_msg (ambient (Helper.made self)) in
  let elapsed := (wall (S k) - wall k)%Q in
  fst (Bench.test_message_throughput ambient wall (self, k)) = Ok tt
  <-> fst (Bench.publish_concurrently Bench.throughput_subject msg 1000
             (Helper.constructed self)) = Ok tt /\
      (0 < elapsed)%Q /\ (elapsed < 1)%Q.
Proof.
  cbv zeta. unfold Bench.test_message_throughput, Bench.throughput_flow.
  unfold Bench.seq_ at 1. unfold Bench.seq_ at 1.
  unfold Bench.lift at 1, Tests.construct. cbn [fst snd].
  unfold Bench.seq_ at 1. unfold Bench.time_time at 1. cbn [fst snd].
  unfold Bench.seq_ at 1. unfold Bench.lift at 1. cbn [fst snd].
  destruct (Bench.publish_concurrently Bench.throughput_subject
              (Bench.throughput_msg (ambient (Helper.made self))) 1000
              (Helper.constructed self)) as [[u|e] s1]; cbn [fst snd].
  - unfold Bench.seq_ at 1. unfold Bench.time_time at 1. cbn [fst snd].
    unfold Bench.seq_ at 1. unfold Bench.divide.
    destruct (Qeq_bool (wall (S k) - wall k) 0) eqn:E.
    + unfold Bench.raise. cbn [fst]. split; [discriminate|].
      intros (_ & H & _). apply Qeq_bool_iff in E. rewrite E in H.
      discriminate H.
    + unfold Bench.ret, Bench.seq_, Bench.info, Bench.assert_. cbn [fst snd].
      pose proof (faster_than_1000 _ E) as Hf.
      destruct (Bench.Qlt_bool 1000 _).
      * unfold Bench.ret. cbn [fst]. destruct u. split; [|reflexivity].
        intros _. split; [reflexivity|]. now apply Hf.
      * unfold Bench.raise. cbn [fst]. split; [discriminate|].
        intros (_ & H). apply Hf in H. discriminate.
  - split; [discriminate|]. intros [H _]. discriminate.
Qed.



End WithBroker.

End BenchReport.

(* ================================================================== *)
(** ** Runs of the helper and the benchmarks on the broker of [Runs] *)

Module TraceRuns.
Import Py.
Local Open Scope string_scope.
Local Open Scope list_scope.

Lemma publish_message_sends_witness :
  let subject := lit "finovatex.system.ordering.test" in
  fst (Helper.publish_message subject TestMessage.sample Runs.connected)
  = fst (Helper.publish subject (TestMessage.to_json TestMessage.sample)
           (Helper.broker Runs.connected)).
Proof.
  cbv zeta.
  exact (proj1 (@HelperTrace.publish_message_sends _ _ _ _
                  (lit "finovatex.system.ordering.test")
                  (lit "order-000") (lit "ordering_test")
                  [26377; 24207; 28040; 24687; 32; 48]%N
                  (mkDatetime 2024 3 9 14 5 7 250 None) Runs.connected eq_refl)).
Defined.

Lemma publish_concurrently_same_witness :
  let msg := Bench.throughput_msg (Runs.ambient 0) in
  let r := Bench.publish_concurrently Bench.throughput_subject msg 3
             Runs.connected in
  fst r = Ok tt /\
  Helper.calls (snd r)
  = repeat (Helper.CPublish Bench.throughput_subject (TestMessage.to_json msg) true) 3.
Proof.
  cbv zeta. split; [vm_compute; reflexivity|].
  assert (Hrun : Bench.publish_concurrently Bench.throughput_subject
                   (Bench.throughput_msg (Runs.ambient 0)) 3 Runs.connected
                 = (Ok tt,
                    snd (Bench.publish_concurrently Bench.throughput_subject
                           (Bench.throughput_msg (Runs.ambient 0)) 3
                           Runs.connected)))
    by (vm_compute; reflexivity).
  exact (proj2 (@BenchReport.publish_concurrently_same _ _ _ _ _ _ _ _ _ Hrun)).
Defined.


End TraceRuns.
